(** * plaud-extractor: synchronisation and integrity core

    A shallow embedding of the incremental tracker, the retry policy, the
    bounded work queue, the atomic writer, the checksum verifier and the sync
    orchestrator, followed by the properties established about them. *)

From Stdlib Require Import ZArith Ascii String.
From stdpp Require Import base tactics option list strings pretty gmap fin_maps.

Local Open Scope Z_scope.
#[local] Set Warnings "-clear-no-such-hyp".

(** * Part I: the program *)

(** ** Thrown values (errors.ts) *)

(** What a [catch] clause can receive: the error classes of errors.ts with
    the fields the core reads, any other [Error], or a value that is not an
    [Error] at all (kept as its [String(v)] rendering). *)
Inductive Thrown :=
| ApiError (message : string) (statusCode : Z)
| AuthError (message : string)
| StorageError (message : string) (path : string) (cause : Thrown)
| OtherError (message : string)
| NonError (rendering : string).

(** ** Checksum manifests as [verifyChecksums] reads them

    [JSON.parse(raw) as ChecksumManifest] checks nothing, so what the loop
    gets is whatever the text parses to.  An entry of [files] is looked at
    through [expected.sha256] only. *)
Inductive ManifestEntry :=
| Unusable (e : Thrown)
    (** [null], or a digest that cannot be put into the message of a
        mismatch record: the loop throws [e], a [TypeError], at this entry *)
| Recorded (sha256 : option string).
    (** any other entry; [sha256] is the digest when it is a string, [None]
        when it is missing or another kind of value *)

Inductive ParsedManifest :=
| NotJSON
    (** the text is not JSON: [JSON.parse] throws *)
| NoFiles (e : Thrown)
    (** [null], or a value whose [files] is missing or [null]: reaching for
        the entries throws [e], a [TypeError] *)
| Files (entries : list (string * ManifestEntry)).
    (** a value with [files]; [entries] is what [Object.entries] yields, in
        its order *)

(** ** Runtime interface

    Services of the JavaScript runtime and of Node that the repository calls
    but does not define.  The development is parametric in them. *)

Class Runtime := {
  (** the type of JavaScript numbers (IEEE-754 doubles) *)
  JsNumber : Type;
  (** [JSON.stringify] on a number *)
  number_to_json : JsNumber -> string;
  (** [crypto.createHash('sha256').update(s).digest('hex')] *)
  sha256_hex : string -> string;
  (** [path.join(a, b)] *)
  path_join : string -> string -> string;
  (** [JSON.parse(raw) as ChecksumManifest] *)
  JSON_parse_manifest : string -> ParsedManifest;
}.

(** ** Strings as JavaScript sees them *)

(** [!s]: the empty string is the only falsy string. *)
Definition str_falsy (s : string) : bool :=
  match s with EmptyString => true | String _ _ => false end.

(** [!o] for an optional string field ([undefined] is falsy). *)
Definition opt_falsy (o : option string) : bool :=
  match o with None => true | Some s => str_falsy s end.

Fixpoint str_prefix (p s : string) : bool :=
  match p, s with
  | EmptyString, _ => true
  | String a p', String b s' => if Ascii.eqb a b then str_prefix p' s' else false
  | String _ _, EmptyString => false
  end.

(** [s.includes(p)] *)
Fixpoint str_includes (s p : string) : bool :=
  if str_prefix p s then true
  else match s with
       | EmptyString => false
       | String _ s' => str_includes s' p
       end.

(** [s.slice(0, n)] *)
Fixpoint str_take (n : nat) (s : string) : string :=
  match n, s with
  | S n', String c s' => String c (str_take n' s')
  | _, _ => EmptyString
  end.

(** ** [JSON.stringify] on the shapes the tracker serialises *)

Definition hex_digit (n : N) : ascii :=
  ascii_of_N (if (n <? 10)%N then 48 + n else 87 + n)%N.

Definition backslash : ascii := "092".

(** One character of a JSON string literal: quote, backslash and the control
    characters are escaped, everything else is copied. *)
Definition json_escape_char (c : ascii) : string :=
  let n := N_of_ascii c in
  if (n =? 34)%N then String backslash (String c EmptyString)
  else if (n =? 92)%N then String backslash (String backslash EmptyString)
  else if (n =? 8)%N then String backslash "b"
  else if (n =? 12)%N then String backslash "f"
  else if (n =? 10)%N then String backslash "n"
  else if (n =? 13)%N then String backslash "r"
  else if (n =? 9)%N then String backslash "t"
  else if (n <? 32)%N then
    String backslash "u00"
    +:+ String (hex_digit (n / 16)) (String (hex_digit (n mod 16)) EmptyString)
  else String c EmptyString.

Fixpoint json_escape (s : string) : string :=
  match s with
  | EmptyString => EmptyString
  | String c s' => json_escape_char c +:+ json_escape s'
  end.

Definition dquote : string := String "034" EmptyString.

Definition json_string (s : string) : string :=
  dquote +:+ json_escape s +:+ dquote.

Definition json_bool (b : bool) : string :=
  if b then "true" else "false".

(** A property of an object literal; [None] stands for a value that is
    [undefined], which [JSON.stringify] leaves out. *)
Definition json_member (key : string) (value : option string) : list string :=
  match value with
  | Some v => [json_string key +:+ ":" +:+ v]
  | None => []
  end.

Fixpoint str_join (sep : string) (l : list string) : string :=
  match l with
  | [] => EmptyString
  | [x] => x
  | x :: l' => x +:+ sep +:+ str_join sep l'
  end.

Definition json_object (members : list string) : string :=
  "{" +:+ str_join "," members +:+ "}".

(** ** Data model *)

Inductive TranscriptStatus := Pending | Processing | Completed | Failed.

Definition TranscriptStatus_to_string (s : TranscriptStatus) : string :=
  match s with
  | Pending => "pending"
  | Processing => "processing"
  | Completed => "completed"
  | Failed => "failed"
  end.

Section DataModel.
Context `{Runtime}.

(** [PlaudRecording] of client/types.ts; [rec_raw] is the verbatim API
    payload, kept as its serialised text. *)
Record PlaudRecording := {
  rec_id : string;
  rec_title : option string;
  rec_duration : JsNumber;
  rec_recordedAt : string;
  rec_createdAt : string;
  rec_updatedAt : string;
  rec_fileSize : option JsNumber;
  rec_mimeType : string;
  rec_hasTranscript : bool;
  rec_transcriptStatus : option TranscriptStatus;
  rec_language : option string;
  rec_deviceId : option string;
  rec_tags : option (list string);
  rec_folderId : option string;
  rec_summary : option string;
  rec_raw : string;
}.
End DataModel.

(** [RecordingState] and [SyncState] of sync/types.ts.  The recordings are
    a plain object used as a map from ids to states: [recordings[id]] is the
    lookup [!!] and [recordings[id] = state] the insertion.  The one key on
    which a plain object differs from a map is ["__proto__"]; the difference
    shows in what is serialised, see [written]. *)
Record RecordingState := {
  st_recordedAt : string;
  st_contentHash : option string;
  st_downloadedAt : option string;
  st_hasAudio : bool;
  st_hasTranscript : bool;
  st_verified : bool;
  st_verifiedAt : option string;
}.

Record SyncState := {
  ss_lastSuccessfulSyncAt : option string;
  ss_lastAttemptAt : option string;
  ss_recordings : gmap string RecordingState;
}.

(** ** IncrementalTracker (sync/incremental.ts) *)

Section IncrementalTracker.
Context `{Runtime}.

(** The state a fresh tracker starts from. *)
Definition tracker_empty : SyncState :=
  {| ss_lastSuccessfulSyncAt := None;
     ss_lastAttemptAt := None;
     ss_recordings := ∅ |}.

(** [load]: [file] is the schema-validated content of the state file, or
    [None] when it is missing, unreadable or invalid. *)
Definition load (file : option SyncState) : SyncState :=
  match file with
  | Some s => s
  | None => tracker_empty
  end.

(** The key that [computeContentHash] feeds to the digest. *)
Definition contentHash_key (recording : PlaudRecording) : string :=
  json_object
    (json_member "id" (Some (json_string (rec_id recording)))
     ++ json_member "updatedAt" (Some (json_string (rec_updatedAt recording)))
     ++ json_member "hasTranscript" (Some (json_bool (rec_hasTranscript recording)))
     ++ json_member "transcriptStatus"
          (json_string ∘ TranscriptStatus_to_string <$> rec_transcriptStatus recording)
     ++ json_member "duration" (Some (number_to_json (rec_duration recording)))
     ++ json_member "title" (json_string <$> rec_title recording)).

Definition computeContentHash (recording : PlaudRecording) : string :=
  str_take 16 (sha256_hex (contentHash_key recording)).

Definition needsDownload (t : SyncState) (recording : PlaudRecording) : bool :=
  match ss_recordings t !! rec_id recording with
  | None => true
  | Some existing =>
      let newHash := computeContentHash recording in
      if bool_decide (st_contentHash existing ≠ Some newHash) then true
      else if negb (st_hasTranscript existing) && rec_hasTranscript recording then true
      else if opt_falsy (st_downloadedAt existing) then true
      else false
  end.

(** [markComplete]; [now] is the reading of [new Date().toISOString()]. *)
Definition markComplete (now : string) (recordingId recordedAt : string)
    (hasAudio hasTranscript : bool) (contentHash : string)
    (t : SyncState) : SyncState :=
  {| ss_lastSuccessfulSyncAt := ss_lastSuccessfulSyncAt t;
     ss_lastAttemptAt := ss_lastAttemptAt t;
     ss_recordings :=
       <[recordingId :=
           {| st_recordedAt := recordedAt;
              st_contentHash := Some contentHash;
              st_downloadedAt := Some now;
              st_hasAudio := hasAudio;
              st_hasTranscript := hasTranscript;
              st_verified := false;
              st_verifiedAt := None |}]> (ss_recordings t) |}.

Definition markSuccessfulSync (now : string) (t : SyncState) : SyncState :=
  {| ss_lastSuccessfulSyncAt := Some now;
     ss_lastAttemptAt := ss_lastAttemptAt t;
     ss_recordings := ss_recordings t |}.

(** [getSince]: the timestamp the next incremental pass filters from. *)
Definition getSince (t : SyncState) : option string :=
  if opt_falsy (ss_lastSuccessfulSyncAt t) then None
  else ss_lastSuccessfulSyncAt t.

(** The in-memory part of [persist]: stamp [lastAttemptAt]. *)
Definition persist_stamp (now : string) (t : SyncState) : SyncState :=
  {| ss_lastSuccessfulSyncAt := ss_lastSuccessfulSyncAt t;
     ss_lastAttemptAt := Some now;
     ss_recordings := ss_recordings t |}.

(** What [JSON.stringify(this.state)] writes of a tracker, as it is read
    back.  The recordings are a plain object, on which the key ["__proto__"]
    is special: [recordings[id] = state] with that [id] replaces the
    prototype of the object instead of adding a property.  A later
    [recordings[id]] in the same process finds the state there, which is
    what the lookups above do; but [JSON.stringify] goes through the own
    properties of the object, so this entry never reaches the file. *)
Definition written (t : SyncState) : SyncState :=
  {| ss_lastSuccessfulSyncAt := ss_lastSuccessfulSyncAt t;
     ss_lastAttemptAt := ss_lastAttemptAt t;
     ss_recordings := delete "__proto__" (ss_recordings t) |}.

(** Timestamps stored in a state are ISO date-times (the schema's
    [z.string().datetime()], and [toISOString] on writes), hence never the
    empty string. *)
Definition RecordingState_wf (st : RecordingState) : Prop :=
  st_downloadedAt st ≠ Some EmptyString.

Definition SyncState_wf (t : SyncState) : Prop :=
  ∀ k st, ss_recordings t !! k = Some st → RecordingState_wf st.
End IncrementalTracker.

(** ** Which errors are retried (sync/download-queue.ts) *)

(** [ApiError.isRetryable] *)
Definition isRetryable (statusCode : Z) : bool :=
  (500 <=? statusCode) || (statusCode =? 429).

Definition isRetryableError (err : Thrown) : bool :=
  match err with
  | ApiError _ statusCode => isRetryable statusCode
  | AuthError m | StorageError m _ _ | OtherError m => str_includes m "429"
  | NonError _ => false
  end.

(** A settled promise: rejected with a thrown value, or fulfilled. *)
Abbreviation Result T := (Thrown + T)%type.

(** ** retryWithBackoff (sync/download-queue.ts) *)

Inductive RetryEvent :=
| Invoked
| Slept (ms : Z)
| Warned (attempt : Z).

Definition delays : list Z := [0; 1000; 4000; 16000].

(** [delays[attempt] ?? 16000] *)
Definition retry_delay (attempt : Z) : Z :=
  if attempt <? 0 then 16000 else default 16000 (delays !! Z.to_nat attempt).

Section Retry.
Context {St T : Type}.

(** The thunk [fn] is stateful: one invocation takes the world from [st] to
    a new state and settles with a value or a thrown error. *)
Variable fn : St → Result T * St.

(** The [for] loop of [retryWithBackoff], one iteration per unit of fuel;
    [log] records the invocations of [fn], the sleeps and the warning.
    Leaving the loop by its condition reaches the final [throw]. *)
Fixpoint retry_loop (fuel : nat) (maxAttempts attempt : Z) (st : St)
    (log : list RetryEvent) : Result T * St * list RetryEvent :=
  match fuel with
  | O => (inl (OtherError "Retry loop exhausted"), st, log)
  | S fuel' =>
      if attempt <=? maxAttempts then
        match fn st with
        | (inr v, st') => (inr v, st', log ++ [Invoked])
        | (inl err, st') =>
            let isLast := attempt =? maxAttempts in
            let retryable := isRetryableError err in
            if isLast || negb retryable then
              (inl err, st',
               log ++ [Invoked] ++ (if 1 <? attempt then [Warned attempt] else []))
            else
              retry_loop fuel' maxAttempts (attempt + 1) st'
                (log ++ [Invoked; Slept (retry_delay attempt)])
        end
      else (inl (OtherError "Retry loop exhausted"), st, log)
  end.

(** [opts.maxAttempts ?? 4]; the loop runs at most [maxAttempts] times. *)
Definition retryWithBackoff (maxAttempts : option Z) (st : St)
    : Result T * St * list RetryEvent :=
  let m := default 4 maxAttempts in
  retry_loop (S (Z.to_nat m)) m 1 st [].
End Retry.

(** How many times the thunk was called, read off the log. *)
Fixpoint invocations (log : list RetryEvent) : nat :=
  match log with
  | [] => 0
  | Invoked :: log' => S (invocations log')
  | _ :: log' => invocations log'
  end.

(** ** processQueue (sync/download-queue.ts)

    The function is asynchronous: it runs on the JavaScript job queue, where
    jobs run to completion one at a time in FIFO order.  A configuration holds
    the variables the closures share, the processors whose promise is still
    pending, and the queue of jobs that are ready to run. *)

(** What a processor can throw or reject with, as the [catch] block of the
    queue treats it: an [Error] is recorded as it is, any other value [v] is
    rendered with [String(v)].  That conversion runs the value's own
    [toString] or [Symbol.toPrimitive], which may throw, and fails for a
    value that has none (an object without prototype).  [Unprintable raised]
    is such a value, [raised] being what the conversion throws. *)
Inductive Caught :=
| Printable (e : Thrown)
| Unprintable (raised : Thrown).

(** [err instanceof Error ? err : new Error(String(err))] *)
Definition toError (err : Caught) : Result Thrown :=
  match err with
  | Printable (NonError s) => inr (OtherError s)
  | Printable e => inr e
  | Unprintable raised => inl raised
  end.

Section ProcessQueue.
Context {T Store : Type}.

(** What calling [processor(item)] does.  [Store] is whatever state processors
    share; a processor's effect on it, and how its promise settles
    ([None]: fulfilled, [Some e]: rejected with [e]), is a function of the
    state at the moment it finishes. *)
Inductive Behaviour :=
| ThrowsSync (e : Caught)
    (** the call throws before any promise is returned *)
| SettledAtReturn (f : Store → option Caught * Store)
    (** the promise it returns is already settled *)
| Async (f : Store → option Caught * Store).
    (** the promise it returns is pending and settles later *)

Inductive Job :=
| JSettled (item : T) (r : option Caught)
    (** the block after [await processor(item)] *)
| JAfterTick
    (** [processQueue] resumes after [await tick()] *)
| JAfterWake.
    (** [processQueue] resumes after [await new Promise(...)] *)

(** [c_dropped] is not a variable of the code: it keeps the items whose
    [catch] block threw while building the failure record, with what it
    threw.  The promise of the block is then rejected and
    [.catch(() => undefined)] discards the rejection. *)
Record Config := {
  c_index : nat;
  c_active : Z;
  c_resolve : bool;  (** whether [resolve] holds a resolver *)
  c_succeeded : list T;
  c_failed : list (T * Thrown);
  c_dropped : list (T * Thrown);
  c_store : Store;
  c_pending : list (T * (Store → option Caught * Store));
  c_jobs : list Job;
  c_returned : option (list T * list (T * Thrown));
}.

Variable items : list T.
Variable processor : T → Behaviour.

(** The bound, an integer as the command line's [parseInt] gives it.  It is
    compared with [active] only; a [NaN] behaves like [0]. *)
Variable concurrency : Z.

(** The [try]/[catch]/[finally] that follows [await processor(item)].
    When the [catch] block throws, nothing is pushed; the [finally] block
    runs in every case.  Calling the resolver [r()] queues the continuation
    of [processQueue]. *)
Definition finish (item : T) (r : option Caught) (c : Config) : Config :=
  {| c_index := c_index c;
     c_active := c_active c - 1;
     c_resolve := false;
     c_succeeded :=
       match r with None => c_succeeded c ++ [item] | Some _ => c_succeeded c end;
     c_failed :=
       match toError <$> r with
       | Some (inr error) => c_failed c ++ [(item, error)]
       | _ => c_failed c
       end;
     c_dropped :=
       match toError <$> r with
       | Some (inl raised) => c_dropped c ++ [(item, raised)]
       | _ => c_dropped c
       end;
     c_store := c_store c;
     c_pending := c_pending c;
     c_jobs := if c_resolve c then c_jobs c ++ [JAfterWake] else c_jobs c;
     c_returned := c_returned c |}.

(** The anonymous async function of [tick], run up to its first [await]. *)
Definition start (item : T) (c : Config) : Config :=
  match processor item with
  | ThrowsSync e => finish item (Some e) c
  | SettledAtReturn f =>
      let '(r, s') := f (c_store c) in
      {| c_index := c_index c; c_active := c_active c; c_resolve := c_resolve c;
         c_succeeded := c_succeeded c; c_failed := c_failed c;
         c_dropped := c_dropped c;
         c_store := s';
         c_pending := c_pending c;
         c_jobs := c_jobs c ++ [JSettled item r];
         c_returned := c_returned c |}
  | Async f =>
      {| c_index := c_index c; c_active := c_active c; c_resolve := c_resolve c;
         c_succeeded := c_succeeded c; c_failed := c_failed c;
         c_dropped := c_dropped c;
         c_store := c_store c;
         c_pending := c_pending c ++ [(item, f)];
         c_jobs := c_jobs c;
         c_returned := c_returned c |}
  end.

(** [const item = items[index++]; active++] *)
Definition take_item (c : Config) : Config :=
  {| c_index := S (c_index c); c_active := c_active c + 1;
     c_resolve := c_resolve c;
     c_succeeded := c_succeeded c; c_failed := c_failed c;
     c_dropped := c_dropped c;
     c_store := c_store c; c_pending := c_pending c; c_jobs := c_jobs c;
     c_returned := c_returned c |}.

(** The [while] loop of [tick]; it contains no [await], so it runs within
    the job that calls it. *)
Fixpoint tick_loop (fuel : nat) (c : Config) : Config :=
  match fuel with
  | O => c
  | S fuel' =>
      if (c_active c <? concurrency) && (c_index c <? length items)%nat then
        match items !! c_index c with
        | Some item => tick_loop fuel' (start item (take_item c))
        | None => c
        end
      else c
  end.

Definition tick (c : Config) : Config :=
  tick_loop (length items - c_index c) c.

Definition push_job (j : Job) (c : Config) : Config :=
  {| c_index := c_index c; c_active := c_active c; c_resolve := c_resolve c;
     c_succeeded := c_succeeded c; c_failed := c_failed c;
     c_dropped := c_dropped c;
     c_store := c_store c; c_pending := c_pending c;
     c_jobs := c_jobs c ++ [j];
     c_returned := c_returned c |}.

(** The test of the drain loop: either suspend on a fresh promise whose
    resolver is stored in [resolve], or return. *)
Definition drain_check (c : Config) : Config :=
  if (0 <? c_active c) || (c_index c <? length items)%nat then
    {| c_index := c_index c; c_active := c_active c; c_resolve := true;
       c_succeeded := c_succeeded c; c_failed := c_failed c;
       c_dropped := c_dropped c;
       c_store := c_store c; c_pending := c_pending c; c_jobs := c_jobs c;
       c_returned := c_returned c |}
  else
    {| c_index := c_index c; c_active := c_active c; c_resolve := c_resolve c;
       c_succeeded := c_succeeded c; c_failed := c_failed c;
       c_dropped := c_dropped c;
       c_store := c_store c; c_pending := c_pending c; c_jobs := c_jobs c;
       c_returned := Some (c_succeeded c, c_failed c) |}.

Definition run_job (j : Job) (c : Config) : Config :=
  match j with
  | JSettled item r => finish item r c
  | JAfterWake => push_job JAfterTick (tick c)
  | JAfterTick => drain_check c
  end.

(** The call [processQueue(items, processor, concurrency)] up to its first
    suspension: the first [tick()] and the [await] on it. *)
Definition init (s : Store) : Config :=
  push_job JAfterTick
    (tick {| c_index := 0; c_active := 0; c_resolve := false;
             c_succeeded := []; c_failed := []; c_dropped := [];
             c_store := s; c_pending := []; c_jobs := [];
             c_returned := None |}).

(** What can happen next: the job at the head of the queue runs, or the
    promise of the [k]-th pending processor settles, which queues the block
    that awaits it. *)
Inductive Event :=
| RunJob
| Settle (k : nat).

Definition step (c : Config) (ev : Event) : option Config :=
  match ev with
  | RunJob =>
      match c_jobs c with
      | [] => None
      | j :: q =>
          Some (run_job j
            {| c_index := c_index c; c_active := c_active c;
               c_resolve := c_resolve c;
               c_succeeded := c_succeeded c; c_failed := c_failed c;
               c_dropped := c_dropped c;
               c_store := c_store c; c_pending := c_pending c;
               c_jobs := q;
               c_returned := c_returned c |})
      end
  | Settle k =>
      match c_pending c !! k with
      | None => None
      | Some (item, f) =>
          let '(r, s') := f (c_store c) in
          Some {| c_index := c_index c; c_active := c_active c;
                  c_resolve := c_resolve c;
                  c_succeeded := c_succeeded c; c_failed := c_failed c;
                  c_dropped := c_dropped c;
                  c_store := s';
                  c_pending := delete k (c_pending c);
                  c_jobs := c_jobs c ++ [JSettled item r];
                  c_returned := c_returned c |}
      end
  end.

Fixpoint run (evs : list Event) (c : Config) : option Config :=
  match evs with
  | [] => Some c
  | ev :: evs' =>
      match step c ev with
      | Some c' => run evs' c'
      | None => None
      end
  end.

(** Something can still happen in [c]. *)
Definition can_step (c : Config) : Prop :=
  ∃ ev c', step c ev = Some c'.

(** [processQueue(items, processor, concurrency)]: what its promise is
    fulfilled with once the job queue has unfolded as [evs] says, [None] while
    it is still pending. *)
Definition processQueue (s : Store) (evs : list Event)
    : option (list T * list (T * Thrown)) :=
  match run evs (init s) with
  | Some c => c_returned c
  | None => None
  end.

(** The items whose processor has settled and whose block is queued. *)
Definition settled_jobs (q : list Job) : list T :=
  omap (λ j, match j with JSettled item _ => Some item | _ => None end) q.

(** Number of processor invocations in flight: started, and the block after
    their [await] has not run yet. *)
Definition in_flight (c : Config) : nat :=
  length (c_pending c) + length (settled_jobs (c_jobs c)).

(** *** Quantities used in the analysis of the queue *)

(** The continuations of [processQueue] itself that are queued. *)
Definition main_jobs (q : list Job) : list Job :=
  omap (λ j, match j with JSettled _ _ => None | _ => Some j end) q.

(** The settled processors whose block runs before anything else does. *)
Fixpoint settled_ahead (q : list Job) : nat :=
  match q with
  | JSettled _ _ :: q' => S (settled_ahead q')
  | _ => 0%nat
  end.

(** Every input item that has been taken from [items] is in exactly one of
    five places. *)
Definition accounted (c : Config) : list T :=
  c_succeeded c ++ (c_failed c).*1 ++ (c_dropped c).*1
  ++ (c_pending c).*1 ++ settled_jobs (c_jobs c).

(** Where [processQueue] itself stands: it has returned, or it is suspended
    on the promise whose resolver is in [resolve], or one continuation of it
    is queued. *)
Definition phase (c : Config) : Prop :=
  match c_returned c with
  | Some res =>
      res = (c_succeeded c, c_failed c) ∧ c_resolve c = false ∧
      c_jobs c = [] ∧ c_pending c = [] ∧ c_index c = length items
  | None =>
      if c_resolve c then main_jobs (c_jobs c) = []
      else main_jobs (c_jobs c) = [JAfterTick] ∨ main_jobs (c_jobs c) = [JAfterWake]
  end.

Record queue_inv (c : Config) : Prop := {
  inv_active : c_active c = Z.of_nat (in_flight c);
  inv_bound : c_active c ≤ Z.max 0 concurrency;
  inv_items : accounted c ≡ₚ take (c_index c) items;
  inv_index : (c_index c ≤ length items)%nat;
  inv_phase : phase c;
}.

(** What [tick] relies on and maintains: it runs inside a continuation of
    [processQueue], so no other continuation is queued and no resolver is
    installed. *)
Definition tick_inv (c : Config) : Prop :=
  c_active c = Z.of_nat (in_flight c)
  ∧ c_active c ≤ Z.max 0 concurrency
  ∧ accounted c ≡ₚ take (c_index c) items
  ∧ (c_index c ≤ length items)%nat
  ∧ c_resolve c = false
  ∧ main_jobs (c_jobs c) = []
  ∧ c_returned c = None.

(** What keeps the queue going when [concurrency] is at least one and no
    processor hands back a promise that is already settled: a suspended
    [processQueue] always has a processor left to wake it. *)
Definition wake_inv (c : Config) : Prop :=
  c_returned c = None →
  (c_resolve c = true → 0 < c_active c)
  ∧ (main_jobs (c_jobs c) = [JAfterWake] → c_active c < concurrency)
  ∧ (main_jobs (c_jobs c) = [JAfterTick] →
     (c_index c < length items)%nat →
     Z.of_nat (settled_ahead (c_jobs c)) < c_active c).

Definition settles_later (b : Behaviour) : Prop :=
  match b with SettledAtReturn _ => False | _ => True end.

(** The processor throws and rejects only with values that the [catch] block
    can record. *)
Definition printable (r : option Caught) : Prop :=
  match r with Some (Unprintable _) => False | _ => True end.

Definition rejects_printable (b : Behaviour) : Prop :=
  match b with
  | ThrowsSync e => printable (Some e)
  | SettledAtReturn f | Async f => ∀ s, printable (f s).1
  end.

(** With such processors no item is dropped. *)
Definition keeps_all (c : Config) : Prop :=
  c_dropped c = []
  ∧ Forall (λ p, ∀ s, printable (p.2 s).1) (c_pending c)
  ∧ Forall (λ j, match j with JSettled _ r => printable r | _ => True end) (c_jobs c).

(** A bound on the number of events still to come. *)
Definition job_weight (j : Job) : nat :=
  match j with JSettled _ _ => 3 | JAfterWake => 2 | JAfterTick => 1 end%nat.

Definition measure (c : Config) : nat :=
  (4 * (length items - c_index c) + 4 * length (c_pending c)
   + sum_list_with job_weight (c_jobs c))%nat.
End ProcessQueue.

Arguments Behaviour : clear implicits.
Arguments Config : clear implicits.
Arguments Job : clear implicits.

(** *** Queues whose processors all return a pending promise

    What such a queue maintains, for a property [P] of the shared state, a
    property [R] of the way each item settles and a property [Q] that the
    processor of an item establishes on the shared state. *)

Section AsyncQueue.
Context {T Store : Type}.
Variable items : list T.
Variable processor : T → Behaviour Store.
Variable P : Store → Prop.
Variable R : T → option Caught → Prop.
Variable Q : T → Store → Prop.

(** A pending entry comes from calling the processor on an input item. *)
Definition origin (p : T * (Store → option Caught * Store)) : Prop :=
  p.1 ∈ items ∧ processor p.1 = Async p.2.

(** The items whose processor has finished. *)
Definition applied (c : Config T Store) : list T :=
  c_succeeded c ++ (c_failed c).*1 ++ (c_dropped c).*1 ++ settled_jobs (c_jobs c).

Definition async_inv (c : Config T Store) : Prop :=
  Forall origin (c_pending c)
  ∧ P (c_store c)
  ∧ Forall (λ item, R item None) (c_succeeded c)
  ∧ Forall (λ p, ∃ e, toError e = inr p.2 ∧ R p.1 (Some e)) (c_failed c)
  ∧ Forall (λ p, ∃ e, toError e = inl p.2 ∧ R p.1 (Some e)) (c_dropped c)
  ∧ Forall (λ j, match j with JSettled item r => R item r | _ => True end) (c_jobs c)
  ∧ (∀ item, item ∈ applied c → Q item (c_store c)).
End AsyncQueue.

(** ** The file system

    Regular files by path.  A path that cannot be read (absent, a directory,
    no permission) has no entry; directories are not represented, so
    [mkdir] only succeeds or fails. *)

Abbreviation FS := (gmap string string).

Definition ENOENT : Thrown := OtherError "ENOENT".

(** [fs.readFile(p)] *)
Definition readFile (p : string) (fs : FS) : Result string * FS :=
  match fs !! p with
  | Some data => (inr data, fs)
  | None => (inl ENOENT, fs)
  end.

(** [fs.unlink(p)].  On a file that is there the call can still fail (the
    directory is not writable, the file is in use); [fault] is the error it
    then fails with. *)
Definition unlink (fault : option Thrown) (p : string) (fs : FS) : Result unit * FS :=
  match fs !! p with
  | None => (inl ENOENT, fs)
  | Some _ =>
      match fault with
      | Some e => (inl e, fs)
      | None => (inr tt, delete p fs)
      end
  end.

(** [fs.rename(src, dst)] *)
Definition rename (src dst : string) (fs : FS) : Result unit * FS :=
  match fs !! src with
  | Some data => (inr tt, <[dst := data]> (delete src fs))
  | None => (inl ENOENT, fs)
  end.

(** The states the file system goes through while [fs.writeFile(p, data)]
    writes: the file holds a growing prefix of [data]. *)
Definition writing (p data : string) (fs : FS) : list FS :=
  (λ n, <[p := str_take n data]> fs) <$> seq 0 (S (String.length data)).

(** ** writeFileAtomic (storage/atomic.ts) *)

(** Where the [try] block fails, if it does.  A failing [writeFile] may
    leave the temporary file behind with whatever was written so far.
    [CleanupFails e fault]: the [try] block fails as [fault] says, and the
    [unlink] of the [catch] block fails with [e] if the temporary file is
    there. *)
Inductive WriteFault :=
| NoFault
| MkdirFails (e : Thrown)
| WriteFails (e : Thrown) (written : option string)
| RenameFails (e : Thrown)
| CleanupFails (e : Thrown) (fault : WriteFault).

(** What happens in the [try] block. *)
Fixpoint try_fault (f : WriteFault) : WriteFault :=
  match f with
  | CleanupFails _ f' => try_fault f'
  | _ => f
  end.

(** What happens to the [unlink] of the [catch] block. *)
Definition cleanup_fault (f : WriteFault) : option Thrown :=
  match f with
  | CleanupFails e _ => Some e
  | _ => None
  end.

Fixpoint fault_cause (f : WriteFault) : option Thrown :=
  match f with
  | NoFault => None
  | MkdirFails e | WriteFails e _ | RenameFails e => Some e
  | CleanupFails _ f' => fault_cause f'
  end.

(** [`${filePath}.tmp-${crypto.randomBytes(4).toString('hex')}`]; [rand] is
    the random suffix. *)
Definition tmpPath (filePath rand : string) : string :=
  filePath +:+ ".tmp-" +:+ rand.

(** The [catch] block: try to remove the temporary file, ignore a failure
    to do so, and throw a [StorageError] for the destination. *)
Definition writeFileAtomic_catch (filePath rand : string) (err : Thrown)
    (cleanup : option Thrown) (fs : FS) (seen : list FS)
    : Result unit * FS * list FS :=
  let '(_, fs') := unlink cleanup (tmpPath filePath rand) fs in
  (inl (StorageError ("Failed to write " +:+ filePath) filePath err), fs', seen ++ [fs']).

(** [writeFileAtomic(filePath, data)].  Besides the outcome and the final
    file system, the result lists every state the file system went through,
    the initial one included. *)
Definition writeFileAtomic (filePath data rand : string) (fault : WriteFault)
    (fs : FS) : Result unit * FS * list FS :=
  let tmp := tmpPath filePath rand in
  let cleanup := cleanup_fault fault in
  match try_fault fault with
  | MkdirFails e => writeFileAtomic_catch filePath rand e cleanup fs [fs]
  | WriteFails e written =>
      let fs1 := match written with Some part => <[tmp := part]> fs | None => fs end in
      writeFileAtomic_catch filePath rand e cleanup fs1 [fs; fs1]
  | RenameFails e =>
      let fs1 := <[tmp := data]> fs in
      writeFileAtomic_catch filePath rand e cleanup fs1 ([fs] ++ writing tmp data fs)
  | NoFault | CleanupFails _ _ =>
      let fs1 := <[tmp := data]> fs in
      match rename tmp filePath fs1 with
      | (inr _, fs2) => (inr tt, fs2, [fs] ++ writing tmp data fs ++ [fs2])
      | (inl e, fs2) =>
          writeFileAtomic_catch filePath rand e cleanup fs2
            ([fs] ++ writing tmp data fs)
      end
  end.

(** What the [try] block leaves at the temporary path when it fails. *)
Definition left_behind (filePath data rand : string) (fault : WriteFault)
    (fs : FS) : option string :=
  match try_fault fault with
  | WriteFails _ (Some part) => Some part
  | RenameFails _ => Some data
  | _ => fs !! tmpPath filePath rand
  end.

(** ** verifyChecksums (storage/checksums.ts) *)

(** [ChecksumMismatchError]; [cme_expected] is the recorded digest, [None]
    when the manifest holds no string there. *)
Record ChecksumMismatchError := {
  cme_filePath : string;
  cme_expected : option string;
  cme_actual : string;
}.

Section Checksums.
Context `{Runtime}.

(** [sha256File(filePath)] *)
Definition sha256File (filePath : string) (fs : FS) : Result string * FS :=
  match readFile filePath fs with
  | (inr data, fs') => (inr (sha256_hex data), fs')
  | (inl e, fs') => (inl e, fs')
  end.

(** The loop over [Object.entries(manifest.files)].  What throws inside the
    [try] is caught, but the [catch] block reads [expected.sha256] and builds
    a record again: at an unusable entry it throws in its turn, whether the
    file is there or not, and the call is rejected. *)
Fixpoint verify_entries (dir : string) (entries : list (string * ManifestEntry))
    (mismatches : list ChecksumMismatchError) (fs : FS)
    : Result (list ChecksumMismatchError) * FS :=
  match entries with
  | [] => (inr mismatches, fs)
  | (file, expected) :: rest =>
      let fPath := path_join dir file in
      match sha256File fPath fs with
      | (inr actual, fs') =>
          match expected with
          | Unusable e => (inl e, fs')
          | Recorded sha256 =>
              if bool_decide (Some actual ≠ sha256) then
                verify_entries dir rest
                  (mismatches ++ [{| cme_filePath := fPath;
                                     cme_expected := sha256;
                                     cme_actual := actual |}]) fs'
              else verify_entries dir rest mismatches fs'
          end
      | (inl _, fs') =>
          match expected with
          | Unusable e => (inl e, fs')
          | Recorded sha256 =>
              verify_entries dir rest
                (mismatches ++ [{| cme_filePath := fPath;
                                   cme_expected := sha256;
                                   cme_actual := "MISSING" |}]) fs'
          end
      end
  end.

(** [verifyChecksums(dir)]: the promise is fulfilled with the mismatches or
    rejected.  Only reading and parsing the manifest is inside the first
    [try]. *)
Definition verifyChecksums (dir : string) (fs : FS)
    : Result (list ChecksumMismatchError) * FS :=
  let manifestPath := path_join dir "checksums.json" in
  match readFile manifestPath fs with
  | (inl _, fs') => (inr [], fs')
  | (inr raw, fs') =>
      match JSON_parse_manifest raw with
      | NotJSON => (inr [], fs')
      | NoFiles e => (inl e, fs')
      | Files entries => verify_entries dir entries [] fs'
      end
  end.

(** What [verifyChecksums] gets to see of the manifest; a file that cannot
    be read counts like one that is not JSON. *)
Definition manifest_of (dir : string) (fs : FS) : ParsedManifest :=
  match fs !! path_join dir "checksums.json" with
  | Some raw => JSON_parse_manifest raw
  | None => NotJSON
  end.

(** The error of the first unusable entry, if there is one. *)
Fixpoint unusable_entry (entries : list (string * ManifestEntry)) : option Thrown :=
  match entries with
  | [] => None
  | (_, Unusable e) :: _ => Some e
  | (_, Recorded _) :: rest => unusable_entry rest
  end.

(** What one manifest entry should be reported as. *)
Definition entry_mismatch (dir : string) (fs : FS)
    (entry : string * ManifestEntry) : option ChecksumMismatchError :=
  let fPath := path_join dir entry.1 in
  match entry.2 with
  | Unusable _ => None
  | Recorded sha256 =>
      match fs !! fPath with
      | None =>
          Some {| cme_filePath := fPath; cme_expected := sha256;
                  cme_actual := "MISSING" |}
      | Some data =>
          if bool_decide (Some (sha256_hex data) = sha256) then None
          else Some {| cme_filePath := fPath; cme_expected := sha256;
                       cme_actual := sha256_hex data |}
      end
  end.
End Checksums.

(** ** The sync orchestrator (sync/sync-engine.ts) *)

Inductive Mode := Sync | Backfill.

Inductive TranscriptFormat := Json | Txt | Md.

(** What one attempt on a recording does, in order. *)
Inductive DownloadStep :=
| DWriteMetadata
| DGetTranscript
| DWriteTranscript
| DDatasetAppend
| DWarnTranscript
| DGetAudioDownloadUrl
| DWriteAudioFromUrl
| DWriteChecksums
| DMarkComplete (hasAudio hasTranscript : bool).

Record SyncResult := {
  sr_mode : Mode;
  sr_attempted : nat;
  sr_succeeded : nat;
  sr_failed : nat;
  sr_skipped : nat;
  sr_errors : list (string * Thrown);
}.

(** How a call of [SyncEngine.run] ends.  [persisted] is the tracker that
    the run handed to [persist], as it is in memory, if the run wrote the
    state file; [written persisted] is what the file then holds. *)
Inductive RunOutcome :=
| RunThrows (e : Thrown) (persisted : option SyncState)
| RunUnfinished
    (** the events given do not take [processQueue] to its return *)
| RunCompletes (result : SyncResult) (persisted : option SyncState).

Section SyncEngine.
Context `{Runtime}.

Record SyncOptions := {
  opt_outDir : string;
  opt_since : option string;
  opt_limit : option Z;
  opt_concurrency : Z;
  opt_formats : list TranscriptFormat;
  opt_includeDataset : bool;
  opt_dryRun : bool;
}.

(** The collaborators of a run: the remote client, the recording store, the
    dataset writer, the state file and the clock.  What a call on a
    recording answers may change from one attempt to the next, so those
    answers are indexed by the recording id and by the number of attempts
    made on it before. *)
Record World := {
  w_isAuthenticated : bool;
  w_listRecordings : option string → option Z → list PlaudRecording;
  w_getHttpClient : bool;
  w_stateFile : option SyncState;
  w_writeMetadata : string → nat → Result unit;
  w_getTranscript : string → nat → Result string;
  w_writeTranscript : string → nat → Result unit;
  w_datasetAppend : string → nat → Result unit;
  w_getAudioDownloadUrl : string → nat → Result (option string);
  w_writeAudioFromUrl : string → nat → bool;
  w_writeChecksums : string → nat → Result unit;
  w_datasetOpen : Result unit;
  w_persist : Result unit;
  w_datasetClose : Result unit;
  w_now_markComplete : string → nat → string;
  w_now_markSuccessfulSync : string;
  w_now_persist : string;
}.

Variable w : World.
Variable opts : SyncOptions.

(** Step b of [downloadRecording]: the [try] around the transcript.  Any
    failure in it is caught and logged. *)
Definition transcript_phase (recording : PlaudRecording) (attempt : nat)
    : bool * list DownloadStep :=
  if rec_hasTranscript recording then
    match w_getTranscript w (rec_id recording) attempt with
    | inl _ => (false, [DGetTranscript; DWarnTranscript])
    | inr transcript =>
        match w_writeTranscript w (rec_id recording) attempt with
        | inl _ => (false, [DGetTranscript; DWriteTranscript; DWarnTranscript])
        | inr _ =>
            if opt_includeDataset opts then
              match w_datasetAppend w (rec_id recording) attempt with
              | inl _ =>
                  (false, [DGetTranscript; DWriteTranscript; DDatasetAppend;
                           DWarnTranscript])
              | inr _ => (true, [DGetTranscript; DWriteTranscript; DDatasetAppend])
              end
            else (true, [DGetTranscript; DWriteTranscript])
        end
    end
  else (false, []).

(** Step c: the audio, when the client exposes an HTTP client and hands
    out a (truthy) download URL. *)
Definition audio_phase (recording : PlaudRecording) (attempt : nat)
    : Result bool * list DownloadStep :=
  if w_getHttpClient w then
    match w_getAudioDownloadUrl w (rec_id recording) attempt with
    | inl e => (inl e, [DGetAudioDownloadUrl])
    | inr None => (inr false, [DGetAudioDownloadUrl])
    | inr (Some audioUrl) =>
        if str_falsy audioUrl then (inr false, [DGetAudioDownloadUrl])
        else (inr (w_writeAudioFromUrl w (rec_id recording) attempt),
              [DGetAudioDownloadUrl; DWriteAudioFromUrl])
    end
  else (inr false, []).

(** [downloadRecording]: one attempt on one recording. *)
Definition downloadRecording (recording : PlaudRecording) (attempt : nat)
    (tracker : SyncState) : Result unit * SyncState * list DownloadStep :=
  match w_writeMetadata w (rec_id recording) attempt with
  | inl e => (inl e, tracker, [DWriteMetadata])
  | inr _ =>
      let '(hasTranscript, steps_b) := transcript_phase recording attempt in
      match audio_phase recording attempt with
      | (inl e, steps_c) => (inl e, tracker, [DWriteMetadata] ++ steps_b ++ steps_c)
      | (inr hasAudio, steps_c) =>
          match w_writeChecksums w (rec_id recording) attempt with
          | inl e =>
              (inl e, tracker,
               [DWriteMetadata] ++ steps_b ++ steps_c ++ [DWriteChecksums])
          | inr _ =>
              (inr tt,
               markComplete (w_now_markComplete w (rec_id recording) attempt)
                 (rec_id recording) (rec_recordedAt recording)
                 hasAudio hasTranscript (computeContentHash recording) tracker,
               [DWriteMetadata] ++ steps_b ++ steps_c
                 ++ [DWriteChecksums; DMarkComplete hasAudio hasTranscript])
          end
      end
  end.

(** The thunk handed to [retryWithBackoff]; its state is the number of
    attempts made so far and the tracker. *)
Definition download_thunk (recording : PlaudRecording) (st : nat * SyncState)
    : Result unit * (nat * SyncState) :=
  let '(r, tracker', _) := downloadRecording recording st.1 st.2 in
  (r, (S st.1, tracker')).

(** The processor handed to [processQueue], as a function of the tracker at
    the moment its promise settles.  An attempt touches the tracker only in
    its last statement and only when it succeeds, so the attempts that
    failed before leave no trace in it. *)
Definition process_recording (recording : PlaudRecording) (tracker : SyncState)
    : option Thrown * SyncState :=
  let '(r, st, _) := retryWithBackoff (download_thunk recording) None (0%nat, tracker) in
  (match r with inl e => Some e | inr _ => None end, st.2).

(** Whatever the attempts throw is a value of [Thrown], which [String]
    renders. *)
Definition processor_of (recording : PlaudRecording) : Behaviour SyncState :=
  Async (λ tracker,
    let '(r, tracker') := process_recording recording tracker in
    (Printable <$> r, tracker')).

(** [opts.limit && toProcess.length >= opts.limit] *)
Definition limit_reached (n : nat) : bool :=
  match opt_limit opts with
  | Some limit => negb (limit =? 0) && (limit <=? Z.of_nat n)
  | None => false
  end.

(** Step 4 of [run]: the loop over the listing. *)
Fixpoint collect (mode : Mode) (tracker : SyncState) (listing : list PlaudRecording)
    (toProcess skipped : list PlaudRecording)
    : list PlaudRecording * list PlaudRecording :=
  match listing with
  | [] => (toProcess, skipped)
  | recording :: rest =>
      let '(toProcess', skipped') :=
        if match mode with Sync => negb (needsDownload tracker recording)
                         | Backfill => false end
        then (toProcess, skipped ++ [recording])
        else (toProcess ++ [recording], skipped) in
      if limit_reached (length toProcess') then (toProcess', skipped')
      else collect mode tracker rest toProcess' skipped'
  end.

(** Step 3 of [run]: the effective lower bound of the listing. *)
Definition effective_since (mode : Mode) (tracker : SyncState) : option string :=
  match opt_since opts with
  | Some since => Some since
  | None => match mode with Sync => getSince tracker | Backfill => None end
  end.

(** The recordings a run hands to the queue, and those it skips. *)
Definition candidates (mode : Mode) : list PlaudRecording * list PlaudRecording :=
  let tracker := load (w_stateFile w) in
  collect mode tracker
    (w_listRecordings w (effective_since mode tracker) (opt_limit opts)) [] [].

(** Steps 8 and 9 of [run] and the result, once the queue has returned. *)
Definition finalize (mode : Mode) (toProcess skipped succeeded : list PlaudRecording)
    (failed : list (PlaudRecording * Thrown)) (tracker : SyncState) : RunOutcome :=
  let errors := (λ f, (rec_id f.1, f.2)) <$> failed in
  let tracker1 :=
    if bool_decide (length errors = 0%nat)
    then markSuccessfulSync (w_now_markSuccessfulSync w) tracker
    else tracker in
  let tracker2 := persist_stamp (w_now_persist w) tracker1 in
  match w_persist w with
  | inl e => RunThrows e None
  | inr _ =>
      match (if opt_includeDataset opts then w_datasetClose w else inr tt) with
      | inl e => RunThrows e (Some tracker2)
      | inr _ =>
          RunCompletes
            {| sr_mode := mode;
               sr_attempted := length toProcess;
               sr_succeeded := length succeeded;
               sr_failed := length failed;
               sr_skipped := length skipped;
               sr_errors := errors |}
            (Some tracker2)
      end
  end.

(** [SyncEngine.run(client, opts, mode)]; [evs] is how the job queue
    unfolds while [processQueue] runs. *)
Definition SyncEngine_run (mode : Mode) (evs : list Event) : RunOutcome :=
  if negb (w_isAuthenticated w) then
    RunThrows (AuthError "Not authenticated — run 'alta-plaud auth' first") None
  else
    let tracker := load (w_stateFile w) in
    let '(toProcess, skipped) := candidates mode in
    if opt_dryRun opts then
      RunCompletes
        {| sr_mode := mode; sr_attempted := 0; sr_succeeded := 0; sr_failed := 0;
           sr_skipped := length skipped; sr_errors := [] |}
        None
    else
      match (if opt_includeDataset opts then w_datasetOpen w else inr tt) with
      | inl e => RunThrows e None
      | inr _ =>
          match run toProcess processor_of (opt_concurrency opts) evs
                  (init toProcess processor_of (opt_concurrency opts) tracker) with
          | Some c =>
              match c_returned c with
              | Some (succeeded, failed) =>
                  finalize mode toProcess skipped succeeded failed (c_store c)
              | None => RunUnfinished
              end
          | None => RunUnfinished
          end
      end.
(** Scenario C: three recordings with distinct ids are handed to the queue;
    fetching the transcript of one of them, [x], throws [e]; writing the
    metadata, the audio step and the checksums succeed for all three, and so
    do the dataset and the state file. *)
Record scenario_C (mode : Mode) (toProcess : list PlaudRecording)
    (x : PlaudRecording) (e : Thrown) : Prop := {
  sc_authenticated : w_isAuthenticated w = true;
  sc_not_dry : opt_dryRun opts = false;
  sc_candidates : (candidates mode).1 = toProcess;
  sc_three : length toProcess = 3%nat;
  sc_distinct : NoDup (rec_id <$> toProcess);
  sc_failing : x ∈ toProcess;
  sc_has_transcript : rec_hasTranscript x = true;
  sc_fetch_throws : w_getTranscript w (rec_id x) 0 = inl e;
  sc_metadata : ∀ r, r ∈ toProcess → w_writeMetadata w (rec_id r) 0 = inr tt;
  sc_audio : ∀ r, r ∈ toProcess → ∃ hasAudio, (audio_phase r 0).1 = inr hasAudio;
  sc_checksums : ∀ r, r ∈ toProcess → w_writeChecksums w (rec_id r) 0 = inr tt;
  sc_dataset_open : w_datasetOpen w = inr tt;
  sc_persist : w_persist w = inr tt;
  sc_dataset_close : w_datasetClose w = inr tt;
}.
End SyncEngine.

(** ** More of the tracker (sync/incremental.ts) *)

(** [markVerified]; [now] is the reading of the clock.  An id the tracker
    does not know is ignored. *)
Definition markVerified (now : string) (recordingId : string) (t : SyncState)
    : SyncState :=
  match ss_recordings t !! recordingId with
  | Some existing =>
      {| ss_lastSuccessfulSyncAt := ss_lastSuccessfulSyncAt t;
         ss_lastAttemptAt := ss_lastAttemptAt t;
         ss_recordings :=
           <[recordingId :=
               {| st_recordedAt := st_recordedAt existing;
                  st_contentHash := st_contentHash existing;
                  st_downloadedAt := st_downloadedAt existing;
                  st_hasAudio := st_hasAudio existing;
                  st_hasTranscript := st_hasTranscript existing;
                  st_verified := true;
                  st_verifiedAt := Some now |}]> (ss_recordings t) |}
  | None => t
  end.

Definition getRecordingState (recordingId : string) (t : SyncState)
    : option RecordingState :=
  ss_recordings t !! recordingId.

(** ** Exit codes (cli/exit-codes.ts) *)

Module ExitCode.
Inductive t := Success | PartialFailure | AuthFailure | StorageError.

Definition value (c : t) : Z :=
  match c with
  | Success => 0
  | PartialFailure => 1
  | AuthFailure => 2
  | StorageError => 3
  end.
End ExitCode.

Definition toExitCode (err : Thrown) : ExitCode.t :=
  match err with
  | AuthError _ => ExitCode.AuthFailure
  | StorageError _ _ _ => ExitCode.StorageError
  | _ => ExitCode.PartialFailure
  end.

(** ** Paths (storage/paths.ts) *)

(** [path.join(p, s1, ..., sn)], segment by segment. *)
Definition path_join_all `{Runtime} (p : string) (segments : list string) : string :=
  foldl path_join p segments.

Definition stateDir `{Runtime} (outDir : string) : string :=
  path_join outDir "_state".

Definition syncStatePath `{Runtime} (outDir : string) : string :=
  path_join (stateDir outDir) "sync_state.json".

Definition runLogsPath `{Runtime} (outDir : string) : string :=
  path_join (stateDir outDir) "run_logs.ndjson".

Definition datasetPath `{Runtime} (outDir : string) : string :=
  path_join_all outDir ["datasets"; "plaud_transcripts.jsonl"].

(** What the code reads off a [Date]: the UTC year, the UTC month counted
    from zero, and the rendering of [toISOString]. *)
Record UTCDate := {
  getUTCFullYear : Z;
  getUTCMonth : Z;
  toISOString : string;
}.

(** [\d] *)
Definition is_digit (c : ascii) : bool :=
  let n := N_of_ascii c in (48 <=? n)%N && (n <=? 57)%N.

(** [s.replace(/[-:]/g, '')] *)
Fixpoint remove_dashes_colons (s : string) : string :=
  match s with
  | EmptyString => EmptyString
  | String c s' =>
      if Ascii.eqb c "-" || Ascii.eqb c ":" then remove_dashes_colons s'
      else String c (remove_dashes_colons s')
  end.

(** Whether [s] starts with a match of [\d{3}], and what follows it. *)
Definition after_three_digits (s : string) : option string :=
  match s with
  | String a (String b (String c rest)) =>
      if is_digit a && is_digit b && is_digit c then Some rest else None
  | _ => None
  end.

(** [s.replace(/\.\d{3}/, '')]: the leftmost match is removed. *)
Fixpoint remove_millis (s : string) : string :=
  match s with
  | EmptyString => EmptyString
  | String c s' =>
      match (if Ascii.eqb c "." then after_three_digits s' else None) with
      | Some rest => rest
      | None => String c (remove_millis s')
      end
  end.

(** [s.replace(c, by)] for a one-character pattern: the first occurrence. *)
Fixpoint replace_first (c : ascii) (by_ : string) (s : string) : string :=
  match s with
  | EmptyString => EmptyString
  | String x s' =>
      if Ascii.eqb x c then by_ +:+ s' else String x (replace_first c by_ s')
  end.

Definition formatISOCompact (dt : UTCDate) : string :=
  let iso := toISOString dt in
  str_take 16
    (replace_first "T" "T" (remove_millis (remove_dashes_colons iso)))
  +:+ "Z".

(** [s.padStart(n, c)] for a one-character filler. *)
Definition padStart (n : nat) (c : ascii) (s : string) : string :=
  string_of_list_ascii (replicate (n - String.length s) c) +:+ s.

Section RecordingDir.
Context `{Runtime}.

(** [new Date(s)] *)
Variable Date_of : string → UTCDate.

Definition recordingDir (outDir recordedAt recordingId : string) : string :=
  let dt := Date_of recordedAt in
  let year := pretty (getUTCFullYear dt) in
  let month := padStart 2 "0" (pretty (getUTCMonth dt + 1)) in
  let timestamp := formatISOCompact dt in
  let dirName := timestamp +:+ "__plaud_" +:+ recordingId in
  path_join_all outDir ["recordings"; year; month; dirName].
End RecordingDir.

(** ** The state file (sync/incremental.ts, [load] and [persist]) *)

Section StateFile.
Context `{Runtime}.

(** [JSON.stringify(state, null, 2)], and [JSON.parse] followed by
    [SyncStateSchema.safeParse] ([None]: not JSON, or not a valid state). *)
Variable SyncState_to_json : SyncState → string.
Variable SyncState_of_json : string → option SyncState.

(** [load(outDir)]: a file that is missing, unreadable or invalid leaves
    the tracker as it was created. *)
Definition load_file (outDir : string) (fs : FS) : SyncState :=
  load (match readFile (syncStatePath outDir) fs with
        | (inr raw, _) => SyncState_of_json raw
        | (inl _, _) => None
        end).

(** [persist(outDir)]: the outcome, the tracker afterwards and the file
    system afterwards. *)
Definition persist (now rand : string) (fault : WriteFault) (outDir : string)
    (t : SyncState) (fs : FS) : Result unit * SyncState * FS :=
  let t' := persist_stamp now t in
  let '(r, fs', _) :=
    writeFileAtomic (syncStatePath outDir) (SyncState_to_json t') rand fault fs in
  (r, t', fs').
End StateFile.

(** ** Audio files (storage/recording-store.ts, client/plaud-client.ts) *)

Definition guessAudioExtension (mimeType : string) : string :=
  if str_includes mimeType "m4a" || str_includes mimeType "mp4" then "m4a"
  else if str_includes mimeType "wav" then "wav"
  else if str_includes mimeType "mp3" then "mp3"
  else if str_includes mimeType "ogg" then "ogg"
  else if str_includes mimeType "webm" then "webm"
  else "m4a".

(** The media type that [normalizeRecording] derives from the lower-cased
    extension [ext] of the remote file name. *)
Definition mimeType_of_ext (ext : string) : string :=
  if String.eqb ext "ogg" then "audio/ogg"
  else if String.eqb ext "m4a" then "audio/m4a"
  else if String.eqb ext "mp3" then "audio/mpeg"
  else if String.eqb ext "opus" then "audio/ogg; codecs=opus"
  else "audio/mp4".

(** ** Command-line options (cli/commands/sync.ts, backfill.ts) *)

(** [s.split(sep)] for a one-character separator. *)
Fixpoint split (sep : ascii) (s : string) : list string :=
  match s with
  | EmptyString => [EmptyString]
  | String c s' =>
      if Ascii.eqb c sep then EmptyString :: split sep s'
      else match split sep s' with
           | piece :: rest => String c piece :: rest
           | [] => [String c EmptyString]
           end
  end.

Definition TranscriptFormat_to_string (f : TranscriptFormat) : string :=
  match f with Json => "json" | Txt => "txt" | Md => "md" end.

(** A piece of the list is kept when [valid.includes] it. *)
Definition TranscriptFormat_of_string (s : string) : option TranscriptFormat :=
  if String.eqb s "json" then Some Json
  else if String.eqb s "txt" then Some Txt
  else if String.eqb s "md" then Some Md
  else None.

Definition parseFormats (str : string) : list TranscriptFormat :=
  omap TranscriptFormat_of_string (split "," str).

(** ** The log of [retryWithBackoff] *)

(** [k] rounds of a failed invocation followed by its sleep, the first of
    them being attempt number [from]. *)
Definition retry_rounds (from : Z) (k : nat) : list RetryEvent :=
  flat_map (λ i, [Invoked; Slept (retry_delay (from + Z.of_nat i))]) (seq 0 k).

(** [err instanceof Error] *)
Definition is_Error (err : Thrown) : bool :=
  match err with NonError _ => false | _ => true end.

(** Every failure recorded so far carries an [Error]. *)
Definition failed_are_Errors {T Store} (c : Config T Store) : Prop :=
  Forall (λ p, is_Error p.2 = true) (c_failed c).

(** [s] consists of [n] decimal digits. *)
Fixpoint digits (n : nat) (s : string) : bool :=
  match n, s with
  | O, EmptyString => true
  | S n', String c s' => is_digit c && digits n' s'
  | _, _ => false
  end.

(** ** What the collecting loop of [SyncEngine.run] keeps *)

(** Whether a listed recording is kept for download: always in a backfill,
    when [needsDownload] says so in a sync. *)
Definition wanted `{Runtime} (mode : Mode) (tracker : SyncState)
    (recording : PlaudRecording) : bool :=
  match mode with
  | Sync => needsDownload tracker recording
  | Backfill => true
  end.

(** ** What a run leaves in the tracker *)

Section RunOutcomes.
Context `{Runtime}.
Variable w : World.
Variable opts : SyncOptions.

(** How the processor of a recording settles.  The attempts never read the
    tracker, so this does not depend on the state they run in. *)
Definition outcome (recording : PlaudRecording) : option Thrown :=
  (process_recording w opts recording tracker_empty).1.

(** The entry of a recording is the one a completed download writes. *)
Definition entry_written (recording : PlaudRecording) (t : SyncState) : Prop :=
  ∃ state attempt,
    ss_recordings t !! rec_id recording = Some state
    ∧ st_recordedAt state = rec_recordedAt recording
    ∧ st_contentHash state = Some (computeContentHash recording)
    ∧ st_downloadedAt state
      = Some (w_now_markComplete w (rec_id recording) attempt)
    ∧ st_verified state = false.
End RunOutcomes.

(** ** Sample data

    A runtime, recordings and operations on which the statements of Part II
    are exercised.  The digest is a stand-in: nothing below depends on what
    [sha256_hex] computes. *)

Module Sample.
#[export] Instance runtime : Runtime := {|
  JsNumber := Z;
  number_to_json := pretty;
  sha256_hex := λ s, s;
  path_join := λ a b, a +:+ "/" +:+ b;
  JSON_parse_manifest := λ raw,
    if String.eqb raw "manifest"
    then Files [("meta.json", Recorded (Some "meta"));
                ("audio.m4a", Recorded (Some "audio"));
                ("transcript.txt", Recorded (Some "text"))]
    else if String.eqb raw "{}"
    then NoFiles (OtherError "Cannot convert undefined or null to object")
    else if String.eqb raw "null"
    then NoFiles (OtherError "Cannot read properties of null (reading 'files')")
    else if String.eqb raw "manifest with a null entry"
    then Files [("meta.json", Recorded (Some "meta"));
                ("audio.m4a",
                 Unusable (OtherError "Cannot read properties of null (reading 'sha256')"))]
    else NotJSON;
|}.

Definition recording (id : string) (hasTranscript : bool) : PlaudRecording :=
  {| rec_id := id;
     rec_title := Some "Weekly review";
     rec_duration := 1800;
     rec_recordedAt := "2026-02-24T08:30:12.000Z";
     rec_createdAt := "2026-02-24T08:30:12.000Z";
     rec_updatedAt := "2026-02-24T09:00:00.000Z";
     rec_fileSize := Some 4096;
     rec_mimeType := "audio/mp4";
     rec_hasTranscript := hasTranscript;
     rec_transcriptStatus := if hasTranscript then Some Completed else None;
     rec_language := Some "en";
     rec_deviceId := None;
     rec_tags := Some ["work"];
     rec_folderId := None;
     rec_summary := None;
     rec_raw := "{}" |}.

(** The same recording as the remote side reports it after fields outside
    the fingerprint changed. *)
Definition recording_retagged (id : string) (hasTranscript : bool) : PlaudRecording :=
  {| rec_id := id;
     rec_title := Some "Weekly review";
     rec_duration := 1800;
     rec_recordedAt := "2026-02-25T10:00:00.000Z";
     rec_createdAt := "2026-02-24T08:30:12.000Z";
     rec_updatedAt := "2026-02-24T09:00:00.000Z";
     rec_fileSize := Some 8192;
     rec_mimeType := "audio/ogg";
     rec_hasTranscript := hasTranscript;
     rec_transcriptStatus := if hasTranscript then Some Completed else None;
     rec_language := Some "de";
     rec_deviceId := Some "dev-1";
     rec_tags := Some ["work"; "archived"];
     rec_folderId := Some "f1";
     rec_summary := Some "notes";
     rec_raw := "{}" |}.

(** A tracker that has synced recording [r1] once. *)
Definition tracker : SyncState :=
  markComplete "2026-03-01T00:00:00.000Z" "r1" "2026-02-24T08:30:12.000Z"
    true true (computeContentHash (recording "r1" true)) tracker_empty.

(** An operation that fails with a 503 on its first two invocations and
    then succeeds; the state counts the invocations. *)
Definition flaky (n : nat) : Result string * nat :=
  (if (n <? 2)%nat then inl (ApiError "Service Unavailable" 503) else inr "ok", S n).

(** An operation that is always rejected with a 401. *)
Definition rejected (n : nat) : Result string * nat :=
  (inl (ApiError "Unauthorized" 401), S n).

(** An operation that always fails with a 503. *)
Definition unavailable (n : nat) : Result string * nat :=
  (inl (ApiError (pretty n) 503), S n).

(** An operation that fails with a 503 first and is rejected with a 401 from
    then on. *)
Definition degraded (n : nat) : Result string * nat :=
  (inl (if (n <? 1)%nat then ApiError "Service Unavailable" 503
        else ApiError "Unauthorized" 401), S n).

(** Scenario C: three recordings to sync on an empty tracker; the transcript
    of ["r2"] cannot be fetched (a permanent 404), everything else works. *)
Definition listing : list PlaudRecording :=
  [recording "r1" true; recording "r2" true; recording "r3" true].

Definition world : World :=
  {| w_isAuthenticated := true;
     w_listRecordings := λ _ _, listing;
     w_getHttpClient := true;
     w_stateFile := None;
     w_writeMetadata := λ _ _, inr tt;
     w_getTranscript := λ id _,
       if String.eqb id "r2" then inl (ApiError "Not Found" 404)
       else inr "transcript";
     w_writeTranscript := λ _ _, inr tt;
     w_datasetAppend := λ _ _, inr tt;
     w_getAudioDownloadUrl := λ id _, inr (Some ("https://audio.example/" +:+ id));
     w_writeAudioFromUrl := λ _ _, true;
     w_writeChecksums := λ _ _, inr tt;
     w_datasetOpen := inr tt;
     w_persist := inr tt;
     w_datasetClose := inr tt;
     w_now_markComplete := λ _ _, "2026-03-01T00:00:01.000Z";
     w_now_markSuccessfulSync := "2026-03-01T00:00:02.000Z";
     w_now_persist := "2026-03-01T00:00:03.000Z" |}.

Definition options : SyncOptions :=
  {| opt_outDir := "/data/plaud";
     opt_since := None;
     opt_limit := None;
     opt_concurrency := 3;
     opt_formats := [Json; Txt; Md];
     opt_includeDataset := true;
     opt_dryRun := false |}.

(** The same run, except that the checksums of ["r2"] cannot be written. *)
Definition world_failing : World :=
  {| w_isAuthenticated := true;
     w_listRecordings := λ _ _, listing;
     w_getHttpClient := true;
     w_stateFile := None;
     w_writeMetadata := λ _ _, inr tt;
     w_getTranscript := λ _ _, inr "transcript";
     w_writeTranscript := λ _ _, inr tt;
     w_datasetAppend := λ _ _, inr tt;
     w_getAudioDownloadUrl := λ id _, inr (Some ("https://audio.example/" +:+ id));
     w_writeAudioFromUrl := λ _ _, true;
     w_writeChecksums := λ id _,
       if String.eqb id "r2"
       then inl (StorageError "Failed to write checksums.json" "checksums.json"
                   (OtherError "ENOSPC"))
       else inr tt;
     w_datasetOpen := inr tt;
     w_persist := inr tt;
     w_datasetClose := inr tt;
     w_now_markComplete := λ _ _, "2026-03-01T00:00:01.000Z";
     w_now_markSuccessfulSync := "2026-03-01T00:00:02.000Z";
     w_now_persist := "2026-03-01T00:00:03.000Z" |}.

(** All three downloads are started at once, settle in input order, and
    their blocks run before [processQueue] resumes. *)
Definition scenario_C_schedule : list Event :=
  [RunJob; Settle 0; Settle 0; Settle 0; RunJob; RunJob; RunJob; RunJob; RunJob].

Definition scenario_C_outcome : RunOutcome :=
  Eval vm_compute in SyncEngine_run world options Sync scenario_C_schedule.

Definition failing_outcome : RunOutcome :=
  Eval vm_compute in SyncEngine_run world_failing options Sync scenario_C_schedule.

(** Processors for the work queue.  [instant] behaves like [async () => {}]:
    the promise it returns is already fulfilled.  [mixed] does real work:
    it fulfils for most items, rejects for ["b"] and throws on ["c"]. *)
Definition instant (x : string) : Behaviour unit :=
  SettledAtReturn (λ s, (None, s)).

Definition mixed (x : string) : Behaviour unit :=
  if String.eqb x "b" then Async (λ s, (Some (Printable (ApiError "Not Found" 404)), s))
  else if String.eqb x "c" then ThrowsSync (Printable (NonError "boom"))
  else Async (λ s, (None, s)).



(** One way the job queue can unfold for three items and two slots. *)
Definition schedule : list Event :=
  [RunJob; Settle 1; RunJob; RunJob; RunJob; Settle 0; RunJob; RunJob; RunJob].


(** Where two jobs take the queue over ["a"; "b"] with one slot and the
    processor [instant]. *)
Definition stuck : option (Config string unit) :=
  Eval vm_compute in
    run ["a"; "b"] instant 1 [RunJob; RunJob] (init ["a"; "b"] instant 1 tt).
End Sample.

(** ** More sample data *)

Module Fixture.
(** A serialiser and a parser of state files that know one state: the
    sample tracker as [persist] stamps it. *)
Definition stamped : SyncState :=
  persist_stamp "2026-03-02T00:00:00.000Z" Sample.tracker.

Definition SyncState_to_json (t : SyncState) : string := "state".

Definition SyncState_of_json (raw : string) : option SyncState :=
  if String.eqb raw "state" then Some stamped else None.

(** A remote side that lists a single recording, whose id is
    ["__proto__"], and serves it without failure. *)
Definition world_proto : World :=
  {| w_isAuthenticated := true;
     w_listRecordings := λ _ _, [Sample.recording "__proto__" false];
     w_getHttpClient := true;
     w_stateFile := None;
     w_writeMetadata := λ _ _, inr tt;
     w_getTranscript := λ _ _, inr "transcript";
     w_writeTranscript := λ _ _, inr tt;
     w_datasetAppend := λ _ _, inr tt;
     w_getAudioDownloadUrl := λ id _, inr (Some ("https://audio.example/" +:+ id));
     w_writeAudioFromUrl := λ _ _, true;
     w_writeChecksums := λ _ _, inr tt;
     w_datasetOpen := inr tt;
     w_persist := inr tt;
     w_datasetClose := inr tt;
     w_now_markComplete := λ _ _, "2026-03-01T00:00:01.000Z";
     w_now_markSuccessfulSync := "2026-03-01T00:00:02.000Z";
     w_now_persist := "2026-03-01T00:00:03.000Z" |}.

(** Its download is started, settles, and its block runs before
    [processQueue] resumes. *)
Definition proto_schedule : list Event :=
  [RunJob; Settle 0; RunJob; RunJob; RunJob].

Definition proto_outcome : RunOutcome :=
  Eval vm_compute in SyncEngine_run world_proto Sample.options Sync proto_schedule.

(** The sample options with another concurrency. *)
Definition options_with (concurrency : Z) : SyncOptions :=
  {| opt_outDir := "/data/plaud";
     opt_since := None;
     opt_limit := None;
     opt_concurrency := concurrency;
     opt_formats := [Json; Txt; Md];
     opt_includeDataset := true;
     opt_dryRun := false |}.

(** The sample options with at most one recording per run. *)
Definition options_limited : SyncOptions :=
  {| opt_outDir := "/data/plaud";
     opt_since := None;
     opt_limit := Some 1;
     opt_concurrency := 3;
     opt_formats := [Json; Txt; Md];
     opt_includeDataset := true;
     opt_dryRun := false |}.
End Fixture.

(** * Part II: properties *)

(** ** The incremental tracker *)

Section TrackerProps.
Context `{Runtime}.

Lemma opt_falsy_wf st :
  RecordingState_wf st →
  opt_falsy (st_downloadedAt st) = true ↔ st_downloadedAt st = None.
Proof.
  unfold RecordingState_wf.
  destruct (st_downloadedAt st) as [[|c s]|]; simpl; naive_solver.
Qed.

Lemma tracker_empty_wf : SyncState_wf tracker_empty.
Proof. intros k st Hk. simpl in Hk. by rewrite lookup_empty in Hk. Qed.

Lemma markComplete_wf now id recordedAt a tr h t :
  now ≠ EmptyString → SyncState_wf t →
  SyncState_wf (markComplete now id recordedAt a tr h t).
Proof.
  intros Hnow Hwf k st. simpl. rewrite lookup_insert.
  case_decide; [|by apply Hwf].
  intros [= <-]. unfold RecordingState_wf. simpl. congruence.
Qed.

(** The state file holds every entry of the tracker but the one under
    ["__proto__"]. *)
Lemma written_lookup t id :
  ss_recordings (written t) !! id
  = if bool_decide (id = "__proto__") then None else ss_recordings t !! id.
Proof.
  unfold written. simpl. case_bool_decide as Hid.
  - subst id. apply lookup_delete_eq.
  - by apply lookup_delete_ne.
Qed.

Lemma needsDownload_written t recording :
  needsDownload (written t) recording
  = if bool_decide (rec_id recording = "__proto__") then true
    else needsDownload t recording.
Proof.
  unfold needsDownload. rewrite written_lookup. by case_bool_decide.
Qed.

(** C6: the fingerprint is a function of the six designated fields alone:
    two recordings that agree on [id], [updatedAt], [hasTranscript],
    [transcriptStatus], [duration] and [title] have the same content hash,
    whatever their other fields hold. *)
Theorem computeContentHash_field_subset (r1 r2 : PlaudRecording) :
  rec_id r1 = rec_id r2 →
  rec_updatedAt r1 = rec_updatedAt r2 →
  rec_hasTranscript r1 = rec_hasTranscript r2 →
  rec_transcriptStatus r1 = rec_transcriptStatus r2 →
  rec_duration r1 = rec_duration r2 →
  rec_title r1 = rec_title r2 →
  computeContentHash r1 = computeContentHash r2.
Proof.
  intros Hid Hup Htr Hst Hdu Hti.
  unfold computeContentHash, contentHash_key.
  by rewrite Hid, Hup, Htr, Hst, Hdu, Hti.
Qed.

(** C1: on a tracker whose stored timestamps are date-times,
    [needsDownload] is true exactly when no state is stored for the id, or
    the stored hash differs from the fresh one, or the recording has a
    transcript that the stored state lacks, or no [downloadedAt] is stored;
    so it is true for an absent item and false for a stored, up-to-date,
    downloaded one. *)
Theorem needsDownload_iff (t : SyncState) (recording : PlaudRecording) :
  SyncState_wf t →
  (needsDownload t recording = true ↔
     ss_recordings t !! rec_id recording = None
     ∨ ∃ existing, ss_recordings t !! rec_id recording = Some existing ∧
         (st_contentHash existing ≠ Some (computeContentHash recording)
          ∨ (rec_hasTranscript recording = true ∧ st_hasTranscript existing = false)
          ∨ st_downloadedAt existing = None))
  ∧ (ss_recordings t !! rec_id recording = None → needsDownload t recording = true)
  ∧ (∀ existing,
       ss_recordings t !! rec_id recording = Some existing →
       st_contentHash existing = Some (computeContentHash recording) →
       (rec_hasTranscript recording = true → st_hasTranscript existing = true) →
       is_Some (st_downloadedAt existing) →
       needsDownload t recording = false).
Proof.
  intros Hwf. unfold needsDownload.
  destruct (ss_recordings t !! rec_id recording) as [existing|] eqn:Hlook.
  2: { split; [|done]. split; [by left|done]. }
  pose proof (opt_falsy_wf existing (Hwf _ _ Hlook)) as Hd.
  split; [|split; [done|]].
  - case_bool_decide as Hh; [naive_solver|].
    destruct (st_hasTranscript existing) eqn:?,
             (rec_hasTranscript recording) eqn:?; simpl;
      destruct (opt_falsy (st_downloadedAt existing)); naive_solver.
  - intros e [= <-] Hh Htr [d Hdl].
    rewrite bool_decide_eq_false_2 by (by intros ?).
    destruct (st_hasTranscript existing) eqn:?,
             (rec_hasTranscript recording) eqn:?; simpl;
      destruct (opt_falsy (st_downloadedAt existing)); naive_solver.
Qed.
End TrackerProps.

Lemma Sample_tracker_wf : SyncState_wf Sample.tracker.
Proof.
  apply markComplete_wf; [done|apply tracker_empty_wf].
Qed.

Lemma computeContentHash_field_subset_witness :
  rec_mimeType (Sample.recording "r1" true)
    ≠ rec_mimeType (Sample.recording_retagged "r1" true)
  ∧ computeContentHash (Sample.recording "r1" true)
    = computeContentHash (Sample.recording_retagged "r1" true).
Proof.
  split; [done|].
  apply (computeContentHash_field_subset
           (Sample.recording "r1" true) (Sample.recording_retagged "r1" true));
    reflexivity.
Defined.

Lemma needsDownload_iff_witness :
  SyncState_wf Sample.tracker
  ∧ needsDownload Sample.tracker (Sample.recording "r2" true) = true
  ∧ needsDownload Sample.tracker (Sample.recording_retagged "r1" true) = false.
Proof.
  split; [exact Sample_tracker_wf|]. split.
  - apply (needsDownload_iff Sample.tracker (Sample.recording "r2" true)
             Sample_tracker_wf).
    reflexivity.
  - apply (proj2 (proj2 (needsDownload_iff Sample.tracker
             (Sample.recording_retagged "r1" true) Sample_tracker_wf)) _ eq_refl).
    + reflexivity.
    + reflexivity.
    + by eexists.
Defined.

(** ** The retry policy *)

Section RetryProps.
Context {St T : Type} (fn : St → Result T * St).

Lemma invocations_app l1 l2 :
  invocations (l1 ++ l2) = (invocations l1 + invocations l2)%nat.
Proof.
  induction l1 as [|[] l1 IH]; simpl; auto.
Qed.

(** A success ends the loop with that value. *)
Lemma retry_loop_success fuel m attempt st st' v log :
  attempt ≤ m → fn st = (inr v, st') →
  retry_loop fn (S fuel) m attempt st log = (inr v, st', log ++ [Invoked]).
Proof.
  intros Hle Hfn. simpl.
  rewrite (proj2 (Z.leb_le _ _) Hle), Hfn. done.
Qed.

(** An error that is not retryable ends the loop with that error. *)
Lemma retry_loop_permanent fuel m attempt st st' e log :
  attempt ≤ m → fn st = (inl e, st') → isRetryableError e = false →
  retry_loop fn (S fuel) m attempt st log
  = (inl e, st', log ++ [Invoked] ++ (if 1 <? attempt then [Warned attempt] else [])).
Proof.
  intros Hle Hfn Hr. simpl.
  rewrite (proj2 (Z.leb_le _ _) Hle), Hfn, Hr, orb_true_r. done.
Qed.

(** A retryable error before the last attempt sleeps and goes round again. *)
Lemma retry_loop_again fuel m attempt st st' e log :
  attempt < m → fn st = (inl e, st') → isRetryableError e = true →
  retry_loop fn (S fuel) m attempt st log
  = retry_loop fn fuel m (attempt + 1) st' (log ++ [Invoked; Slept (retry_delay attempt)]).
Proof.
  intros Hlt Hfn Hr. simpl.
  rewrite (proj2 (Z.leb_le attempt m)) by lia.
  rewrite Hfn, Hr. simpl.
  by rewrite (proj2 (Z.eqb_neq attempt m)) by lia.
Qed.

(** The last attempt re-raises whatever it catches. *)
Lemma retry_loop_last fuel m st st' e log :
  fn st = (inl e, st') →
  ∃ log', retry_loop fn (S fuel) m m st log = (inl e, st', log')
          ∧ invocations log' = S (invocations log).
Proof.
  intros Hfn. simpl. rewrite Z.leb_refl, Hfn, Z.eqb_refl. simpl.
  eexists. split; [done|].
  rewrite invocations_app. simpl.
  destruct (1 <? m); simpl; lia.
Qed.

(** [d] retryable failures followed by a failure on the last attempt make
    [d + 1] invocations and re-raise the last error. *)
Lemma retry_loop_exhaust (sts : nat → St) (errs : nat → Thrown) m :
  ∀ d j fuel log,
    Z.of_nat (j + d + 1) = m → (d < fuel)%nat →
    (∀ k, (j ≤ k < j + d)%nat →
          fn (sts k) = (inl (errs k), sts (S k)) ∧ isRetryableError (errs k) = true) →
    fn (sts (j + d)%nat) = (inl (errs (j + d)%nat), sts (S (j + d))) →
    ∃ log', retry_loop fn fuel m (Z.of_nat j + 1) (sts j) log
            = (inl (errs (j + d)%nat), sts (S (j + d)), log')
            ∧ invocations log' = (invocations log + d + 1)%nat.
Proof.
  induction d as [|d IH]; intros j fuel log Hm Hfuel Hall Hlast.
  - destruct fuel as [|fuel]; [lia|].
    rewrite Nat.add_0_r in *.
    replace (Z.of_nat j + 1) with m by lia.
    destruct (retry_loop_last fuel m _ _ _ log Hlast) as (log' & -> & Hl).
    exists log'. split; [done|lia].
  - destruct fuel as [|fuel]; [lia|].
    destruct (Hall j) as [Hfn Hr]; [lia|].
    rewrite (retry_loop_again fuel m (Z.of_nat j + 1) _ _ _ _ ltac:(lia) Hfn Hr).
    replace (Z.of_nat j + 1 + 1) with (Z.of_nat (S j) + 1) by lia.
    replace (j + S d)%nat with (S j + d)%nat in * by lia.
    destruct (IH (S j) fuel (log ++ [Invoked; Slept (retry_delay (Z.of_nat j + 1))]))
      as (log' & -> & Hl); [lia|lia| |done|].
    { intros k Hk. apply Hall. lia. }
    exists log'. split; [done|].
    rewrite Hl, invocations_app. simpl. lia.
Qed.

(** The thunk is never invoked more often than attempts are left. *)
Lemma retry_loop_ceiling fuel m attempt st log :
  (invocations (retry_loop fn fuel m attempt st log).2
   ≤ invocations log + Z.to_nat (m - attempt + 1))%nat.
Proof.
  revert attempt st log. induction fuel as [|fuel IH]; intros attempt st log; simpl;
    [lia|].
  destruct (attempt <=? m) eqn:Hle; [apply Z.leb_le in Hle|simpl; lia].
  destruct (fn st) as [[e|v] st']; simpl.
  - destruct (_ || _); simpl.
    + rewrite invocations_app. simpl. destruct (1 <? attempt); simpl; lia.
    + etrans; [apply IH|]. rewrite invocations_app. simpl. lia.
  - rewrite invocations_app. simpl. lia.
Qed.

(** [d] retryable failures followed by an invocation at which the loop stops
    (a success, an error that is not retryable, or the last attempt) make
    [d + 1] invocations and end with what that invocation gave. *)
Lemma retry_loop_stops (sts : nat → St) (errs : nat → Thrown) m r :
  ∀ d j fuel log,
    Z.of_nat (j + d + 1) ≤ m → (d < fuel)%nat →
    (∀ k, (j ≤ k < j + d)%nat →
          fn (sts k) = (inl (errs k), sts (S k)) ∧ isRetryableError (errs k) = true) →
    fn (sts (j + d)%nat) = (r, sts (S (j + d))) →
    match r with
    | inr _ => True
    | inl e => isRetryableError e = false ∨ Z.of_nat (j + d + 1) = m
    end →
    ∃ log', retry_loop fn fuel m (Z.of_nat j + 1) (sts j) log
            = (r, sts (S (j + d)), log')
            ∧ invocations log' = (invocations log + d + 1)%nat.
Proof.
  induction d as [|d IH]; intros j fuel log Hm Hfuel Hall Hlast Hstop.
  - destruct fuel as [|fuel]; [lia|].
    rewrite Nat.add_0_r in *.
    destruct r as [e|v].
    + destruct (isRetryableError e) eqn:Hr.
      * destruct Hstop as [?|Hstop]; [done|].
        replace (Z.of_nat j + 1) with m by lia.
        destruct (retry_loop_last fuel m _ _ _ log Hlast) as (log' & -> & Hl).
        exists log'. split; [done|lia].
      * rewrite (retry_loop_permanent fuel m (Z.of_nat j + 1) _ _ _ log ltac:(lia) Hlast Hr).
        eexists. split; [done|].
        rewrite invocations_app. simpl.
        destruct (1 <? _); simpl; lia.
    + rewrite (retry_loop_success fuel m (Z.of_nat j + 1) _ _ _ log ltac:(lia) Hlast).
      eexists. split; [done|].
      rewrite invocations_app. simpl. lia.
  - destruct fuel as [|fuel]; [lia|].
    destruct (Hall j) as [Hfn Hr]; [lia|].
    rewrite (retry_loop_again fuel m (Z.of_nat j + 1) _ _ _ _ ltac:(lia) Hfn Hr).
    replace (Z.of_nat j + 1 + 1) with (Z.of_nat (S j) + 1) by lia.
    replace (j + S d)%nat with (S j + d)%nat in * by lia.
    destruct (IH (S j) fuel (log ++ [Invoked; Slept (retry_delay (Z.of_nat j + 1))]))
      as (log' & -> & Hl); [lia|lia| |done|done|].
    { intros k Hk. apply Hall. lia. }
    exists log'. split; [done|].
    rewrite Hl, invocations_app. simpl. lia.
Qed.

(** C4: the thunk is invoked at most [maxAttempts] times.  With four
    attempts allowed, two retryable failures followed by a success yield the
    success value after exactly three invocations; an error that is not
    retryable propagates after exactly one invocation; and when every
    attempt but the last fails with a retryable error and the last one fails
    too, the last error is re-raised after exactly [maxAttempts]
    invocations.  In general, on whichever attempt it happens: after [k]
    failures with retryable errors, the invocation number [k + 1] ends the
    call when it succeeds, when its error is not retryable, or when it is the
    last attempt allowed; the call then settles as that invocation did, in
    the state it left, after exactly [k + 1] invocations.  So an error is
    followed by another attempt only if it is retryable, and a retryable one
    always is while attempts are left. *)
Theorem retryWithBackoff_policy :
  (∀ maxAttempts st,
     (invocations (retryWithBackoff fn maxAttempts st).2
      ≤ Z.to_nat (default 4%Z maxAttempts))%nat)
  ∧ (∀ st0 st1 st2 st3 e1 e2 v,
     fn st0 = (inl e1, st1) → isRetryableError e1 = true →
     fn st1 = (inl e2, st2) → isRetryableError e2 = true →
     fn st2 = (inr v, st3) →
     retryWithBackoff fn (Some 4) st0
     = (inr v, st3, [Invoked; Slept 1000; Invoked; Slept 4000; Invoked]))
  ∧ (∀ maxAttempts st0 st1 e,
       1 ≤ default 4 maxAttempts →
       fn st0 = (inl e, st1) → isRetryableError e = false →
       retryWithBackoff fn maxAttempts st0 = (inl e, st1, [Invoked]))
  ∧ (∀ maxAttempts (sts : nat → St) (errs : nat → Thrown),
       let m := Z.to_nat (default 4 maxAttempts) in
       (1 ≤ m)%nat →
       (∀ k, (k < m)%nat → fn (sts k) = (inl (errs k), sts (S k))) →
       (∀ k, (k < m - 1)%nat → isRetryableError (errs k) = true) →
       ∃ log, retryWithBackoff fn maxAttempts (sts 0%nat)
              = (inl (errs (m - 1)%nat), sts m, log)
              ∧ invocations log = m)
  ∧ (∀ maxAttempts (sts : nat → St) (errs : nat → Thrown) (k : nat) (r : Result T),
       Z.of_nat k < default 4 maxAttempts →
       (∀ i, (i < k)%nat →
             fn (sts i) = (inl (errs i), sts (S i))
             ∧ isRetryableError (errs i) = true) →
       fn (sts k) = (r, sts (S k)) →
       match r with
       | inr _ => True
       | inl e =>
           isRetryableError e = false ∨ Z.of_nat k + 1 = default 4 maxAttempts
       end →
       ∃ log, retryWithBackoff fn maxAttempts (sts 0%nat) = (r, sts (S k), log)
              ∧ invocations log = S k).
Proof.
  split; [|split; [|split; [|split]]].
  - intros maxAttempts st. unfold retryWithBackoff.
    etrans; [apply retry_loop_ceiling|]. simpl. lia.
  - intros st0 st1 st2 st3 e1 e2 v H1 R1 H2 R2 H3.
    unfold retryWithBackoff. simpl default.
    change (Z.to_nat 4) with 4%nat.
    rewrite (retry_loop_again 4 4 1 _ _ _ _ ltac:(lia) H1 R1).
    rewrite (retry_loop_again 3 4 (1 + 1) _ _ _ _ ltac:(lia) H2 R2).
    rewrite (retry_loop_success 2 4 (1 + 1 + 1) _ _ _ _ ltac:(lia) H3).
    done.
  - intros maxAttempts st0 st1 e Hm Hfn Hr.
    unfold retryWithBackoff.
    by rewrite (retry_loop_permanent _ _ _ _ _ _ _ Hm Hfn Hr).
  - intros maxAttempts sts errs m Hm Hall Hretry.
    unfold retryWithBackoff.
    destruct (retry_loop_exhaust sts errs (default 4 maxAttempts)
                (m - 1)%nat 0%nat (S m) []) as (log & Hrun & Hl).
    + subst m. lia.
    + lia.
    + intros k Hk. split; [apply Hall|apply Hretry]; lia.
    + simpl. apply Hall. lia.
    + exists log.
      change (Z.of_nat 0 + 1) with 1 in Hrun.
      rewrite !Nat.add_0_l in Hrun.
      replace (S (m - 1)) with m in Hrun by lia.
      subst m. rewrite Hrun. split; [done|simpl in Hl; lia].
  - intros maxAttempts sts errs k r Hk Hall Hlast Hstop.
    unfold retryWithBackoff.
    destruct (retry_loop_stops sts errs (default 4 maxAttempts) r
                k 0%nat (S (Z.to_nat (default 4 maxAttempts))) [])
      as (log & Hrun & Hl).
    + lia.
    + lia.
    + intros i Hi. apply Hall. lia.
    + exact Hlast.
    + destruct r as [e|v]; simpl; [|done].
      destruct Hstop as [?|?]; [by left|right; lia].
    + exists log. split; [exact Hrun|]. simpl in Hl. lia.
Qed.
End RetryProps.

Lemma retryWithBackoff_policy_witness :
  retryWithBackoff Sample.flaky (Some 4) 0%nat
  = (inr "ok", 3%nat, [Invoked; Slept 1000; Invoked; Slept 4000; Invoked])
  ∧ retryWithBackoff Sample.rejected None 0%nat
    = (inl (ApiError "Unauthorized" 401), 1%nat, [Invoked])
  ∧ (∃ log, retryWithBackoff Sample.unavailable None 0%nat
            = (inl (ApiError "3" 503), 4%nat, log)
            ∧ invocations log = 4%nat)
  ∧ ∃ log, retryWithBackoff Sample.degraded None 0%nat
           = (inl (ApiError "Unauthorized" 401), 2%nat, log)
           ∧ invocations log = 2%nat.
Proof.
  destruct (retryWithBackoff_policy Sample.flaky) as (_ & Hflaky & _ & _).
  destruct (retryWithBackoff_policy Sample.rejected) as (_ & _ & Hrejected & _).
  destruct (retryWithBackoff_policy Sample.unavailable) as (_ & _ & _ & Hdown & _).
  destruct (retryWithBackoff_policy Sample.degraded) as (_ & _ & _ & _ & Hstop).
  split; [|split; [|split]].
  - apply (Hflaky 0%nat 1%nat 2%nat 3%nat
             (ApiError "Service Unavailable" 503) (ApiError "Service Unavailable" 503));
      reflexivity.
  - apply (Hrejected None 0%nat 1%nat); [simpl; lia|reflexivity|reflexivity].
  - destruct (Hdown None (λ k, k) (λ k, ApiError (pretty k) 503))
      as (log & Hrun & Hl).
    + simpl. lia.
    + intros k _. reflexivity.
    + intros k _. reflexivity.
    + exists log. split; [exact Hrun|exact Hl].
  - destruct (Hstop None (λ k, k) (λ k, ApiError "Service Unavailable" 503) 1%nat
                (inl (ApiError "Unauthorized" 401)))
      as (log & Hrun & Hl).
    + simpl. lia.
    + intros i Hi. replace i with 0%nat by lia. split; reflexivity.
    + reflexivity.
    + left. reflexivity.
    + exists log. split; [exact Hrun|exact Hl].
Defined.

(** ** The bounded work queue *)

Section QueueProps.
Context {T Store : Type}.
Variable items : list T.
Variable processor : T → Behaviour Store.
Variable concurrency : Z.

Implicit Types (c : Config T Store) (q : list (Job T)) (j : Job T).

(** *** Jobs in the queue *)

Lemma settled_jobs_app q1 q2 :
  settled_jobs (q1 ++ q2) = settled_jobs q1 ++ settled_jobs q2.
Proof. apply omap_app. Qed.

Lemma main_jobs_app q1 q2 : main_jobs (q1 ++ q2) = main_jobs q1 ++ main_jobs q2.
Proof. apply omap_app. Qed.

Lemma jobs_split_length q :
  length q = (length (settled_jobs q) + length (main_jobs q))%nat.
Proof.
  induction q as [|[] q IH]; simpl; [done|..];
    fold (settled_jobs q); fold (main_jobs q); lia.
Qed.

Lemma settled_ahead_le q : (settled_ahead q ≤ length (settled_jobs q))%nat.
Proof.
  induction q as [|[] q IH]; simpl; lia.
Qed.

Lemma settled_ahead_only q j :
  main_jobs q = [] → main_jobs [j] ≠ [] →
  settled_ahead (q ++ [j]) = length (settled_jobs q).
Proof.
  intros Hq Hj. induction q as [|[] q IH]; simpl in *; try done.
  - by destruct j.
  - fold (settled_jobs q). fold (main_jobs q) in Hq. by rewrite IH.
Qed.

Lemma settled_ahead_app q q' :
  main_jobs q ≠ [] → settled_ahead (q ++ q') = settled_ahead q.
Proof.
  induction q as [|[] q IH]; simpl; try done.
  intros Hq. fold (main_jobs q) in Hq. by rewrite IH.
Qed.

Lemma sum_weight_snoc q j :
  sum_list_with job_weight (q ++ [j])
  = (sum_list_with job_weight q + job_weight j)%nat.
Proof. rewrite sum_list_with_app. simpl. lia. Qed.

(** *** One round of [tick] *)

(** Whatever one iteration of the loop preserves, the loop preserves. *)
Lemma tick_loop_preserves (P : Config T Store → Prop) :
  (∀ c item, P c → c_active c < concurrency →
             items !! c_index c = Some item → P (start processor item (take_item c))) →
  ∀ fuel c, P c → P (tick_loop items processor concurrency fuel c).
Proof.
  intros Hstep. induction fuel as [|fuel IH]; intros c Hc; simpl; [done|].
  destruct (c_active c <? concurrency) eqn:Hact; simpl; [|done].
  destruct (c_index c <? length items)%nat; [|done].
  destruct (items !! c_index c) as [item|] eqn:Hitem; [|done].
  apply IH, Hstep; [done|lia|done].
Qed.

Lemma start_index item c : c_index (start processor item c) = c_index c.
Proof.
  unfold start. destruct (processor item) as [e|f|f]; simpl; [done| |done].
  by destruct (f (c_store c)).
Qed.

Lemma start_tick_inv c item :
  tick_inv items concurrency c → c_active c < concurrency →
  items !! c_index c = Some item →
  tick_inv items concurrency (start processor item (take_item c)).
Proof.
  intros (Hact & Hbound & Hperm & Hidx & Hres & Hmain & Hret) Hlt Hitem.
  assert (Hlen : (c_index c < length items)%nat) by by eapply lookup_lt_Some.
  destruct c as [idx act res suc fai drop st pend jobs ret].
  unfold tick_inv, in_flight, accounted, start in *; simpl in *. subst res ret.
  destruct (processor item) as [e|f|f]; simpl.
  - rewrite (take_S_r _ _ _ Hitem), <- Hperm.
    destruct (toError e) as [raised|error]; rewrite fmap_app; simpl;
      (repeat split; try done; try lia); solve_Permutation.
  - destruct (f st) as [r s']. simpl.
    rewrite settled_jobs_app, main_jobs_app, Hmain, (take_S_r _ _ _ Hitem), <- Hperm.
    simpl. rewrite length_app. simpl.
    repeat split; try done; try lia. solve_Permutation.
  - rewrite fmap_app, length_app, (take_S_r _ _ _ Hitem), <- Hperm. simpl.
    repeat split; try done; try lia. solve_Permutation.
Qed.

Lemma tick_tick_inv c :
  tick_inv items concurrency c →
  tick_inv items concurrency (tick items processor concurrency c).
Proof.
  unfold tick. apply tick_loop_preserves. intros. by apply start_tick_inv.
Qed.

(** When the loop stops with items left, every slot is taken. *)
Lemma tick_loop_exit fuel c :
  (length items - c_index c ≤ fuel)%nat →
  (c_index (tick_loop items processor concurrency fuel c) < length items)%nat →
  concurrency ≤ c_active (tick_loop items processor concurrency fuel c).
Proof.
  revert c. induction fuel as [|fuel IH]; intros c Hfuel; simpl; [lia|].
  destruct (c_active c <? concurrency) eqn:Hact; simpl;
    [|apply Z.ltb_ge in Hact; lia].
  destruct (c_index c <? length items)%nat eqn:Hidx;
    [apply Nat.ltb_lt in Hidx|apply Nat.ltb_ge in Hidx; lia].
  destruct (items !! c_index c) as [item|] eqn:Hitem.
  - apply IH. rewrite start_index. simpl. lia.
  - apply lookup_ge_None in Hitem. lia.
Qed.

Lemma tick_exit c :
  (c_index (tick items processor concurrency c) < length items)%nat →
  concurrency ≤ c_active (tick items processor concurrency c).
Proof. apply tick_loop_exit. lia. Qed.

(** A round of [tick] queues nothing when no processor settles at once. *)
Lemma tick_jobs_later c :
  (∀ x, settles_later (processor x)) → c_resolve c = false →
  c_jobs (tick items processor concurrency c) = c_jobs c.
Proof.
  intros Hlater Hres.
  enough (c_resolve (tick items processor concurrency c) = false
          ∧ c_jobs (tick items processor concurrency c) = c_jobs c) as [_ ?]; [done|].
  unfold tick.
  apply (tick_loop_preserves (λ c', c_resolve c' = false ∧ c_jobs c' = c_jobs c));
    [|done].
  intros c' item [Hr Hj] _ _. unfold start.
  specialize (Hlater item).
  destruct (processor item) as [e|f|f]; simpl in *; [|done|done].
  by rewrite Hr.
Qed.

(** A round of [tick] does not add to the work that is left. *)
Lemma start_measure c item :
  (c_index c < length items)%nat →
  (measure items (start processor item (take_item c)) ≤ measure items c)%nat.
Proof.
  intros Hlt. destruct c as [idx act res suc fai drop st pend jobs ret].
  unfold measure, start; simpl in *.
  destruct (processor item) as [e|f|f]; simpl.
  - destruct res; rewrite ?sum_weight_snoc; simpl; lia.
  - destruct (f st) as [r s']. simpl. rewrite sum_weight_snoc. simpl. lia.
  - rewrite length_app. simpl. lia.
Qed.

Lemma tick_measure c :
  (measure items (tick items processor concurrency c) ≤ measure items c)%nat.
Proof.
  unfold tick.
  apply (tick_loop_preserves (λ c', (measure items c' ≤ measure items c)%nat));
    [|done].
  intros c' item Hc' _ Hitem.
  etrans; [apply start_measure; by eapply lookup_lt_Some|done].
Qed.

(** *** The invariant *)

Lemma only_settled_nil q : main_jobs q = [] → settled_jobs q = [] → q = [].
Proof.
  intros Hm Hs. apply length_zero_iff_nil.
  rewrite jobs_split_length, Hm, Hs. done.
Qed.

Lemma tick_inv_queue_inv c :
  tick_inv items concurrency c → queue_inv items concurrency (push_job JAfterTick c).
Proof.
  intros (Hact & Hbound & Hperm & Hidx & Hres & Hmain & Hret).
  destruct c as [idx act res suc fai drop st pend jobs ret].
  unfold in_flight, accounted in *; simpl in *. subst res ret.
  split; unfold in_flight, accounted, phase; simpl;
    rewrite ?settled_jobs_app, ?main_jobs_app, ?Hmain; simpl;
    rewrite ?app_nil_r; auto.
Qed.

Lemma init_queue_inv s : queue_inv items concurrency (init items processor concurrency s).
Proof.
  apply tick_inv_queue_inv, tick_tick_inv.
  unfold tick_inv, in_flight, accounted; simpl.
  repeat split; try done; lia.
Qed.

Lemma step_queue_inv c ev c' :
  queue_inv items concurrency c →
  step items processor concurrency c ev = Some c' →
  queue_inv items concurrency c'.
Proof.
  intros [Hact Hbound Hperm Hidx Hphase] Hstep.
  destruct c as [idx act res suc fai drop st pend jobs ret].
  unfold in_flight, accounted, phase in *; simpl in *.
  destruct ev as [|k]; simpl in Hstep.
  - destruct jobs as [|j q]; [done|]. injection Hstep as <-.
    destruct ret as [res'|]; [by destruct Hphase as (_ & _ & ? & _)|].
    destruct j as [item r| |]; simpl in *.
    + (* the block after an [await processor(item)] *)
      fold (settled_jobs q) in *. fold (main_jobs q) in *.
      split; unfold in_flight, accounted, phase; simpl.
      * destruct res; rewrite ?settled_jobs_app; simpl; rewrite ?app_nil_r; lia.
      * lia.
      * rewrite <- Hperm.
        destruct r as [e|]; simpl; [destruct (toError e) as [raised|error]|];
          destruct res; rewrite ?settled_jobs_app, ?fmap_app; simpl;
          rewrite ?app_nil_r; solve_Permutation.
      * done.
      * destruct res; [|done]. rewrite main_jobs_app, Hphase. by right.
    + (* [processQueue] resumes after [await tick()] *)
      fold (settled_jobs q) in *. fold (main_jobs q) in *.
      assert (res = false ∧ main_jobs q = []) as [-> Hmain].
      { destruct res; [done|]. by destruct Hphase as [[= ->]|[=]]. }
      unfold drain_check. simpl.
      destruct (0 <? act) eqn:Hpos; simpl.
      { split; done. }
      destruct (idx <? length items)%nat eqn:Hlt; simpl.
      { split; done. }
      apply Z.ltb_ge in Hpos. apply Nat.ltb_ge in Hlt.
      assert (pend = [] ∧ settled_jobs q = []) as [-> Hs].
      { split; apply length_zero_iff_nil; lia. }
      split; unfold in_flight, accounted, phase; simpl; try done.
      repeat split; [by apply only_settled_nil|lia].
    + (* [processQueue] resumes after [await new Promise(...)] *)
      fold (settled_jobs q) in *. fold (main_jobs q) in *.
      assert (res = false ∧ main_jobs q = []) as [-> Hmain].
      { destruct res; [done|]. by destruct Hphase as [[=]|[= ->]]. }
      apply tick_inv_queue_inv, tick_tick_inv.
      unfold tick_inv, in_flight, accounted; simpl. done.
  - destruct (pend !! k) as [[item f]|] eqn:Hk; [|done].
    destruct (f st) as [r s'] eqn:Hf. injection Hstep as <-.
    destruct ret as [res'|].
    { destruct Hphase as (_ & _ & _ & -> & _). done. }
    pose proof (delete_Permutation _ _ _ Hk) as Hdel.
    pose proof (length_delete pend k (mk_is_Some _ _ Hk)) as Hlen.
    assert (0 < length pend)%nat by (by eapply Nat.le_lt_trans; [apply Nat.le_0_l|eapply lookup_lt_Some]).
    split; unfold in_flight, accounted, phase; simpl;
      rewrite ?settled_jobs_app, ?main_jobs_app; simpl; rewrite ?app_nil_r.
    + rewrite length_app. simpl. lia.
    + done.
    + rewrite <- Hperm. rewrite (fmap_Permutation fst _ _ Hdel). simpl.
      solve_Permutation.
    + done.
    + done.
Qed.

(** *** Every event uses up some of the remaining work *)

Lemma step_measure c ev c' :
  step items processor concurrency c ev = Some c' →
  (measure items c' < measure items c)%nat.
Proof.
  intros Hstep. destruct ev as [|k]; simpl in Hstep.
  - destruct (c_jobs c) as [|j q] eqn:Hjobs; [done|]. injection Hstep as <-.
    destruct j as [item r| |]; simpl.
    + unfold measure. rewrite Hjobs. simpl.
      destruct (c_resolve c); rewrite ?sum_weight_snoc; simpl; lia.
    + unfold measure, drain_check. rewrite Hjobs. simpl.
      destruct (_ || _); simpl; lia.
    + match goal with |- context [tick _ _ _ ?c0] => set (c1 := c0) end.
      pose proof (tick_measure c1) as Hle.
      unfold measure in *. simpl in *. rewrite sum_weight_snoc, Hjobs. simpl. lia.
  - destruct (c_pending c !! k) as [[item f]|] eqn:Hk; [|done].
    destruct (f (c_store c)) as [r s']. injection Hstep as <-.
    pose proof (length_delete _ k (mk_is_Some _ _ Hk)) as Hlen.
    pose proof (lookup_lt_Some _ _ _ Hk).
    unfold measure. simpl. rewrite sum_weight_snoc. simpl. lia.
Qed.

Lemma init_measure s :
  (measure items (init items processor concurrency s) ≤ 4 * length items + 1)%nat.
Proof.
  unfold init.
  match goal with |- context [tick _ _ _ ?c0] => set (c1 := c0) end.
  pose proof (tick_measure c1) as Hle.
  unfold measure in *. simpl in *. rewrite sum_weight_snoc. simpl. lia.
Qed.

(** *** A suspended [processQueue] is woken *)

Section Wake.
Hypothesis Hconc : 1 ≤ concurrency.
Hypothesis Hlater : ∀ x, settles_later (processor x).

Lemma init_wake_inv s : wake_inv items concurrency (init items processor concurrency s).
Proof.
  unfold init.
  match goal with |- context [tick _ _ _ ?c0] => set (c1 := c0) end.
  pose proof (tick_exit c1) as Hexit.
  pose proof (tick_jobs_later c1 Hlater eq_refl) as Hjobs.
  assert (Hti : tick_inv items concurrency c1).
  { unfold tick_inv, in_flight, accounted; simpl. repeat split; try done; lia. }
  apply tick_tick_inv in Hti. destruct Hti as (_ & _ & _ & _ & Hres & _ & _).
  intros _. simpl. rewrite Hres, Hjobs. simpl.
  split; [done|]. split; [done|]. intros _ Hlt. lia.
Qed.

Lemma step_wake_inv c ev c' :
  queue_inv items concurrency c → wake_inv items concurrency c →
  step items processor concurrency c ev = Some c' →
  wake_inv items concurrency c'.
Proof.
  intros [Hact Hbound Hperm Hidx Hphase] Hwake Hstep.
  destruct ev as [|k]; simpl in Hstep.
  - destruct (c_jobs c) as [|j q] eqn:Hjobs; [done|]. injection Hstep as <-.
    destruct (c_returned c) as [res'|] eqn:Hret.
    { unfold phase in Hphase. rewrite Hret, Hjobs in Hphase.
      by destruct Hphase as (_ & _ & ? & _). }
    specialize (Hwake Hret). destruct Hwake as (Harmed & Hwoken & Hticked).
    unfold phase in Hphase. rewrite Hret, Hjobs in Hphase.
    rewrite Hjobs in Hwoken, Hticked.
    unfold in_flight in Hact. rewrite Hjobs in Hact.
    destruct j as [item r| |]; simpl in *.
    + fold (settled_jobs q) in *. fold (main_jobs q) in *.
      intros _. simpl.
      destruct (c_resolve c) eqn:Hres.
      * rewrite main_jobs_app, Hphase. simpl.
        split; [done|]. split; [|done]. intros _.
        specialize (Harmed eq_refl). lia.
      * split; [done|]. split.
        -- intros Hm. specialize (Hwoken Hm). lia.
        -- intros Hm Hlt. specialize (Hticked Hm Hlt). lia.
    + fold (settled_jobs q) in *. fold (main_jobs q) in *.
      assert (c_resolve c = false ∧ main_jobs q = []) as [Hres Hmain].
      { destruct (c_resolve c); [done|]. by destruct Hphase as [[= ->]|[=]]. }
      rewrite Hmain in Hticked.
      unfold drain_check. simpl.
      destruct (0 <? c_active c) eqn:Hpos; simpl.
      { intros _. simpl. rewrite Hmain. apply Z.ltb_lt in Hpos. done. }
      destruct (c_index c <? length items)%nat eqn:Hlt; simpl; [|done].
      intros _. simpl. rewrite Hmain. apply Nat.ltb_lt in Hlt.
      split; [|done]. intros _. specialize (Hticked eq_refl Hlt). lia.
    + fold (settled_jobs q) in *. fold (main_jobs q) in *.
      assert (c_resolve c = false ∧ main_jobs q = []) as [Hres Hmain].
      { destruct (c_resolve c); [done|]. by destruct Hphase as [[=]|[= ->]]. }
      rewrite Hmain in Hwoken. specialize (Hwoken eq_refl).
      match goal with |- context [tick _ _ _ ?c0] => set (c1 := c0) end.
      pose proof (tick_exit c1) as Hexit.
      pose proof (tick_jobs_later c1 Hlater Hres) as Hj.
      assert (Hti : tick_inv items concurrency c1).
      { unfold tick_inv, in_flight, accounted in *; simpl. rewrite Hjobs in Hperm.
        simpl in Hperm. fold (settled_jobs q) in Hperm. done. }
      apply tick_tick_inv in Hti. destruct Hti as (_ & _ & _ & _ & Hres' & _ & _).
      intros _. simpl. rewrite Hres', Hj. simpl.
      rewrite main_jobs_app, Hmain. simpl.
      split; [done|]. split; [done|]. intros _ Hlt.
      rewrite settled_ahead_only by done. specialize (Hexit Hlt). lia.
  - destruct (c_pending c !! k) as [[item f]|] eqn:Hk; [|done].
    destruct (f (c_store c)) as [r s']. injection Hstep as <-.
    intros Hret. simpl in *. specialize (Hwake Hret).
    destruct Hwake as (Harmed & Hwoken & Hticked).
    rewrite main_jobs_app. simpl. rewrite app_nil_r.
    split; [done|]. split; [done|].
    intros Hm Hlt. rewrite settled_ahead_app; [by apply Hticked|].
    by rewrite Hm.
Qed.

(** While [processQueue] has not returned, something can still happen. *)
Lemma wake_progress c :
  queue_inv items concurrency c → wake_inv items concurrency c →
  c_returned c = None → can_step items processor concurrency c.
Proof.
  intros [Hact Hbound Hperm Hidx Hphase] Hwake Hret.
  destruct (Hwake Hret) as (Harmed & _ & _).
  unfold phase in Hphase. rewrite Hret in Hphase. unfold can_step.
  destruct (c_jobs c) as [|j q] eqn:Hjobs.
  - destruct (c_resolve c); [|by destruct Hphase].
    specialize (Harmed eq_refl). unfold in_flight in Hact. rewrite Hjobs in Hact.
    simpl in Hact.
    destruct (c_pending c) as [|[item f] pend] eqn:Hpend; [simpl in Hact; lia|].
    destruct (f (c_store c)) as [r s'] eqn:Hf.
    eexists (Settle 0), _. simpl. rewrite Hpend. simpl. by rewrite Hf.
  - eexists RunJob, _. simpl. by rewrite Hjobs.
Qed.
End Wake.

(** *** Runs of the queue *)

Lemma run_queue_inv evs c c' :
  queue_inv items concurrency c →
  run items processor concurrency evs c = Some c' →
  queue_inv items concurrency c'.
Proof.
  revert c. induction evs as [|ev evs IH]; intros c Hinv; simpl.
  - by intros [= <-].
  - destruct (step items processor concurrency c ev) as [c1|] eqn:Hstep; [|done].
    apply IH. by eapply step_queue_inv.
Qed.


Lemma run_measure evs c c' :
  run items processor concurrency evs c = Some c' →
  (length evs + measure items c' ≤ measure items c)%nat.
Proof.
  revert c. induction evs as [|ev evs IH]; intros c; simpl.
  - intros [= <-]. lia.
  - destruct (step items processor concurrency c ev) as [c1|] eqn:Hstep; [|done].
    intros Hrun. apply IH in Hrun. apply step_measure in Hstep. lia.
Qed.


(** From a configuration that is woken when it must be, some run returns. *)
Lemma run_to_return n :
  1 ≤ concurrency → (∀ x, settles_later (processor x)) →
  ∀ c, (measure items c < n)%nat →
       queue_inv items concurrency c → wake_inv items concurrency c →
       ∃ evs c', run items processor concurrency evs c = Some c'
                 ∧ is_Some (c_returned c').
Proof.
  intros Hconc Hlater. induction n as [|n IH]; intros c Hn Hinv Hwake; [lia|].
  destruct (c_returned c) as [res|] eqn:Hret.
  { exists [], c. simpl. by rewrite Hret. }
  destruct (wake_progress c Hinv Hwake Hret) as (ev & c1 & Hstep).
  destruct (IH c1) as (evs & c' & Hrun & Hdone).
  - apply step_measure in Hstep. lia.
  - by eapply step_queue_inv.
  - by eapply step_wake_inv.
  - exists (ev :: evs), c'. simpl. by rewrite Hstep.
Qed.

(** What a returned configuration looks like. *)
Lemma returned_drained c succeeded failed :
  queue_inv items concurrency c →
  c_returned c = Some (succeeded, failed) →
  in_flight c = 0%nat
  ∧ succeeded ++ failed.*1 ++ (c_dropped c).*1 ≡ₚ items
  ∧ (length succeeded + length failed + length (c_dropped c) = length items)%nat.
Proof.
  intros [Hact Hbound Hperm Hidx Hphase] Hret.
  unfold phase in Hphase. rewrite Hret in Hphase.
  destruct Hphase as ([= -> ->] & _ & Hjobs & Hpend & Hlen).
  unfold in_flight, accounted in *. rewrite Hjobs, Hpend in *. simpl in *.
  rewrite Hlen, firstn_all, !app_nil_r in Hperm.
  split; [done|]. split; [done|].
  apply Permutation_length in Hperm.
  rewrite !length_app, !length_fmap in Hperm. lia.
Qed.

(** Whatever the processors and the concurrency are: the number of
    invocations in flight stays within the bound, and a return happens only
    once nothing is in flight, with every item in exactly one result list or
    dropped. *)
Lemma processQueue_safety s evs c :
  run items processor concurrency evs (init items processor concurrency s) = Some c →
  Z.of_nat (in_flight c) ≤ Z.max 0 concurrency
  ∧ (length evs ≤ 4 * length items + 1)%nat
  ∧ ∀ succeeded failed,
      c_returned c = Some (succeeded, failed) →
      in_flight c = 0%nat
      ∧ succeeded ++ failed.*1 ++ (c_dropped c).*1 ≡ₚ items
      ∧ (length succeeded + length failed + length (c_dropped c)
         = length items)%nat.
Proof.
  intros Hrun.
  pose proof (run_queue_inv _ _ _ (init_queue_inv s) Hrun) as Hinv.
  pose proof (run_measure _ _ _ Hrun) as Hm.
  pose proof (init_measure s).
  split; [|split].
  - destruct Hinv as [Hact Hbound _ _ _]. lia.
  - lia.
  - intros. by apply returned_drained.
Qed.

(** *** Processors whose failures can all be recorded *)

Lemma toError_printable e : printable (Some e) → ∃ error, toError e = inr error.
Proof. destruct e as [[]|]; simpl; [eauto..|done]. Qed.

Section Printable.
Hypothesis Hprintable : ∀ x, rejects_printable (processor x).

Lemma finish_keeps_all item r c :
  printable r → keeps_all c → keeps_all (finish item r c).
Proof.
  intros Hr (Hdrop & Hpend & Hjobs). unfold keeps_all, finish. simpl.
  split; [|split; [done|]].
  - destruct r as [e|]; simpl; [|done].
    by destruct (toError_printable e Hr) as [error ->].
  - destruct (c_resolve c); [|done].
    apply Forall_app. split; [done|]. by apply Forall_singleton.
Qed.

Lemma tick_keeps_all c :
  keeps_all c → keeps_all (tick items processor concurrency c).
Proof.
  unfold tick. apply tick_loop_preserves. clear c.
  intros c item Hc _ _. unfold start. specialize (Hprintable item).
  destruct (processor item) as [e|f|f]; simpl in *.
  - by apply finish_keeps_all.
  - specialize (Hprintable (c_store c)).
    destruct (f (c_store c)) as [r s']. destruct Hc as (Hdrop & Hpend & Hjobs).
    unfold keeps_all. simpl. split; [done|]. split; [done|].
    apply Forall_app. split; [done|]. by apply Forall_singleton.
  - destruct Hc as (Hdrop & Hpend & Hjobs).
    unfold keeps_all. simpl. split; [done|]. split; [|done].
    apply Forall_app. split; [done|]. by apply Forall_singleton.
Qed.

Lemma step_keeps_all c ev c' :
  keeps_all c → step items processor concurrency c ev = Some c' → keeps_all c'.
Proof.
  intros Hc. destruct ev as [|k]; simpl.
  - destruct (c_jobs c) as [|j q] eqn:Hq; [done|]. intros [= <-].
    destruct Hc as (Hdrop & Hpend & Hjobs). rewrite Hq in Hjobs.
    apply Forall_cons in Hjobs as [Hj Hjobs].
    destruct j as [item r| |]; simpl.
    + by apply finish_keeps_all.
    + unfold drain_check. simpl. by destruct (_ || _).
    + match goal with |- context [tick _ _ _ ?c0] => set (c1 := c0) end.
      assert (Hc1 : keeps_all c1) by done.
      apply tick_keeps_all in Hc1 as (Hdrop' & Hpend' & Hjobs').
      unfold keeps_all, push_job. simpl. split; [done|]. split; [done|].
      apply Forall_app. split; [done|]. by apply Forall_singleton.
  - destruct (c_pending c !! k) as [[item f]|] eqn:Hk; [|done].
    destruct Hc as (Hdrop & Hpend & Hjobs).
    pose proof (Forall_lookup_1 _ _ _ _ Hpend Hk (c_store c)) as Hr. simpl in Hr.
    destruct (f (c_store c)) as [r s']. intros [= <-].
    unfold keeps_all. simpl. split; [done|]. split.
    + rewrite (delete_Permutation _ _ _ Hk) in Hpend.
      by apply Forall_cons in Hpend as [_ ?].
    + apply Forall_app. split; [done|]. by apply Forall_singleton.
Qed.

Lemma run_keeps_all evs c c' :
  keeps_all c → run items processor concurrency evs c = Some c' → keeps_all c'.
Proof.
  revert c. induction evs as [|ev evs IH]; intros c Hc; simpl.
  - by intros [= <-].
  - destruct (step items processor concurrency c ev) as [c1|] eqn:Hstep; [|done].
    apply IH. by eapply step_keeps_all.
Qed.

(** Nothing is dropped. *)
Lemma processQueue_keeps_all s evs c :
  run items processor concurrency evs (init items processor concurrency s) = Some c →
  c_dropped c = [].
Proof.
  intros Hrun.
  enough (keeps_all c) as [? _]; [done|].
  eapply run_keeps_all; [|done].
  unfold init.
  match goal with |- context [tick _ _ _ ?c0] => set (c1 := c0) end.
  assert (Hc1 : keeps_all c1) by (by repeat split).
  apply tick_keeps_all in Hc1 as (Hdrop' & Hpend' & Hjobs').
  unfold keeps_all, push_job. simpl. split; [done|]. split; [done|].
  apply Forall_app. split; [done|]. by apply Forall_singleton.
Qed.
End Printable.

(** With no slot to run in, a non-empty input is never finished. *)
Lemma processQueue_starved s evs c :
  concurrency ≤ 0 → items ≠ [] →
  run items processor concurrency evs (init items processor concurrency s) = Some c →
  c_returned c = None ∧ c_index c = 0%nat.
Proof.
  intros Hconc Hne.
  assert (Hlen : (0 < length items)%nat) by (destruct items; [done|simpl; lia]).
  unfold init, tick. simpl.
  destruct (length items - 0)%nat as [|fuel] eqn:Hfuel; [lia|]. simpl.
  rewrite (proj2 (Z.ltb_ge 0 concurrency)) by lia. simpl.
  destruct evs as [|[|k] evs]; simpl.
  - by intros [= <-].
  - unfold drain_check. simpl.
    rewrite (proj2 (Nat.ltb_lt 0 (length items))) by done. simpl.
    destruct evs as [|[|k] evs]; simpl; [by intros [= <-]|done|done].
  - done.
Qed.
End QueueProps.

(** An empty input returns at the first turn of the job queue, whatever the
    concurrency is. *)
Lemma processQueue_empty {T Store} (processor : T → Behaviour Store) concurrency s :
  ∃ c, run [] processor concurrency [RunJob] (init [] processor concurrency s) = Some c
       ∧ c_returned c = Some ([], []).
Proof. eexists. split; reflexivity. Qed.






(** C10, at the failing input: two items, one slot, and a processor whose
    promise is fulfilled when it is returned.  The block of the first item
    runs before [processQueue] has stored its resolver, so after two jobs
    [processQueue] is suspended with nothing queued and nothing pending.
    However the job queue unfolds, [processQueue] stays pending and the
    processor of the second item is never invoked. *)
Theorem processQueue_lost_wakeup :
  (∃ c, run ["a"; "b"] Sample.instant 1 [RunJob; RunJob]
          (init ["a"; "b"] Sample.instant 1 tt) = Some c
        ∧ c_succeeded c = ["a"] ∧ c_index c = 1%nat ∧ c_resolve c = true
        ∧ c_jobs c = [] ∧ c_pending c = [] ∧ c_returned c = None
        ∧ ¬ can_step ["a"; "b"] Sample.instant 1 c)
  ∧ (∀ evs, processQueue ["a"; "b"] Sample.instant 1 tt evs = None)
  ∧ (∀ evs c,
       run ["a"; "b"] Sample.instant 1 evs (init ["a"; "b"] Sample.instant 1 tt) = Some c →
       c_index c = 1%nat).
Proof.
  assert (Hall : ∀ evs c,
            run ["a"; "b"] Sample.instant 1 evs
              (init ["a"; "b"] Sample.instant 1 tt) = Some c →
            c_returned c = None ∧ c_index c = 1%nat).
  { intros evs c.
    change (init ["a"; "b"] Sample.instant 1 tt)
      with {| c_index := 1; c_active := 1; c_resolve := false;
              c_succeeded := []; c_failed := ([] : list (string * Thrown));
              c_dropped := [];
              c_store := tt; c_pending := [];
              c_jobs := [JSettled "a" None; JAfterTick];
              c_returned := None |}.
    destruct evs as [|[|k] evs]; [by intros [= <-]| |done].
    destruct evs as [|[|k] evs]; [by intros [= <-]| |done].
    destruct evs as [|[|k] evs]; [by intros [= <-]|done|done]. }
  split; [|split].
  - destruct Sample.stuck as [c|] eqn:Hc; [|discriminate Hc].
    exists c. split; [rewrite <- Hc; vm_compute; reflexivity|].
    injection Hc as <-. repeat split.
    intros ([|k] & c' & Hstep); discriminate Hstep.
  - intros evs. unfold processQueue.
    destruct (run _ _ _ _ _) as [c|] eqn:Hrun; [|done].
    by apply Hall in Hrun as [? _].
  - intros evs c Hrun. by apply Hall in Hrun as [_ ?].
Qed.

(** ** The atomic writer *)

Lemma str_length_app (a b : string) :
  String.length (a +:+ b) = (String.length a + String.length b)%nat.
Proof.
  induction a as [|x a IH]; [done|].
  change (String x a +:+ b) with (String x (a +:+ b)). simpl. by rewrite IH.
Qed.

Lemma tmpPath_fresh filePath rand : tmpPath filePath rand ≠ filePath.
Proof.
  intros Heq. apply (f_equal String.length) in Heq.
  unfold tmpPath in Heq. rewrite !str_length_app in Heq. simpl in Heq. lia.
Qed.

Lemma tmpPath_inj filePath rand1 rand2 :
  tmpPath filePath rand1 = tmpPath filePath rand2 → rand1 = rand2.
Proof.
  unfold tmpPath. intros Heq.
  apply (inj (String.app filePath)) in Heq.
  by apply (inj (String.app ".tmp-")) in Heq.
Qed.

Lemma writing_lookup tmp data (fs s : FS) p :
  s ∈ writing tmp data fs → p ≠ tmp → s !! p = fs !! p.
Proof.
  unfold writing. intros (n & -> & _)%list_elem_of_fmap Hne.
  by rewrite lookup_insert_ne.
Qed.

#[local] Opaque writing.

(** Splits a statement about every state of a trace into one per segment. *)
Ltac split_trace :=
  repeat match goal with
         | |- Forall _ (_ :: _) => apply Forall_cons; split
         | |- Forall _ (_ ++ _) => apply Forall_app; split
         | |- Forall _ [] => apply Forall_nil_2
         end.

Lemma try_fault_plain f e f' : try_fault f ≠ CleanupFails e f'.
Proof. induction f; done. Qed.

Lemma fault_cause_try f : fault_cause (try_fault f) = fault_cause f.
Proof. induction f; done. Qed.

Lemma writeFileAtomic_catch_spec filePath rand err cleanup (fs0 fs : FS)
    seen res fs' seen' :
  writeFileAtomic_catch filePath rand err cleanup fs seen = (res, fs', seen') →
  fs !! filePath = fs0 !! filePath →
  res = inl (StorageError ("Failed to write " +:+ filePath) filePath err)
  ∧ seen' = seen ++ [fs']
  ∧ fs' !! tmpPath filePath rand
    = match cleanup with None => None | Some _ => fs !! tmpPath filePath rand end
  ∧ fs' !! filePath = fs0 !! filePath.
Proof.
  unfold writeFileAtomic_catch, unlink. intros Hrun Hdest.
  pose proof (tmpPath_fresh filePath rand) as Hne.
  destruct (fs !! tmpPath filePath rand) eqn:Htmp.
  - destruct cleanup; injection Hrun as <- <- <-.
    + done.
    + rewrite lookup_delete_eq, lookup_delete_ne by done. done.
  - injection Hrun as <- <- <-. by destruct cleanup.
Qed.

(** C8, as amended: [writeFileAtomic] writes a sibling temporary file (its
    name is the destination's followed by the random suffix, so it is never
    the destination itself and differs for different suffixes) and renames
    it into place.  In every state the file system goes through the
    destination is as it was or holds the complete new content.  Without a
    failure the destination ends with the new content and no temporary file
    is left.  After any failure in the [try] block the destination is as it
    was and the error thrown is a [StorageError] carrying the destination
    path and the cause; the temporary file is gone when its removal goes
    through, and when the removal fails, which the code ignores, it stays as
    the [try] block left it. *)
Theorem writeFileAtomic_atomic filePath data rand fault (fs : FS) :
  ∃ res fs' seen,
    writeFileAtomic filePath data rand fault fs = (res, fs', seen)
    ∧ tmpPath filePath rand ≠ filePath
    ∧ (∀ rand', tmpPath filePath rand = tmpPath filePath rand' → rand = rand')
    ∧ (∀ s, s ∈ seen → s !! filePath = fs !! filePath ∨ s !! filePath = Some data)
    ∧ last seen = Some fs'
    ∧ match fault_cause fault with
      | None =>
          res = inr tt ∧ fs' !! filePath = Some data
          ∧ fs' !! tmpPath filePath rand = None
      | Some cause =>
          res = inl (StorageError ("Failed to write " +:+ filePath) filePath cause)
          ∧ fs' !! filePath = fs !! filePath
          ∧ fs' !! tmpPath filePath rand
            = match cleanup_fault fault with
              | None => None
              | Some _ => left_behind filePath data rand fault fs
              end
      end.
Proof.
  pose proof (tmpPath_fresh filePath rand) as Hne.
  destruct (writeFileAtomic filePath data rand fault fs) as [[res fs'] seen] eqn:Hrun.
  exists res, fs', seen. split; [done|]. split; [done|].
  split; [intros rand'; apply tmpPath_inj|].
  assert (Hwriting : Forall (λ s : FS, s !! filePath = fs !! filePath
                                       ∨ s !! filePath = Some data)
                       (writing (tmpPath filePath rand) data fs)).
  { apply Forall_forall. intros s Hs. left. by eapply writing_lookup. }
  rewrite <- Forall_forall.
  unfold writeFileAtomic in Hrun. unfold left_behind.
  rewrite <- (fault_cause_try fault).
  destruct (try_fault fault) as [|e|e written|e|e f'] eqn:Htry; cbn [fault_cause].
  - unfold rename in Hrun. rewrite lookup_insert_eq in Hrun.
    injection Hrun as <- <- <-.
    split; [|split; [|split; [|split]]].
    + split_trace; [by left|done|].
      right. by rewrite lookup_insert_eq.
    + by rewrite app_comm_cons, last_snoc.
    + done.
    + by rewrite lookup_insert_eq.
    + rewrite lookup_insert_ne, lookup_delete_eq by done. done.
  - apply (writeFileAtomic_catch_spec _ _ _ _ fs) in Hrun as (-> & -> & Htmp & Hdest);
      [|done].
    split; [|split; [|done]].
    + split_trace; by left.
    + by rewrite last_snoc.
  - apply (writeFileAtomic_catch_spec _ _ _ _ fs) in Hrun as (-> & -> & Htmp & Hdest).
    2: { destruct written; [by rewrite lookup_insert_ne|done]. }
    split; [|split; [|split; [done|split; [done|]]]].
    + split_trace; try by left.
      left. destruct written; [by rewrite lookup_insert_ne|done].
    + by rewrite last_snoc.
    + rewrite Htmp. destruct (cleanup_fault fault); [|done].
      destruct written; [by rewrite lookup_insert_eq|done].
  - apply (writeFileAtomic_catch_spec _ _ _ _ fs) in Hrun as (-> & -> & Htmp & Hdest).
    2: { by rewrite lookup_insert_ne. }
    split; [|split; [|split; [done|split; [done|]]]].
    + split_trace; try done; by left.
    + by rewrite last_snoc.
    + rewrite Htmp. destruct (cleanup_fault fault); [|done].
      by rewrite lookup_insert_eq.
  - by apply try_fault_plain in Htry.
Qed.

(** C8, as stated, fails: the disk fills up while the temporary file is
    being written, and the temporary file cannot be removed either.  The call
    throws its [StorageError], the destination is untouched, and the
    temporary file stays with what had been written. *)
Lemma writeFileAtomic_leaves_residue :
  ∃ fs' seen,
    writeFileAtomic "rec/meta.json" "{}" "9f3a"
      (CleanupFails (OtherError "EPERM") (WriteFails (OtherError "ENOSPC") (Some "{")))
      ({[ "rec/meta.json" := "old" ]} : FS)
    = (inl (StorageError "Failed to write rec/meta.json" "rec/meta.json"
              (OtherError "ENOSPC")), fs', seen)
    ∧ fs' !! "rec/meta.json" = Some "old"
    ∧ fs' !! tmpPath "rec/meta.json" "9f3a" = Some "{"
    ∧ fs' !! tmpPath "rec/meta.json" "9f3a" ≠ None.
Proof.
  eexists _, _. split; [reflexivity|].
  split; [reflexivity|]. split; [reflexivity|]. discriminate.
Qed.

(** ** The checksum verifier *)

Section ChecksumProps.
Context `{Runtime}.

Lemma verify_entries_spec dir entries acc (fs : FS) :
  verify_entries dir entries acc fs
  = (match unusable_entry entries with
     | Some e => inl e
     | None => inr (acc ++ omap (entry_mismatch dir fs) entries)
     end, fs).
Proof.
  revert acc. induction entries as [|[file expected] rest IH]; intros acc.
  - simpl. by rewrite app_nil_r.
  - cbn [verify_entries omap unusable_entry].
    unfold sha256File, readFile, entry_mismatch at 1.
    cbn [fst snd list_omap].
    destruct (fs !! path_join dir file) as [data|] eqn:Hfile.
    + destruct expected as [e|sha256]; [done|].
      destruct (decide (Some (sha256_hex data) = sha256)) as [Heq|Hne].
      * rewrite (bool_decide_eq_false_2 (_ ≠ _)) by (by intros ?).
        rewrite (bool_decide_eq_true_2 (_ = _)) by done.
        by rewrite IH.
      * rewrite (bool_decide_eq_true_2 (_ ≠ _)) by done.
        rewrite (bool_decide_eq_false_2 (_ = _)) by done.
        rewrite IH. destruct (unusable_entry rest); [done|].
        by rewrite <- app_assoc.
    + destruct expected as [e|sha256]; [done|].
      rewrite IH. destruct (unusable_entry rest); [done|].
      by rewrite <- app_assoc.
Qed.

Lemma omap_length_filter {A B} (f : A → option B) (l : list A) :
  length (omap f l) = length (filter (λ x, is_Some (f x)) l).
Proof.
  induction l as [|x l IH]; [done|]. cbn [omap list_omap].
  rewrite filter_cons. destruct (f x) eqn:Hx.
  - rewrite decide_True by eauto. simpl. by rewrite <- IH.
  - rewrite decide_False by (by intros [??]). done.
Qed.

(** C7, as amended: [verifyChecksums] leaves the file system as it found
    it.  Without a manifest that can be read and parsed as JSON it returns no
    mismatch.  When the manifest parses to a value without [files], or an
    entry of [files] is unusable, the call throws instead of returning.
    Otherwise it returns, in manifest order, one record for each entry whose
    file is missing (actual value ["MISSING"]) or hashes to something else
    than the recorded digest, and none for an entry whose file matches. *)
Theorem verifyChecksums_spec dir (fs : FS) :
  ∃ outcome,
    verifyChecksums dir fs = (outcome, fs)
    ∧ match manifest_of dir fs with
      | NotJSON => outcome = inr []
      | NoFiles e => outcome = inl e
      | Files entries =>
          match unusable_entry entries with
          | Some e => outcome = inl e
          | None =>
              ∃ mismatches,
                outcome = inr mismatches
                ∧ mismatches = omap (entry_mismatch dir fs) entries
                ∧ length mismatches
                  = length (filter (λ e, is_Some (entry_mismatch dir fs e)) entries)
                ∧ (∀ file sha256,
                     (file, Recorded sha256) ∈ entries →
                     (fs !! path_join dir file = None →
                      {| cme_filePath := path_join dir file;
                         cme_expected := sha256;
                         cme_actual := "MISSING" |} ∈ mismatches)
                     ∧ (∀ data, fs !! path_join dir file = Some data →
                                Some (sha256_hex data) ≠ sha256 →
                                {| cme_filePath := path_join dir file;
                                   cme_expected := sha256;
                                   cme_actual := sha256_hex data |} ∈ mismatches))
                ∧ (∀ m, m ∈ mismatches →
                     ∃ file sha256,
                       (file, Recorded sha256) ∈ entries
                       ∧ cme_filePath m = path_join dir file
                       ∧ cme_expected m = sha256
                       ∧ (fs !! path_join dir file = None ∧ cme_actual m = "MISSING"
                          ∨ ∃ data, fs !! path_join dir file = Some data
                                    ∧ Some (sha256_hex data) ≠ sha256
                                    ∧ cme_actual m = sha256_hex data))
          end
      end.
Proof.
  unfold verifyChecksums, manifest_of, readFile.
  destruct (fs !! path_join dir "checksums.json") as [raw|]; simpl;
    [|by eexists].
  destruct (JSON_parse_manifest raw) as [|e|entries]; [by eexists|by eexists|].
  rewrite verify_entries_spec. simpl. eexists. split; [done|].
  destruct (unusable_entry entries) as [e|]; [done|].
  eexists. split; [done|].
  split; [done|]. split; [apply omap_length_filter|]. split.
  - intros file sha256 Hin. split.
    + intros Hnone. apply list_elem_of_omap. exists (file, Recorded sha256).
      split; [done|]. unfold entry_mismatch. simpl. by rewrite Hnone.
    + intros data Hsome Hne. apply list_elem_of_omap. exists (file, Recorded sha256).
      split; [done|]. unfold entry_mismatch. simpl. rewrite Hsome.
      by rewrite bool_decide_eq_false_2.
  - intros m ([file [e|sha256]] & Hin & Hm)%list_elem_of_omap; [done|].
    exists file, sha256. split; [done|].
    unfold entry_mismatch in Hm. simpl in Hm.
    destruct (fs !! path_join dir file) as [data|] eqn:Hfile.
    + case_bool_decide as Heq; [done|]. injection Hm as <-. simpl.
      split; [done|]. split; [done|]. right. by exists data.
    + injection Hm as <-. simpl. split; [done|]. split; [done|]. by left.
Qed.
End ChecksumProps.

(** A directory whose manifest lists three files: one is intact, one has been
    tampered with and one has been deleted. *)
Example verifyChecksums_tampered :
  @verifyChecksums Sample.runtime "rec"
    ({[ "rec/checksums.json" := "manifest";
        "rec/meta.json" := "meta";
        "rec/audio.m4a" := "audi0" ]} : FS)
  = (inr [ {| cme_filePath := "rec/audio.m4a"; cme_expected := Some "audio";
              cme_actual := "audi0" |};
           {| cme_filePath := "rec/transcript.txt"; cme_expected := Some "text";
              cme_actual := "MISSING" |} ],
     {[ "rec/checksums.json" := "manifest";
        "rec/meta.json" := "meta";
        "rec/audio.m4a" := "audi0" ]}).
Proof. vm_compute. reflexivity. Qed.

(** C7, as stated, fails: a manifest file that is there and is JSON, yet has
    no [files] (the text [{}]), or has an entry that is [null], makes the
    call throw; no list of mismatches is returned, not even for the entry
    that was found tampered with before the [null] one. *)
Lemma verifyChecksums_ill_shaped_manifest :
  @verifyChecksums Sample.runtime "rec"
    ({[ "rec/checksums.json" := "{}"; "rec/meta.json" := "meta" ]} : FS)
  = (inl (OtherError "Cannot convert undefined or null to object"),
     {[ "rec/checksums.json" := "{}"; "rec/meta.json" := "meta" ]})
  ∧ @verifyChecksums Sample.runtime "rec"
      ({[ "rec/checksums.json" := "manifest with a null entry";
          "rec/meta.json" := "met4";
          "rec/audio.m4a" := "audio" ]} : FS)
    = (inl (OtherError "Cannot read properties of null (reading 'sha256')"),
       {[ "rec/checksums.json" := "manifest with a null entry";
          "rec/meta.json" := "met4";
          "rec/audio.m4a" := "audio" ]})
  ∧ ¬ ∃ mismatches,
        (@verifyChecksums Sample.runtime "rec"
           ({[ "rec/checksums.json" := "{}"; "rec/meta.json" := "meta" ]} : FS)).1
        = inr mismatches.
Proof.
  split; [vm_compute; reflexivity|]. split; [vm_compute; reflexivity|].
  intros [mismatches Hm]. vm_compute in Hm. discriminate Hm.
Qed.

(** ** Queues whose processors all return a pending promise *)

Section AsyncQueueProps.
Context {T Store : Type}.
Variable items : list T.
Variable processor : T → Behaviour Store.
Variable concurrency : Z.
Variable P : Store → Prop.
Variable R : T → option Caught → Prop.
Variable Q : T → Store → Prop.

Hypothesis Hasync : ∀ item, ∃ f, processor item = Async f.
Hypothesis HP :
  ∀ item f s, item ∈ items → processor item = Async f → P s → P (f s).2.
Hypothesis HR :
  ∀ item f s, item ∈ items → processor item = Async f → P s → R item (f s).1.
Hypothesis HQ :
  ∀ item f s, item ∈ items → processor item = Async f → P s → Q item (f s).2.
Hypothesis HQframe :
  ∀ item item' f s,
    item ∈ items → item' ∈ items → (NoDup items → item ≠ item') →
    processor item' = Async f →
    Q item s → Q item (f s).2.

Implicit Types (c : Config T Store).

(** A round of [tick] only moves items into the pending list. *)
Lemma tick_async c :
  ∃ new,
    Forall (origin items processor) new
    ∧ c_pending (tick items processor concurrency c) = c_pending c ++ new
    ∧ c_resolve (tick items processor concurrency c) = c_resolve c
    ∧ c_succeeded (tick items processor concurrency c) = c_succeeded c
    ∧ c_failed (tick items processor concurrency c) = c_failed c
    ∧ c_dropped (tick items processor concurrency c) = c_dropped c
    ∧ c_store (tick items processor concurrency c) = c_store c
    ∧ c_jobs (tick items processor concurrency c) = c_jobs c
    ∧ c_returned (tick items processor concurrency c) = c_returned c.
Proof.
  unfold tick.
  apply (tick_loop_preserves items processor concurrency (λ c',
    ∃ new, Forall (origin items processor) new
           ∧ c_pending c' = c_pending c ++ new
           ∧ c_resolve c' = c_resolve c
           ∧ c_succeeded c' = c_succeeded c
           ∧ c_failed c' = c_failed c
           ∧ c_dropped c' = c_dropped c
           ∧ c_store c' = c_store c
           ∧ c_jobs c' = c_jobs c
           ∧ c_returned c' = c_returned c)).
  - intros c' item (new & Hnew & Hp & Hr & Hs & Hf & Hd & Hst & Hj & Hret) _ Hitem.
    destruct (Hasync item) as [f Hf'].
    unfold start. rewrite Hf'. simpl.
    exists (new ++ [(item, f)]). rewrite Hp, app_assoc.
    repeat split; try done.
    apply Forall_app. split; [done|]. apply Forall_singleton.
    split; [by eapply list_elem_of_lookup_2|done].
  - exists []. rewrite app_nil_r. repeat split; done.
Qed.

Lemma tick_async_inv c :
  async_inv items processor P R Q c →
  async_inv items processor P R Q
    (push_job JAfterTick (tick items processor concurrency c)).
Proof.
  intros (Hpend & HPs & Hsucc & Hfail & Hdrop & Hjobs & Happ).
  destruct (tick_async c) as (new & Hnew & Hp & Hr & Hs & Hf & Hd & Hst & Hj & Hret).
  unfold async_inv, applied. simpl. rewrite Hp, Hs, Hf, Hd, Hst, Hj.
  rewrite settled_jobs_app. simpl. rewrite app_nil_r.
  repeat split; try done.
  - by apply Forall_app.
  - apply Forall_app. split; [done|]. by apply Forall_singleton.
Qed.

Lemma init_async_inv s :
  P s → async_inv items processor P R Q (init items processor concurrency s).
Proof.
  intros Hs. apply tick_async_inv. unfold async_inv, applied. simpl.
  repeat split; try done; try by apply Forall_nil_2.
  intros item Hin. by apply elem_of_nil in Hin.
Qed.

Lemma step_async_inv c ev c' :
  queue_inv items concurrency c →
  async_inv items processor P R Q c →
  step items processor concurrency c ev = Some c' →
  async_inv items processor P R Q c'.
Proof.
  intros [_ _ Hperm _ _] (Hpend & HPs & Hsucc & Hfail & Hdrop & Hjobs & Happ) Hstep.
  destruct ev as [|k]; simpl in Hstep.
  - destruct (c_jobs c) as [|j q] eqn:Hq; [done|]. injection Hstep as <-.
    apply Forall_cons in Hjobs as [Hj Hjobs].
    unfold applied in Happ. rewrite Hq in Happ.
    destruct j as [item r| |]; simpl.
    + (* the block after an [await]: the item moves to a result list *)
      unfold async_inv, applied. simpl in *. fold (settled_jobs q) in *.
      repeat split; try done.
      * destruct r; [done|]. apply Forall_app. split; [done|].
        by apply Forall_singleton.
      * destruct r as [e|]; simpl; [|done].
        destruct (toError e) as [raised|error] eqn:He; [done|].
        apply Forall_app. split; [done|].
        apply Forall_singleton. by exists e.
      * destruct r as [e|]; simpl; [|done].
        destruct (toError e) as [raised|error] eqn:He; [|done].
        apply Forall_app. split; [done|].
        apply Forall_singleton. by exists e.
      * destruct (c_resolve c); [|done]. apply Forall_app. split; [done|].
        by apply Forall_singleton.
      * intros item' Hin. apply Happ.
        assert (settled_jobs (if c_resolve c then q ++ [JAfterWake] else q)
                = settled_jobs q) as Hsj.
        { destruct (c_resolve c); [|done]. rewrite settled_jobs_app. simpl.
          by rewrite app_nil_r. }
        rewrite Hsj in Hin.
        eapply elem_of_Permutation_proper; [|exact Hin].
        destruct r as [e|]; simpl; [destruct (toError e)|];
          rewrite ?fmap_app; simpl; solve_Permutation.
    + unfold async_inv, applied, drain_check. simpl in *.
      destruct (_ || _); simpl; done.
    + apply tick_async_inv. unfold async_inv, applied. simpl in *. done.
  - destruct (c_pending c !! k) as [[item f]|] eqn:Hk; [|done].
    destruct (f (c_store c)) as [r s'] eqn:Hf. injection Hstep as <-.
    pose proof (Forall_lookup_1 _ _ _ _ Hpend Hk) as [Hitem Hproc]. simpl in *.
    pose proof (HP item f (c_store c) Hitem Hproc HPs) as HP'.
    pose proof (HR item f (c_store c) Hitem Hproc HPs) as HR'.
    pose proof (HQ item f (c_store c) Hitem Hproc HPs) as HQ'.
    rewrite Hf in HP', HR', HQ'. simpl in *.
    unfold async_inv, applied. simpl.
    repeat split; try done.
    + rewrite (delete_Permutation _ _ _ Hk) in Hpend.
      by apply Forall_cons in Hpend as [_ ?].
    + apply Forall_app. split; [done|]. by apply Forall_singleton.
    + intros item'. rewrite settled_jobs_app. simpl.
      rewrite !app_assoc, elem_of_app, list_elem_of_singleton, <- !app_assoc.
      fold (applied c). intros [Hin| ->]; [|done].
      assert (Hsplit : accounted c ≡ₚ (c_pending c).*1 ++ applied c).
      { unfold accounted, applied. solve_Permutation. }
      assert (Hpin : item ∈ (c_pending c).*1).
      { apply list_elem_of_fmap. exists (item, f).
        split; [done|]. by eapply list_elem_of_lookup_2. }
      assert (Hacc : item' ∈ accounted c).
      { rewrite Hsplit. apply elem_of_app. by right. }
      assert (Hne : NoDup items → item' ≠ item).
      { intros Hnodup ->.
        assert (Hnd : NoDup ((c_pending c).*1 ++ applied c)).
        { rewrite <- Hsplit, Hperm.
          exact (sublist_NoDup _ _ Hnodup (sublist_take _ _)). }
        apply NoDup_app in Hnd as (_ & Hdisj & _). by apply (Hdisj item). }
      replace s' with (f (c_store c)).2 by by rewrite Hf.
      apply (HQframe item' item); try done.
      * rewrite Hperm in Hacc. by apply (subseteq_take (c_index c) items).
      * by apply Happ.
Qed.

Lemma run_async_inv evs c c' :
  queue_inv items concurrency c →
  async_inv items processor P R Q c →
  run items processor concurrency evs c = Some c' →
  async_inv items processor P R Q c'.
Proof.
  revert c. induction evs as [|ev evs IH]; intros c Hinv Hasy; simpl.
  - by intros [= <-].
  - destruct (step items processor concurrency c ev) as [c1|] eqn:Hstep; [|done].
    apply IH; [by eapply step_queue_inv|by eapply step_async_inv].
Qed.

(** What the caller of [processQueue] gets back. *)
Lemma processQueue_async_result s evs c succeeded failed :
  P s →
  run items processor concurrency evs (init items processor concurrency s) = Some c →
  c_returned c = Some (succeeded, failed) →
  P (c_store c)
  ∧ succeeded ++ failed.*1 ++ (c_dropped c).*1 ≡ₚ items
  ∧ Forall (λ item, R item None) succeeded
  ∧ Forall (λ p, ∃ e, toError e = inr p.2 ∧ R p.1 (Some e)) failed
  ∧ Forall (λ p, ∃ e, toError e = inl p.2 ∧ R p.1 (Some e)) (c_dropped c)
  ∧ ∀ item, item ∈ items → Q item (c_store c).
Proof.
  intros Hs Hrun Hret.
  pose proof (run_queue_inv _ _ _ _ _ _ (init_queue_inv _ _ _ s) Hrun) as Hinv.
  pose proof (run_async_inv _ _ _ (init_queue_inv _ _ _ s) (init_async_inv s Hs) Hrun)
    as (_ & HPs & Hsucc & Hfail & Hdrop & _ & Happ).
  destruct (returned_drained _ _ _ _ _ Hinv Hret) as (_ & Hperm & _).
  destruct Hinv as [_ _ _ _ Hphase]. unfold phase in Hphase. rewrite Hret in Hphase.
  destruct Hphase as ([= -> ->] & _ & Hjobs & _).
  split; [done|]. split; [done|]. split; [done|]. split; [done|]. split; [done|].
  intros item Hin. apply Happ. unfold applied. rewrite Hjobs. simpl.
  rewrite app_nil_r. by rewrite Hperm.
Qed.
End AsyncQueueProps.

(** ** The sync orchestrator *)

(** A property of the state that every invocation of the thunk preserves
    holds of the state [retryWithBackoff] ends in. *)
Lemma retry_loop_invariant {St T} (fn : St → Result T * St) (I : St → Prop) :
  (∀ st, I st → I (fn st).2) →
  ∀ fuel m attempt st log,
    I st → I (retry_loop fn fuel m attempt st log).1.2.
Proof.
  intros Hfn. induction fuel as [|fuel IH]; intros m attempt st log Hst; [done|].
  simpl. destruct (attempt <=? m); [|done].
  specialize (Hfn st Hst). destruct (fn st) as [[e|v] st']; simpl in *; [|done].
  destruct (_ || _); [done|]. by apply IH.
Qed.

Lemma NoDup_fmap_eq {A B} (f : A → B) (l : list A) x y :
  NoDup (f <$> l) → x ∈ l → y ∈ l → f x = f y → x = y.
Proof.
  induction l as [|a l IH]; [by intros _ ?%elem_of_nil|].
  rewrite fmap_cons, NoDup_cons, !elem_of_cons.
  intros [Hnotin Hnd] [->|Hx] [->|Hy] Heq; try done.
  - exfalso. apply Hnotin. rewrite Heq. by apply list_elem_of_fmap_2.
  - exfalso. apply Hnotin. rewrite <- Heq. by apply list_elem_of_fmap_2.
  - by apply IH.
Qed.

Section EngineProps.
Context `{Runtime}.
Variable w : World.
Variable opts : SyncOptions.

Lemma downloadRecording_lastSync recording attempt tracker :
  ss_lastSuccessfulSyncAt (downloadRecording w opts recording attempt tracker).1.2
  = ss_lastSuccessfulSyncAt tracker.
Proof.
  unfold downloadRecording.
  destruct (w_writeMetadata w _ _); [done|].
  destruct (transcript_phase w opts recording attempt) as [hasTranscript steps_b].
  destruct (audio_phase w recording attempt) as [[e|hasAudio] steps_c]; [done|].
  by destruct (w_writeChecksums w _ _).
Qed.

Lemma process_recording_lastSync recording tracker :
  ss_lastSuccessfulSyncAt (process_recording w opts recording tracker).2
  = ss_lastSuccessfulSyncAt tracker.
Proof.
  assert (Hthunk : ∀ st : nat * SyncState,
            ss_lastSuccessfulSyncAt st.2 = ss_lastSuccessfulSyncAt tracker →
            ss_lastSuccessfulSyncAt (download_thunk w opts recording st).2.2
            = ss_lastSuccessfulSyncAt tracker).
  { intros [n tr] Hst. unfold download_thunk. simpl.
    pose proof (downloadRecording_lastSync recording n tr) as Hd.
    destruct (downloadRecording w opts recording n tr) as [[r' tr'] steps].
    simpl in *. congruence. }
  unfold process_recording, retryWithBackoff.
  match goal with |- context [retry_loop ?fn ?fuel ?m ?a ?st0 ?log] =>
    pose proof (retry_loop_invariant fn
      (λ s, ss_lastSuccessfulSyncAt s.2 = ss_lastSuccessfulSyncAt tracker)
      Hthunk fuel m a st0 log eq_refl) as Hinv;
    destruct (retry_loop fn fuel m a st0 log) as [[r st'] log']
  end.
  done.
Qed.

(** An attempt that succeeds at once is all that [retryWithBackoff] makes. *)
Lemma process_recording_first_try recording tracker tracker' steps :
  downloadRecording w opts recording 0 tracker = (inr tt, tracker', steps) →
  process_recording w opts recording tracker = (None, tracker').
Proof.
  intros Hd. unfold process_recording, retryWithBackoff. simpl default.
  rewrite (retry_loop_success _ _ 4 1 (0%nat, tracker) (1%nat, tracker') tt);
    [done|lia|].
  unfold download_thunk. simpl. by rewrite Hd.
Qed.

(** When the metadata, the audio step and the checksums go through, an
    attempt completes, whatever happens to the transcript. *)
Lemma downloadRecording_completes recording attempt tracker hasAudio :
  w_writeMetadata w (rec_id recording) attempt = inr tt →
  (audio_phase w recording attempt).1 = inr hasAudio →
  w_writeChecksums w (rec_id recording) attempt = inr tt →
  ∃ steps,
    downloadRecording w opts recording attempt tracker
    = (inr tt,
       markComplete (w_now_markComplete w (rec_id recording) attempt)
         (rec_id recording) (rec_recordedAt recording) hasAudio
         (transcript_phase w opts recording attempt).1
         (computeContentHash recording) tracker,
       steps).
Proof.
  intros Hmeta Haudio Hsums. unfold downloadRecording. rewrite Hmeta.
  destruct (transcript_phase w opts recording attempt) as [hasTranscript steps_b].
  destruct (audio_phase w recording attempt) as [a steps_c]. simpl in Haudio.
  subst a. rewrite Hsums. by eexists.
Qed.

(** What [run] does once [processQueue] has returned. *)
Lemma SyncEngine_run_returned mode evs c succeeded failed :
  w_isAuthenticated w = true → opt_dryRun opts = false →
  (opt_includeDataset opts = true → w_datasetOpen w = inr tt) →
  run (candidates w opts mode).1 (processor_of w opts) (opt_concurrency opts) evs
    (init (candidates w opts mode).1 (processor_of w opts) (opt_concurrency opts)
       (load (w_stateFile w))) = Some c →
  c_returned c = Some (succeeded, failed) →
  SyncEngine_run w opts mode evs
  = finalize w opts mode (candidates w opts mode).1 (candidates w opts mode).2
      succeeded failed (c_store c).
Proof.
  intros Hauth Hdry Hopen Hrun Hret. unfold SyncEngine_run.
  rewrite Hauth, Hdry. simpl.
  destruct (candidates w opts mode) as [toProcess skipped]. simpl in *.
  destruct (opt_includeDataset opts); [rewrite Hopen by done|];
    by rewrite Hrun, Hret.
Qed.

(** The processor of a recording fails with values that can be recorded. *)
Lemma processor_of_printable recording :
  rejects_printable (processor_of w opts recording).
Proof.
  intros s. simpl. destruct (process_recording w opts recording s) as [[e|] s']; done.
Qed.

(** What [run] gets back from the queue, in terms of what the attempts on
    each recording do: for a property [P] of the tracker, a property [R] of
    the way the attempts on a recording end and a property [Q] that they
    establish on the tracker. *)
Lemma engine_queue_result toProcess (P : SyncState → Prop)
    (R : PlaudRecording → option Thrown → Prop)
    (Q : PlaudRecording → SyncState → Prop) s evs c succeeded failed :
  (∀ r s, r ∈ toProcess → P s → P (process_recording w opts r s).2) →
  (∀ r s, r ∈ toProcess → P s → R r (process_recording w opts r s).1) →
  (∀ r s, r ∈ toProcess → P s → Q r (process_recording w opts r s).2) →
  (∀ r r' s, r ∈ toProcess → r' ∈ toProcess → (NoDup toProcess → r ≠ r') →
             Q r s → Q r (process_recording w opts r' s).2) →
  P s →
  run toProcess (processor_of w opts) (opt_concurrency opts) evs
    (init toProcess (processor_of w opts) (opt_concurrency opts) s) = Some c →
  c_returned c = Some (succeeded, failed) →
  P (c_store c)
  ∧ succeeded ++ failed.*1 ≡ₚ toProcess
  ∧ Forall (λ r, R r None) succeeded
  ∧ Forall (λ p, ∃ e, toError (Printable e) = inr p.2 ∧ R p.1 (Some e)) failed
  ∧ ∀ r, r ∈ toProcess → Q r (c_store c).
Proof.
  intros HP HR HQ HQframe Hs Hrun Hret.
  destruct (processQueue_async_result toProcess (processor_of w opts)
              (opt_concurrency opts) P
              (λ r res, ∃ o, res = Printable <$> o ∧ R r o) Q)
    with (s := s) (evs := evs) (c := c) (succeeded := succeeded) (failed := failed)
    as (HPc & Hperm & Hsucc & Hfail & Hdrop & HQc); try done.
  - intros item. by eexists.
  - intros r f s' Hr [= <-] Hs'. specialize (HP r s' Hr Hs').
    by destruct (process_recording w opts r s').
  - intros r f s' Hr [= <-] Hs'. specialize (HR r s' Hr Hs').
    destruct (process_recording w opts r s') as [o s'']. by exists o.
  - intros r f s' Hr [= <-] Hs'. specialize (HQ r s' Hr Hs').
    by destruct (process_recording w opts r s').
  - intros r r' f s' Hr Hr' Hne [= <-] HQr.
    specialize (HQframe r r' s' Hr Hr' Hne HQr).
    by destruct (process_recording w opts r' s').
  - assert (c_dropped c = []) as Hnone.
    { destruct (c_dropped c) as [|[r raised] dropped]; [done|].
      apply Forall_cons in Hdrop as [(e & He & o & Ho & _) _].
      destruct o as [e'|]; [|done]. injection Ho as ->. by destruct e'. }
    rewrite Hnone in Hperm. simpl in Hperm. rewrite app_nil_r in Hperm.
    split; [done|]. split; [done|]. split; [|split; [|done]].
    + apply (Forall_impl _ _ _ Hsucc). intros r (o & Ho & HRo).
      by destruct o.
    + apply (Forall_impl _ _ _ Hfail). intros p (e & He & o & Ho & HRo).
      destruct o as [e'|]; [|done]. injection Ho as ->. by exists e'.
Qed.

(** C9: when the recording advertises a transcript and fetching it, writing
    it or appending it to the dataset fails, the attempt goes on.  The
    failure is logged and the transcript recorded as absent; the audio step,
    the checksums and the tracker update follow in that order, and the
    attempt throws only if one of those later steps throws, leaving the
    tracker as it was.  When they go through the attempt completes and the
    tracker it leaves is the one [markComplete] writes: the entry of the
    recording says [hasTranscript = false], carries the outcome of the audio
    step, the fingerprint of the recording and the time of the update, the
    entries of the other recordings are untouched, and [needsDownload]
    answers [true] for the recording. *)
Theorem downloadRecording_transcript_failure recording attempt tracker :
  rec_hasTranscript recording = true →
  w_writeMetadata w (rec_id recording) attempt = inr tt →
  ((∃ e, w_getTranscript w (rec_id recording) attempt = inl e)
   ∨ (∃ e, w_writeTranscript w (rec_id recording) attempt = inl e)
   ∨ (opt_includeDataset opts = true
      ∧ ∃ e, w_datasetAppend w (rec_id recording) attempt = inl e)) →
  ∃ steps_b,
    transcript_phase w opts recording attempt = (false, steps_b ++ [DWarnTranscript])
    ∧ match audio_phase w recording attempt with
      | (inl e, steps_c) =>
          downloadRecording w opts recording attempt tracker
          = (inl e, tracker,
             [DWriteMetadata] ++ (steps_b ++ [DWarnTranscript]) ++ steps_c)
      | (inr hasAudio, steps_c) =>
          match w_writeChecksums w (rec_id recording) attempt with
          | inl e =>
              downloadRecording w opts recording attempt tracker
              = (inl e, tracker,
                 [DWriteMetadata] ++ (steps_b ++ [DWarnTranscript]) ++ steps_c
                   ++ [DWriteChecksums])
          | inr _ =>
              ∃ tracker' state,
                downloadRecording w opts recording attempt tracker
                = (inr tt, tracker',
                   [DWriteMetadata] ++ (steps_b ++ [DWarnTranscript]) ++ steps_c
                     ++ [DWriteChecksums; DMarkComplete hasAudio false])
                ∧ tracker'
                  = markComplete (w_now_markComplete w (rec_id recording) attempt)
                      (rec_id recording) (rec_recordedAt recording) hasAudio false
                      (computeContentHash recording) tracker
                ∧ ss_recordings tracker' !! rec_id recording = Some state
                ∧ st_hasTranscript state = false
                ∧ st_hasAudio state = hasAudio
                ∧ st_recordedAt state = rec_recordedAt recording
                ∧ st_contentHash state = Some (computeContentHash recording)
                ∧ st_downloadedAt state
                  = Some (w_now_markComplete w (rec_id recording) attempt)
                ∧ (∀ id, id ≠ rec_id recording →
                         ss_recordings tracker' !! id = ss_recordings tracker !! id)
                ∧ ss_lastSuccessfulSyncAt tracker' = ss_lastSuccessfulSyncAt tracker
                ∧ needsDownload tracker' recording = true
          end
      end.
Proof.
  intros Hhas Hmeta Hfail.
  assert (∃ steps_b, transcript_phase w opts recording attempt
                     = (false, steps_b ++ [DWarnTranscript])) as [steps_b Hb].
  { unfold transcript_phase. rewrite Hhas.
    destruct (w_getTranscript w _ _) as [e1|t] eqn:Hget;
      [by exists [DGetTranscript]|].
    destruct (w_writeTranscript w _ _) as [e2|[]] eqn:Hwrite;
      [by exists [DGetTranscript; DWriteTranscript]|].
    destruct (opt_includeDataset opts) eqn:Hds.
    - destruct (w_datasetAppend w _ _) as [e3|[]] eqn:Happend;
        [by exists [DGetTranscript; DWriteTranscript; DDatasetAppend]|].
      destruct Hfail as [[e ?]|[[e ?]|[_ [e ?]]]]; congruence.
    - destruct Hfail as [[e ?]|[[e ?]|[? _]]]; congruence. }
  exists steps_b. split; [done|].
  unfold downloadRecording. rewrite Hmeta, Hb.
  destruct (audio_phase w recording attempt) as [[e|hasAudio] steps_c]; [done|].
  destruct (w_writeChecksums w _ _) as [e|[]]; [done|].
  eexists _, _. split; [done|]. split; [done|].
  split; [by apply lookup_insert_eq|].
  repeat split.
  - intros id Hid. by apply lookup_insert_ne.
  - unfold needsDownload. cbn [markComplete ss_recordings].
    rewrite lookup_insert_eq. cbn.
    rewrite bool_decide_eq_false_2 by (by intros ?).
    by rewrite Hhas.
Qed.

(** C5: a run that completes and writes the state file advances
    [lastSuccessfulSyncAt] exactly when no item failed.  After a run with at
    least one failed item the persisted [lastSuccessfulSyncAt] is the one
    the run started from, and so is the lower bound [getSince] that the next
    incremental pass filters by. *)
Theorem lastSuccessfulSyncAt_advances_only_without_failures mode evs result persisted :
  SyncEngine_run w opts mode evs = RunCompletes result (Some persisted) →
  (sr_failed result = 0%nat →
   ss_lastSuccessfulSyncAt persisted = Some (w_now_markSuccessfulSync w))
  ∧ (sr_failed result ≠ 0%nat →
     ss_lastSuccessfulSyncAt persisted
     = ss_lastSuccessfulSyncAt (load (w_stateFile w))
     ∧ getSince persisted = getSince (load (w_stateFile w)))
  ∧ (ss_lastSuccessfulSyncAt persisted
     ≠ ss_lastSuccessfulSyncAt (load (w_stateFile w)) →
     sr_failed result = 0%nat).
Proof.
  unfold SyncEngine_run.
  destruct (w_isAuthenticated w); simpl; [|done].
  destruct (candidates w opts mode) as [toProcess skipped].
  destruct (opt_dryRun opts); [done|].
  destruct (if opt_includeDataset opts then w_datasetOpen w else inr ()); [done|].
  destruct (run _ _ _ _ _) as [c|] eqn:Hrun; [|done].
  destruct (c_returned c) as [[succeeded failed]|] eqn:Hret; [|done].
  assert (Hstore : ss_lastSuccessfulSyncAt (c_store c)
                   = ss_lastSuccessfulSyncAt (load (w_stateFile w))).
  { refine (proj1 (engine_queue_result toProcess
              (λ s, ss_lastSuccessfulSyncAt s
                    = ss_lastSuccessfulSyncAt (load (w_stateFile w)))
              (λ _ _, True) (λ _ _, True) _ evs c succeeded failed
              _ _ _ _ eq_refl Hrun Hret)); try done.
    intros r s _ Hs. by rewrite process_recording_lastSync. }
  unfold finalize. destruct (w_persist w); [done|].
  destruct (if opt_includeDataset opts then w_datasetClose w else inr ()); [done|].
  intros [= <- <-]. simpl. rewrite length_fmap.
  assert (Hcases : (length failed = 0%nat →
            ss_lastSuccessfulSyncAt
              (if bool_decide (length failed = 0%nat)
               then markSuccessfulSync (w_now_markSuccessfulSync w) (c_store c)
               else c_store c) = Some (w_now_markSuccessfulSync w))
          ∧ (length failed ≠ 0%nat →
             (if bool_decide (length failed = 0%nat)
              then markSuccessfulSync (w_now_markSuccessfulSync w) (c_store c)
              else c_store c) = c_store c)).
  { case_bool_decide; split; done. }
  destruct Hcases as [Hzero Hsome].
  split; [done|]. split.
  - intros Hne. unfold getSince. simpl. by rewrite (Hsome Hne), Hstore.
  - intros Hchanged. destruct (decide (length failed = 0%nat)) as [|Hne]; [done|].
    by rewrite (Hsome Hne), Hstore in Hchanged.
Qed.

(** C2, as amended: in scenario C every run that gets through the queue
    completes with three items succeeded and none failed, and
    [lastSuccessfulSyncAt] advances.  The tracker entry of the item whose
    transcript could not be fetched says [hasTranscript = false]; the state
    file holds that entry (unless the id is ["__proto__"], which is never
    written), so [needsDownload] is true for the item on the next run.  With
    a concurrency of at least one some run does get through the queue; with
    a concurrency of zero or less none does, and the run never completes. *)
Theorem scenario_C_transcript_failure_is_absorbed mode toProcess x e :
  scenario_C w opts mode toProcess x e →
  (∀ evs,
     match SyncEngine_run w opts mode evs with
     | RunUnfinished => True
     | RunThrows _ _ => False
     | RunCompletes result persisted =>
         sr_attempted result = 3%nat ∧ sr_succeeded result = 3%nat
         ∧ sr_failed result = 0%nat ∧ sr_errors result = []
         ∧ ∃ st state,
             persisted = Some st
             ∧ ss_lastSuccessfulSyncAt st = Some (w_now_markSuccessfulSync w)
             ∧ ss_recordings st !! rec_id x = Some state
             ∧ st_hasTranscript state = false
             ∧ needsDownload st x = true
             ∧ ss_lastSuccessfulSyncAt (written st)
               = Some (w_now_markSuccessfulSync w)
             ∧ ss_recordings (written st) !! rec_id x
               = (if bool_decide (rec_id x = "__proto__") then None else Some state)
             ∧ needsDownload (load (Some (written st))) x = true
     end)
  ∧ (1 ≤ opt_concurrency opts →
     ∃ evs result persisted,
       SyncEngine_run w opts mode evs = RunCompletes result persisted)
  ∧ (opt_concurrency opts ≤ 0 →
     ∀ evs, SyncEngine_run w opts mode evs = RunUnfinished).
Proof.
  intros [Hauth Hdry Hcand Hthree Hdistinct Hx Hhas Hfetch Hmeta Haudio Hsums
            Hopen Hpersist Hclose].
  (* what the processor of a candidate does *)
  assert (Hproc : ∀ r s, r ∈ toProcess →
            ∃ hasAudio,
              process_recording w opts r s
              = (None,
                 markComplete (w_now_markComplete w (rec_id r) 0) (rec_id r)
                   (rec_recordedAt r) hasAudio (transcript_phase w opts r 0).1
                   (computeContentHash r) s)).
  { intros r s Hr. destruct (Haudio r Hr) as [hasAudio Ha]. exists hasAudio.
    destruct (downloadRecording_completes r 0 s hasAudio
                (Hmeta r Hr) Ha (Hsums r Hr)) as [steps Hd].
    by eapply process_recording_first_try. }
  assert (Hphase_x : (transcript_phase w opts x 0).1 = false).
  { unfold transcript_phase. by rewrite Hhas, Hfetch. }
  set (Q := λ (r : PlaudRecording) (s : SyncState),
         ∃ state, ss_recordings s !! rec_id r = Some state
                  ∧ st_hasTranscript state = (transcript_phase w opts r 0).1
                  ∧ st_contentHash state = Some (computeContentHash r)).
  assert (Hqueue : ∀ evs c succeeded failed,
            run toProcess (processor_of w opts) (opt_concurrency opts) evs
              (init toProcess (processor_of w opts) (opt_concurrency opts)
                 (load (w_stateFile w))) = Some c →
            c_returned c = Some (succeeded, failed) →
            failed = [] ∧ length succeeded = 3%nat ∧ Q x (c_store c)).
  { intros evs c succeeded failed Hrun Hret.
    assert (succeeded ++ failed.*1 ≡ₚ toProcess
            ∧ Forall (λ p : PlaudRecording * Thrown,
                        ∃ e', toError (Printable e') = inr p.2 ∧ Some e' = None) failed
            ∧ ∀ r, r ∈ toProcess → Q r (c_store c)) as (Hperm & Hfailed & HQ).
    { refine ((λ Hres, conj (proj1 (proj2 Hres))
                 (conj (proj1 (proj2 (proj2 (proj2 Hres))))
                       (proj2 (proj2 (proj2 (proj2 Hres))))))
              (engine_queue_result toProcess (λ _, True) (λ _ r, r = None) Q
                 _ evs c succeeded failed _ _ _ _ I Hrun Hret)).
      - done.
      - intros r s Hr _. destruct (Hproc r s Hr) as [a ->]. done.
      - intros r s Hr _. destruct (Hproc r s Hr) as [a ->].
        unfold Q. simpl. rewrite lookup_insert_eq. by eexists.
      - intros r r' s Hr Hr' Hne (state & Hlook & Hst).
        destruct (Hproc r' s Hr') as [a ->]. unfold Q. simpl.
        exists state. split; [|done]. rewrite lookup_insert_ne; [done|].
        intros Hid. apply Hne; [by eapply NoDup_fmap_1|].
        symmetry. by eapply (NoDup_fmap_eq rec_id). }
    assert (failed = []) as ->.
    { destruct failed as [|[r e'] failed]; [done|].
      apply Forall_cons in Hfailed as [(? & _ & [=]) _]. }
    apply Permutation_length in Hperm. simpl in Hperm.
    rewrite app_nil_r in Hperm. split; [done|]. split; [lia|by apply HQ]. }
  assert (Hfinal : ∀ succeeded s,
            length succeeded = 3%nat → Q x s →
            ∃ result st state,
              finalize w opts mode toProcess (candidates w opts mode).2 succeeded [] s
              = RunCompletes result (Some st)
              ∧ sr_attempted result = 3%nat ∧ sr_succeeded result = 3%nat
              ∧ sr_failed result = 0%nat ∧ sr_errors result = []
              ∧ ss_lastSuccessfulSyncAt st = Some (w_now_markSuccessfulSync w)
              ∧ ss_recordings st !! rec_id x = Some state
              ∧ st_hasTranscript state = false
              ∧ needsDownload st x = true
              ∧ ss_lastSuccessfulSyncAt (written st)
                = Some (w_now_markSuccessfulSync w)
              ∧ ss_recordings (written st) !! rec_id x
                = (if bool_decide (rec_id x = "__proto__") then None else Some state)
              ∧ needsDownload (load (Some (written st))) x = true).
  { intros succeeded s Hlen (state & Hlook & Htr & Hhash).
    unfold finalize. simpl. rewrite Hpersist.
    assert ((if opt_includeDataset opts then w_datasetClose w else inr ()) = inr ())
      as -> by (destruct (opt_includeDataset opts); done).
    eexists _, _, state. split; [done|].
    set (st := persist_stamp _ _).
    assert (Hlook' : ss_recordings st !! rec_id x = Some state) by done.
    assert (Hneeds : needsDownload st x = true).
    { unfold needsDownload. rewrite Hlook'.
      rewrite bool_decide_eq_false_2 by (by intros ?).
      by rewrite Htr, Hphase_x, Hhas. }
    cbn [sr_attempted sr_succeeded sr_failed sr_errors].
    split; [done|]. split; [done|]. split; [done|]. split; [done|].
    split; [done|]. split; [exact Hlook'|]. split; [congruence|].
    split; [exact Hneeds|]. split; [done|].
    split.
    - pose proof (written_lookup st (rec_id x)) as Hw.
      rewrite Hlook' in Hw. exact Hw.
    - pose proof (needsDownload_written st x) as Hn.
      rewrite Hneeds in Hn. etrans; [exact Hn|]. by case_bool_decide. }
  split; [|split].
  - intros evs.
    destruct (run toProcess (processor_of w opts) (opt_concurrency opts) evs
                (init toProcess (processor_of w opts) (opt_concurrency opts)
                   (load (w_stateFile w)))) as [c|] eqn:Hrun.
    2: { unfold SyncEngine_run. rewrite Hauth, Hdry. simpl.
         destruct (candidates w opts mode) as [tp sk]. simpl in Hcand. subst tp.
         destruct (opt_includeDataset opts); [rewrite Hopen|]; by rewrite Hrun. }
    destruct (c_returned c) as [[succeeded failed]|] eqn:Hret.
    2: { unfold SyncEngine_run. rewrite Hauth, Hdry. simpl.
         destruct (candidates w opts mode) as [tp sk]. simpl in Hcand. subst tp.
         destruct (opt_includeDataset opts); [rewrite Hopen|]; by rewrite Hrun, Hret. }
    destruct (Hqueue _ _ _ _ Hrun Hret) as (-> & Hlen & HQx).
    rewrite <- Hcand in Hrun.
    rewrite (SyncEngine_run_returned mode evs c succeeded []
               Hauth Hdry (λ _, Hopen) Hrun Hret).
    rewrite Hcand.
    destruct (Hfinal succeeded (c_store c) Hlen HQx)
      as (result & st & state & -> & ? & ? & ? & ? & ? & ? & ? & ? & ? & ? & ?).
    repeat split; try done. by exists st, state.
  - intros Hconc.
    assert (Hlater : ∀ r, settles_later (processor_of w opts r)) by done.
    destruct (run_to_return toProcess (processor_of w opts) (opt_concurrency opts)
                (S (measure toProcess
                      (init toProcess (processor_of w opts) (opt_concurrency opts)
                         (load (w_stateFile w)))))
                Hconc Hlater
                (init toProcess (processor_of w opts) (opt_concurrency opts)
                   (load (w_stateFile w)))
                (Nat.lt_succ_diag_r _)
                (init_queue_inv _ _ _ _)
                (init_wake_inv _ _ _ Hconc Hlater _))
      as (evs & c & Hrun & [[succeeded failed] Hret]).
    destruct (Hqueue _ _ _ _ Hrun Hret) as (-> & Hlen & HQx).
    rewrite <- Hcand in Hrun.
    exists evs.
    rewrite (SyncEngine_run_returned mode evs c succeeded []
               Hauth Hdry (λ _, Hopen) Hrun Hret).
    rewrite Hcand.
    destruct (Hfinal succeeded (c_store c) Hlen HQx) as (result & st & state & -> & _).
    by eexists _, _.
  - intros Hconc evs.
    assert (Hne : toProcess ≠ []) by (by destruct toProcess).
    unfold SyncEngine_run. rewrite Hauth, Hdry. simpl.
    destruct (candidates w opts mode) as [tp sk]. simpl in Hcand. subst tp.
    assert ((if opt_includeDataset opts then w_datasetOpen w else inr ()) = inr ())
      as -> by (destruct (opt_includeDataset opts); done).
    destruct (run _ _ _ _ _) as [c|] eqn:Hrun; [|done].
    by apply processQueue_starved in Hrun as [-> _].
Qed.
End EngineProps.

Lemma downloadRecording_transcript_failure_witness :
  w_getTranscript Sample.world "r2" 0 = inl (ApiError "Not Found" 404)
  ∧ ∃ tracker' state,
      downloadRecording Sample.world Sample.options (Sample.recording "r2" true) 0
        Sample.tracker
      = (inr tt, tracker',
         [DWriteMetadata; DGetTranscript; DWarnTranscript;
          DGetAudioDownloadUrl; DWriteAudioFromUrl;
          DWriteChecksums; DMarkComplete true false])
      ∧ ss_recordings tracker' !! "r2" = Some state
      ∧ st_hasTranscript state = false
      ∧ st_hasAudio state = true
      ∧ ss_recordings tracker' !! "r1" = ss_recordings Sample.tracker !! "r1"
      ∧ needsDownload tracker' (Sample.recording "r2" true) = true.
Proof.
  split; [reflexivity|].
  destruct (downloadRecording_transcript_failure Sample.world Sample.options
              (Sample.recording "r2" true) 0 Sample.tracker
              eq_refl eq_refl (or_introl (ex_intro _ _ eq_refl)))
    as (steps_b & Hb & Hd).
  change (transcript_phase Sample.world Sample.options (Sample.recording "r2" true) 0)
    with (false, [DGetTranscript] ++ [DWarnTranscript]) in Hb.
  injection Hb as Hb.
  apply (app_inj_tail [DGetTranscript] steps_b) in Hb as [<- _].
  destruct Hd as (tracker' & state & Hd & _ & Hlook & Htr & Haudio & _ & _ & _
                  & Hframe & _ & Hneeds).
  exists tracker', state.
  split; [exact Hd|]. split; [exact Hlook|]. split; [exact Htr|].
  split; [exact Haudio|]. split; [apply Hframe; discriminate|exact Hneeds].
Defined.

Lemma lastSuccessfulSyncAt_advances_only_without_failures_witness :
  ∃ result persisted,
    SyncEngine_run Sample.world_failing Sample.options Sync Sample.scenario_C_schedule
    = RunCompletes result (Some persisted)
    ∧ sr_succeeded result = 2%nat
    ∧ sr_failed result = 1%nat
    ∧ ss_lastSuccessfulSyncAt persisted
      = ss_lastSuccessfulSyncAt (load (w_stateFile Sample.world_failing))
    ∧ getSince persisted = getSince (load (w_stateFile Sample.world_failing)).
Proof.
  assert (Hrun : SyncEngine_run Sample.world_failing Sample.options Sync
                   Sample.scenario_C_schedule = Sample.failing_outcome)
    by (vm_compute; reflexivity).
  unfold Sample.failing_outcome in Hrun.
  eexists _, _. split; [exact Hrun|]. split; [reflexivity|]. split; [reflexivity|].
  apply (lastSuccessfulSyncAt_advances_only_without_failures _ _ _ _ _ _ Hrun).
  simpl. lia.
Defined.

Lemma Sample_scenario_C :
  scenario_C Sample.world Sample.options Sync Sample.listing
    (Sample.recording "r2" true) (ApiError "Not Found" 404).
Proof.
  assert (Hin : ∀ r, r ∈ Sample.listing →
            r = Sample.recording "r1" true ∨ r = Sample.recording "r2" true
            ∨ r = Sample.recording "r3" true).
  { intros r Hr. unfold Sample.listing in Hr.
    rewrite !elem_of_cons in Hr. destruct Hr as [?|[?|[?|[]%elem_of_nil]]]; auto. }
  split; try reflexivity.
  - vm_compute. repeat constructor; set_solver.
  - apply list_elem_of_further, list_elem_of_here.
  - intros r [->|[->| ->]]%Hin; by exists true.
Qed.

(** C2, as stated, fails: in scenario C the transcript of ["r2"] cannot be
    fetched (a 404, which is not retryable), yet all three items succeed,
    none fails, and [lastSuccessfulSyncAt] advances. *)
Lemma scenario_C_counterexample :
  w_getTranscript Sample.world "r2" 0 = inl (ApiError "Not Found" 404)
  ∧ isRetryableError (ApiError "Not Found" 404) = false
  ∧ w_getTranscript Sample.world "r1" 0 = inr "transcript"
  ∧ w_getTranscript Sample.world "r3" 0 = inr "transcript"
  ∧ ∃ result persisted,
      SyncEngine_run Sample.world Sample.options Sync Sample.scenario_C_schedule
      = RunCompletes result (Some persisted)
      ∧ sr_succeeded result = 3%nat
      ∧ sr_failed result = 0%nat
      ∧ ss_lastSuccessfulSyncAt (load (w_stateFile Sample.world)) = None
      ∧ ss_lastSuccessfulSyncAt persisted = Some "2026-03-01T00:00:02.000Z"
      ∧ ¬ (sr_succeeded result = 2%nat ∧ sr_failed result = 1%nat
           ∧ ss_lastSuccessfulSyncAt persisted
             = ss_lastSuccessfulSyncAt (load (w_stateFile Sample.world))).
Proof.
  split; [reflexivity|]. split; [reflexivity|].
  split; [reflexivity|]. split; [reflexivity|].
  assert (Hrun : SyncEngine_run Sample.world Sample.options Sync
                   Sample.scenario_C_schedule = Sample.scenario_C_outcome)
    by (vm_compute; reflexivity).
  unfold Sample.scenario_C_outcome in Hrun.
  eexists _, _. split; [exact Hrun|]. simpl.
  repeat split. intros (? & ? & ?). discriminate.
Qed.

Lemma Sample_scenario_C_with concurrency :
  scenario_C Sample.world (Fixture.options_with concurrency) Sync Sample.listing
    (Sample.recording "r2" true) (ApiError "Not Found" 404).
Proof.
  assert (Hin : ∀ r, r ∈ Sample.listing →
            r = Sample.recording "r1" true ∨ r = Sample.recording "r2" true
            ∨ r = Sample.recording "r3" true).
  { intros r Hr. unfold Sample.listing in Hr.
    rewrite !elem_of_cons in Hr. destruct Hr as [?|[?|[?|[]%elem_of_nil]]]; auto. }
  split; try reflexivity.
  - refine (bool_decide_unpack (NoDup ["r1"; "r2"; "r3"]) _). vm_compute. exact I.
  - apply list_elem_of_further, list_elem_of_here.
  - intros r [->|[->| ->]]%Hin; by exists true.
Qed.

Lemma scenario_C_transcript_failure_is_absorbed_witness :
  scenario_C Sample.world Sample.options Sync Sample.listing
    (Sample.recording "r2" true) (ApiError "Not Found" 404)
  ∧ (∃ result st state,
       SyncEngine_run Sample.world Sample.options Sync Sample.scenario_C_schedule
       = RunCompletes result (Some st)
       ∧ sr_succeeded result = 3%nat ∧ sr_failed result = 0%nat
       ∧ ss_lastSuccessfulSyncAt st = Some "2026-03-01T00:00:02.000Z"
       ∧ ss_recordings (written st) !! "r2" = Some state
       ∧ st_hasTranscript state = false
       ∧ needsDownload (load (Some (written st))) (Sample.recording "r2" true) = true)
  ∧ (∃ evs result persisted,
       SyncEngine_run Sample.world (Fixture.options_with 1) Sync evs
       = RunCompletes result persisted)
  ∧ ∀ evs,
      SyncEngine_run Sample.world (Fixture.options_with 0) Sync evs = RunUnfinished.
Proof.
  split; [exact Sample_scenario_C|]. split; [|split].
  - destruct (scenario_C_transcript_failure_is_absorbed _ _ _ _ _ _ Sample_scenario_C)
      as [Hall _].
    specialize (Hall Sample.scenario_C_schedule).
    assert (Hrun : SyncEngine_run Sample.world Sample.options Sync
                     Sample.scenario_C_schedule = Sample.scenario_C_outcome)
      by (vm_compute; reflexivity).
    unfold Sample.scenario_C_outcome in Hrun. rewrite Hrun in Hall.
    destruct Hall as (_ & Hsucc & Hfail & _ & st & state & [= <-] & Hsync & _ & Htr
                      & _ & _ & Hfile & Hneeds).
    eexists _, _, state. split; [exact Hrun|].
    repeat split; assumption.
  - destruct (scenario_C_transcript_failure_is_absorbed _ _ _ _ _ _
                (Sample_scenario_C_with 1)) as (_ & Hsome & _).
    apply Hsome. simpl. lia.
  - destruct (scenario_C_transcript_failure_is_absorbed _ _ _ _ _ _
                (Sample_scenario_C_with 0)) as (_ & _ & Hnone).
    apply Hnone. simpl. lia.
Defined.

(** ** More on the incremental tracker *)

Section TrackerUpdates.
Context `{Runtime}.

(** [needsDownload] reads three fields of the entry of the recording. *)
Lemma needsDownload_same_entry t t' recording :
  (st_contentHash <$> ss_recordings t' !! rec_id recording)
    = (st_contentHash <$> ss_recordings t !! rec_id recording) →
  (st_hasTranscript <$> ss_recordings t' !! rec_id recording)
    = (st_hasTranscript <$> ss_recordings t !! rec_id recording) →
  (st_downloadedAt <$> ss_recordings t' !! rec_id recording)
    = (st_downloadedAt <$> ss_recordings t !! rec_id recording) →
  needsDownload t' recording = needsDownload t recording.
Proof.
  unfold needsDownload.
  destruct (ss_recordings t' !! _) as [s'|], (ss_recordings t !! _) as [s|];
    simpl; try done.
  by intros [= ->] [= ->] [= ->].
Qed.

(** X1: once a recording has been marked complete with its own fingerprint,
    [needsDownload] asks for it again exactly when it advertises a
    transcript that was not stored; and it asks again for any later version
    of the recording whose fingerprint differs. *)
Theorem markComplete_needsDownload now recording hasAudio hasTranscript t :
  now ≠ EmptyString →
  let t' := markComplete now (rec_id recording) (rec_recordedAt recording)
              hasAudio hasTranscript (computeContentHash recording) t in
  needsDownload t' recording = rec_hasTranscript recording && negb hasTranscript
  ∧ ∀ recording',
      rec_id recording' = rec_id recording →
      computeContentHash recording' ≠ computeContentHash recording →
      needsDownload t' recording' = true.
Proof.
  intros Hnow t'. split.
  - unfold needsDownload, t', markComplete. simpl. rewrite lookup_insert_eq. simpl.
    rewrite bool_decide_eq_false_2 by (by intros ?).
    destruct now; [done|]. simpl.
    destruct hasTranscript, (rec_hasTranscript recording); done.
  - intros r' Hid Hhash. unfold needsDownload, t', markComplete. simpl.
    rewrite Hid, lookup_insert_eq. simpl.
    rewrite bool_decide_eq_true_2; [done|]. by intros [= ?].
Qed.

(** X2: marking a recording verified, recording a successful sync, stamping
    the attempt and completing another recording never change whether a
    recording needs to be downloaded; and [markVerified] on an id the tracker
    does not know changes nothing at all. *)
Theorem needsDownload_unaffected t recording :
  (∀ now id, needsDownload (markVerified now id t) recording = needsDownload t recording)
  ∧ (∀ now, needsDownload (markSuccessfulSync now t) recording = needsDownload t recording)
  ∧ (∀ now, needsDownload (persist_stamp now t) recording = needsDownload t recording)
  ∧ (∀ now id recordedAt hasAudio hasTranscript contentHash,
       id ≠ rec_id recording →
       needsDownload (markComplete now id recordedAt hasAudio hasTranscript contentHash t)
         recording = needsDownload t recording)
  ∧ (∀ now id, getRecordingState id t = None → markVerified now id t = t).
Proof.
  split; [|split; [|split; [|split]]]; try done.
  - intros now id. unfold markVerified.
    destruct (ss_recordings t !! id) as [existing|] eqn:Hid; [|done].
    apply needsDownload_same_entry; simpl;
      (destruct (decide (id = rec_id recording)) as [<-|Hne];
       [by rewrite lookup_insert_eq, Hid|by rewrite lookup_insert_ne]).
  - intros now id recordedAt a tr h Hne.
    apply needsDownload_same_entry; simpl; by rewrite lookup_insert_ne.
  - intros now id. unfold getRecordingState, markVerified. by intros ->.
Qed.
End TrackerUpdates.

Lemma markComplete_needsDownload_witness :
  needsDownload
    (markComplete "2026-03-02T00:00:00.000Z" "r7" "2026-02-24T08:30:12.000Z"
       true false (computeContentHash (Sample.recording "r7" true)) Sample.tracker)
    (Sample.recording "r7" true) = true
  ∧ needsDownload
      (markComplete "2026-03-02T00:00:00.000Z" "r7" "2026-02-24T08:30:12.000Z"
         true true (computeContentHash (Sample.recording "r7" true)) Sample.tracker)
      (Sample.recording "r7" true) = false.
Proof.
  split.
  - exact (proj1 (markComplete_needsDownload "2026-03-02T00:00:00.000Z"
                    (Sample.recording "r7" true) true false Sample.tracker
                    ltac:(discriminate))).
  - exact (proj1 (markComplete_needsDownload "2026-03-02T00:00:00.000Z"
                    (Sample.recording "r7" true) true true Sample.tracker
                    ltac:(discriminate))).
Defined.
(** ** More on the retry policy *)

Lemma retry_delay_values i :
  1 ≤ i →
  retry_delay i = if i =? 1 then 1000 else if i =? 2 then 4000 else 16000.
Proof.
  intros Hi. unfold retry_delay. rewrite (proj2 (Z.ltb_ge i 0)) by lia.
  destruct (Z.to_nat i) as [|[|[|[|n]]]] eqn:Hn; [lia|..].
  - replace i with 1 by lia. done.
  - replace i with 2 by lia. done.
  - replace i with 3 by lia. done.
  - simpl. destruct (i =? 1) eqn:?; [lia|]. destruct (i =? 2) eqn:?; [lia|]. done.
Qed.

Lemma retry_rounds_snoc from k :
  retry_rounds from (S k)
  = retry_rounds from k ++ [Invoked; Slept (retry_delay (from + Z.of_nat k))].
Proof.
  unfold retry_rounds. rewrite seq_S, flat_map_app. done.
Qed.

Section RetrySchedule.
Context {St T : Type} (fn : St → Result T * St).

Lemma retry_loop_schedule fuel m from k st log r st' log' :
  1 ≤ from →
  from + Z.of_nat k ≤ m →
  (Z.to_nat (m - (from + Z.of_nat k)) < fuel)%nat →
  retry_loop fn fuel m (from + Z.of_nat k) st (log ++ retry_rounds from k)
  = (r, st', log') →
  ∃ k' : nat,
    from + Z.of_nat k' ≤ m
    ∧ log' = log ++ retry_rounds from k' ++ [Invoked]
             ++ match r with
                | inl _ => if 1 <? from + Z.of_nat k'
                           then [Warned (from + Z.of_nat k')] else []
                | inr _ => []
                end.
Proof.
  intros Hfrom. revert k st.
  induction fuel as [|fuel IH]; intros k st Hk Hfuel; [lia|].
  simpl. rewrite (proj2 (Z.leb_le _ _) Hk).
  destruct (fn st) as [[e|v] st1].
  - destruct ((from + Z.of_nat k =? m) || negb (isRetryableError e)) eqn:Hstop.
    + intros [= <- <- <-]. exists k. split; [done|].
      by rewrite <- !app_assoc.
    + apply orb_false_iff in Hstop as [Hlast _].
      apply Z.eqb_neq in Hlast.
      replace (from + Z.of_nat k + 1) with (from + Z.of_nat (S k)) by lia.
      rewrite <- app_assoc.
      rewrite <- retry_rounds_snoc.
      apply IH; lia.
  - intros [= <- <- <-]. exists k. split; [done|].
    by rewrite <- !app_assoc.
Qed.

(** X3: a call that is allowed at least one attempt invokes the thunk, and
    between two invocations it sleeps once: 1 s after the first failure, 4 s
    after the second and 16 s after every later one.  Nothing is slept
    before the first invocation or after the last, and the warning is logged
    only when the call fails after more than one attempt. *)
Theorem retryWithBackoff_schedule maxAttempts st r st' log :
  1 ≤ default 4 maxAttempts →
  retryWithBackoff fn maxAttempts st = (r, st', log) →
  (∃ k : nat,
     Z.of_nat k < default 4 maxAttempts
     ∧ log = retry_rounds 1 k ++ [Invoked]
             ++ match r with
                | inl _ => if (0 <? k)%nat then [Warned (Z.of_nat k + 1)] else []
                | inr _ => []
                end)
  ∧ retry_rounds 1 3
    = [Invoked; Slept 1000; Invoked; Slept 4000; Invoked; Slept 16000]
  ∧ ∀ i, 3 ≤ i → retry_delay i = 16000.
Proof.
  intros Hm Hrun. split; [|split; [done|]].
  - unfold retryWithBackoff in Hrun.
    destruct (retry_loop_schedule (S (Z.to_nat (default 4 maxAttempts)))
                (default 4 maxAttempts) 1 0 st [] r st' log) as (k & Hk & ->);
      [lia|simpl; lia|lia|exact Hrun|].
    exists k. split; [lia|]. simpl.
    destruct r as [e|v]; [|done].
    replace (1 + Z.of_nat k) with (Z.of_nat k + 1) by lia.
    destruct k; [done|].
    rewrite (proj2 (Z.ltb_lt 1 _)) by lia. done.
  - intros i Hi. rewrite retry_delay_values by lia.
    destruct (i =? 1) eqn:?; [lia|]. destruct (i =? 2) eqn:?; [lia|]. done.
Qed.

(** X4: when no attempt is allowed ([maxAttempts] zero or negative) the thunk
    is never invoked, nothing is slept or logged, the state is untouched and
    the call fails with the error that follows the loop. *)
Theorem retryWithBackoff_no_attempt maxAttempts st :
  maxAttempts ≤ 0 →
  retryWithBackoff fn (Some maxAttempts) st
  = (inl (OtherError "Retry loop exhausted"), st, []).
Proof.
  intros Hm. unfold retryWithBackoff. simpl.
  by rewrite (proj2 (Z.leb_gt 1 maxAttempts)) by lia.
Qed.
End RetrySchedule.

Lemma retryWithBackoff_schedule_witness :
  ∃ k : nat,
    Z.of_nat k < 4
    ∧ (retryWithBackoff Sample.unavailable None 0%nat).2
      = retry_rounds 1 k ++ [Invoked; Warned (Z.of_nat k + 1)].
Proof.
  destruct (retryWithBackoff_schedule Sample.unavailable None 0%nat
              (inl (ApiError "3" 503)) 4%nat
              [Invoked; Slept 1000; Invoked; Slept 4000; Invoked; Slept 16000;
               Invoked; Warned 4])
    as ((k & Hk & Hlog) & _); [simpl; lia|reflexivity|].
  exists k. split; [exact Hk|].
  destruct k as [|k]; [discriminate Hlog|exact Hlog].
Defined.

Lemma retryWithBackoff_no_attempt_witness :
  retryWithBackoff Sample.flaky (Some 0) 0%nat
  = (inl (OtherError "Retry loop exhausted"), 0%nat, []).
Proof. apply (retryWithBackoff_no_attempt Sample.flaky 0 0%nat). lia. Defined.

(** ** More on the work queue *)

Section QueueErrors.
Context {T Store : Type}.
Variable items : list T.
Variable processor : T → Behaviour Store.
Variable concurrency : Z.

Implicit Types (c : Config T Store).

Lemma is_Error_toError e error : toError e = inr error → is_Error error = true.
Proof. destruct e as [[]|]; simpl; by intros [= <-]. Qed.

Lemma finish_failed_are_Errors item r c :
  failed_are_Errors c → failed_are_Errors (finish item r c).
Proof.
  unfold failed_are_Errors, finish. destruct r as [e|]; simpl; [|done].
  destruct (toError e) as [raised|error] eqn:He; [done|].
  intros Hc. apply Forall_app. split; [done|].
  apply Forall_singleton. by eapply is_Error_toError.
Qed.

Lemma tick_failed_are_Errors c :
  failed_are_Errors c → failed_are_Errors (tick items processor concurrency c).
Proof.
  unfold tick. apply tick_loop_preserves. clear c.
  intros c item Hc _ _. unfold start.
  destruct (processor item) as [e|f|f]; simpl.
  - by apply finish_failed_are_Errors.
  - by destruct (f (c_store c)).
  - done.
Qed.

Lemma step_failed_are_Errors c ev c' :
  failed_are_Errors c → step items processor concurrency c ev = Some c' →
  failed_are_Errors c'.
Proof.
  intros Hc. destruct ev as [|k]; simpl.
  - destruct (c_jobs c) as [|j q]; [done|]. intros [= <-].
    destruct j as [item r| |]; simpl.
    + by apply finish_failed_are_Errors.
    + unfold drain_check. simpl. by destruct (_ || _).
    + unfold push_job. simpl. by apply tick_failed_are_Errors.
  - destruct (c_pending c !! k) as [[item f]|]; [|done].
    destruct (f (c_store c)). by intros [= <-].
Qed.

Lemma run_failed_are_Errors evs c c' :
  failed_are_Errors c → run items processor concurrency evs c = Some c' →
  failed_are_Errors c'.
Proof.
  revert c. induction evs as [|ev evs IH]; intros c Hc; simpl.
  - by intros [= <-].
  - destruct (step items processor concurrency c ev) as [c1|] eqn:Hstep; [|done].
    apply IH. by eapply step_failed_are_Errors.
Qed.

(** X5: every failure that [processQueue] reports carries an [Error]
    object, whatever the processor threw or rejected with: a value that is
    not an [Error] has been wrapped in one (one that cannot be rendered is
    not reported at all). *)
Theorem processQueue_failed_are_Errors s evs succeeded failed :
  processQueue items processor concurrency s evs = Some (succeeded, failed) →
  Forall (λ p, is_Error p.2 = true) failed.
Proof.
  unfold processQueue.
  destruct (run _ _ _ _ _) as [c|] eqn:Hrun; [|done]. intros Hret.
  pose proof (run_queue_inv _ _ _ _ _ _ (init_queue_inv _ _ _ s) Hrun)
    as [_ _ _ _ Hphase].
  unfold phase in Hphase. rewrite Hret in Hphase. destruct Hphase as ([= _ ->] & _).
  eapply run_failed_are_Errors; [|done].
  unfold init, push_job. simpl. apply tick_failed_are_Errors. by apply Forall_nil_2.
Qed.
End QueueErrors.

Lemma processQueue_failed_are_Errors_witness :
  processQueue ["a"; "b"; "c"] Sample.mixed 2 tt Sample.schedule
  = Some (["a"], [("b", ApiError "Not Found" 404); ("c", OtherError "boom")])
  ∧ Forall (λ p : string * Thrown, is_Error p.2 = true)
      [("b", ApiError "Not Found" 404); ("c", OtherError "boom")].
Proof.
  assert (Hret : processQueue ["a"; "b"; "c"] Sample.mixed 2 tt Sample.schedule
                 = Some (["a"], [("b", ApiError "Not Found" 404);
                                 ("c", OtherError "boom")])).
  { vm_compute. reflexivity. }
  split; [exact Hret|].
  exact (processQueue_failed_are_Errors _ _ _ _ _ _ _ Hret).
Defined.

(** ** More on the atomic writer *)

(** The outcome of [writeFileAtomic] and what it leaves at every path other
    than that of the temporary file. *)
Lemma writeFileAtomic_result filePath data rand fault (fs : FS) res fs' seen :
  writeFileAtomic filePath data rand fault fs = (res, fs', seen) →
  res = match fault_cause fault with
        | None => inr tt
        | Some cause => inl (StorageError ("Failed to write " +:+ filePath) filePath cause)
        end
  ∧ fs' !! filePath = match fault_cause fault with
                      | None => Some data
                      | Some _ => fs !! filePath
                      end
  ∧ ∀ q, q ≠ filePath → q ≠ tmpPath filePath rand →
         fs' !! q = fs !! q ∧ ∀ s, s ∈ seen → s !! q = fs !! q.
Proof.
  pose proof (tmpPath_fresh filePath rand) as Hne.
  assert (Hcatch : ∀ err cleanup (fs1 : FS) seen1,
            fs1 !! filePath = fs !! filePath →
            (∀ q, q ≠ filePath → q ≠ tmpPath filePath rand →
                  fs1 !! q = fs !! q ∧ ∀ s, s ∈ seen1 → s !! q = fs !! q) →
            writeFileAtomic_catch filePath rand err cleanup fs1 seen1 = (res, fs', seen) →
            res = inl (StorageError ("Failed to write " +:+ filePath) filePath err)
            ∧ fs' !! filePath = fs !! filePath
            ∧ ∀ q, q ≠ filePath → q ≠ tmpPath filePath rand →
                   fs' !! q = fs !! q ∧ ∀ s, s ∈ seen → s !! q = fs !! q).
  { intros err cleanup fs1 seen1 Hdest Hframe Hrun.
    unfold writeFileAtomic_catch, unlink in Hrun.
    assert (Hkept : res = inl (StorageError ("Failed to write " +:+ filePath) filePath err)
                    ∧ seen = seen1 ++ [fs']
                    ∧ (fs' = fs1 ∨ fs' = delete (tmpPath filePath rand) fs1)).
    { destruct (fs1 !! tmpPath filePath rand) as [old|];
        [destruct cleanup|]; injection Hrun as <- <- <-; auto. }
    destruct Hkept as (-> & -> & Hfs').
    assert (Hsame : ∀ q, q ≠ tmpPath filePath rand → fs' !! q = fs1 !! q).
    { intros q Hq. destruct Hfs' as [-> | ->]; [done|by rewrite lookup_delete_ne]. }
    split; [done|]. split; [by rewrite Hsame|].
    intros q Hq1 Hq2. destruct (Hframe q Hq1 Hq2) as [Hfs1 Hseen1].
    rewrite Hsame by done. split; [done|].
    intros s [Hs| ->%list_elem_of_singleton]%elem_of_app; [by apply Hseen1|].
    by rewrite Hsame. }
  intros Hrun. unfold writeFileAtomic in Hrun.
  rewrite <- (fault_cause_try fault).
  destruct (try_fault fault) as [|e|e written|e|e f'] eqn:Htry; cbn [fault_cause].
  - unfold rename in Hrun. rewrite lookup_insert_eq in Hrun.
    injection Hrun as <- <- <-.
    split; [done|]. split; [by rewrite lookup_insert_eq|].
    intros q Hq1 Hq2.
    assert (Hlast : (<[filePath:=data]> (delete (tmpPath filePath rand)
                       (<[tmpPath filePath rand:=data]> fs)) : FS) !! q = fs !! q).
    { by rewrite lookup_insert_ne, lookup_delete_ne, lookup_insert_ne. }
    split; [done|].
    intros s [-> |[Hs| ->%list_elem_of_singleton]%elem_of_app]%elem_of_cons;
      [done|by eapply writing_lookup|done].
  - eapply Hcatch; [| |exact Hrun]; [done|].
    intros q _ _. split; [done|]. by intros s ->%list_elem_of_singleton.
  - eapply Hcatch; [| |exact Hrun].
    + destruct written; [by rewrite lookup_insert_ne|done].
    + intros q Hq1 Hq2.
      assert ((match written with
               | Some part => <[tmpPath filePath rand:=part]> fs
               | None => fs
               end : FS) !! q = fs !! q) as Hw.
      { destruct written; [by rewrite lookup_insert_ne|done]. }
      split; [done|].
      intros s [-> |[-> |[]%elem_of_nil]%elem_of_cons]%elem_of_cons; done.
  - eapply Hcatch; [| |exact Hrun].
    + by rewrite lookup_insert_ne.
    + intros q Hq1 Hq2. split; [by rewrite lookup_insert_ne|].
      intros s [-> |Hs]%elem_of_cons; [done|by eapply writing_lookup].
  - by apply try_fault_plain in Htry.
Qed.

(** X6: [writeFileAtomic] touches two paths only, the destination and its
    temporary sibling: every other file is the same in every state the file
    system goes through and in the final one, whether the write succeeds or
    fails. *)
Theorem writeFileAtomic_frame filePath data rand fault (fs : FS) q :
  q ≠ filePath → q ≠ tmpPath filePath rand →
  (writeFileAtomic filePath data rand fault fs).1.2 !! q = fs !! q
  ∧ ∀ s, s ∈ (writeFileAtomic filePath data rand fault fs).2 → s !! q = fs !! q.
Proof.
  intros Hq1 Hq2.
  destruct (writeFileAtomic filePath data rand fault fs) as [[res fs'] seen] eqn:Hrun.
  apply writeFileAtomic_result in Hrun as (_ & _ & Hframe).
  by apply Hframe.
Qed.

Lemma writeFileAtomic_frame_witness :
  (writeFileAtomic "rec/meta.json" "{}" "9f3a" (RenameFails (OtherError "EXDEV"))
     ({[ "rec/audio.m4a" := "audio" ]} : FS)).1.2 !! "rec/audio.m4a"
  = Some "audio".
Proof.
  destruct (writeFileAtomic_frame "rec/meta.json" "{}" "9f3a"
              (RenameFails (OtherError "EXDEV"))
              ({[ "rec/audio.m4a" := "audio" ]} : FS) "rec/audio.m4a")
    as [Hfinal _]; [discriminate|discriminate|].
  rewrite Hfinal. reflexivity.
Defined.

(** ** The state file *)

Section StateFileProps.
Context `{Runtime}.
Variable SyncState_to_json : SyncState → string.
Variable SyncState_of_json : string → option SyncState.

(** X7: [persist] stamps the attempt on the tracker in memory in any case.
    When the write goes through and the text written parses back to the
    state, the next [load] starts from exactly that state; when the write
    fails, the call throws a [StorageError] (exit code 3) and the next [load]
    starts from what it would have started from before. *)
Theorem persist_then_load now rand fault outDir t (fs : FS) :
  SyncState_of_json (SyncState_to_json (persist_stamp now t))
  = Some (persist_stamp now t) →
  ∃ r fs',
    persist SyncState_to_json now rand fault outDir t fs
    = (r, persist_stamp now t, fs')
    ∧ match fault_cause fault with
      | None =>
          r = inr tt
          ∧ load_file SyncState_of_json outDir fs' = persist_stamp now t
      | Some cause =>
          (∃ e, r = inl e ∧ toExitCode e = ExitCode.StorageError)
          ∧ load_file SyncState_of_json outDir fs'
            = load_file SyncState_of_json outDir fs
      end.
Proof.
  intros Hround. unfold persist.
  destruct (writeFileAtomic _ _ _ _ _) as [[r fs'] seen] eqn:Hrun.
  exists r, fs'. split; [done|].
  apply writeFileAtomic_result in Hrun as (-> & Hdest & _).
  unfold load_file, readFile. rewrite Hdest.
  destruct (fault_cause fault) as [cause|].
  - split; [by eexists|]. by destruct (fs !! syncStatePath outDir).
  - split; [done|]. simpl. by rewrite Hround.
Qed.
End StateFileProps.

Lemma persist_then_load_witness :
  ∃ fs',
    persist (H := Sample.runtime) Fixture.SyncState_to_json
      "2026-03-02T00:00:00.000Z" "9f3a" NoFault "/data/plaud" Sample.tracker ∅
    = (inr tt, Fixture.stamped, fs')
    ∧ load_file (H := Sample.runtime) Fixture.SyncState_of_json "/data/plaud" fs'
      = Fixture.stamped.
Proof.
  destruct (persist_then_load (H := Sample.runtime)
              Fixture.SyncState_to_json Fixture.SyncState_of_json
              "2026-03-02T00:00:00.000Z" "9f3a" NoFault "/data/plaud"
              Sample.tracker ∅ eq_refl) as (r & fs' & Hrun & -> & Hload).
  exists fs'. split; [exact Hrun|exact Hload].
Defined.

(** ** Paths *)

Lemma digits_length n s : digits n s = true → String.length s = n.
Proof.
  revert s. induction n as [|n IH]; intros [|c s]; simpl; try done.
  intros [_ Hs]%andb_true_iff. by rewrite (IH s).
Qed.

Lemma str_app_cons x (a b : string) : String x a +:+ b = String x (a +:+ b).
Proof. done. Qed.

Lemma str_app_nil (b : string) : EmptyString +:+ b = b.
Proof. done. Qed.

Lemma str_app_assoc (a b c : string) : (a +:+ b) +:+ c = a +:+ (b +:+ c).
Proof.
  induction a as [|x a IH]; [done|]. rewrite !str_app_cons. by rewrite IH.
Qed.

Lemma is_digit_plain c :
  is_digit c = true →
  Ascii.eqb c "-" = false ∧ Ascii.eqb c ":" = false ∧ Ascii.eqb c "." = false
  ∧ Ascii.eqb c "T" = false.
Proof.
  unfold is_digit. intros [H1 H2]%andb_true_iff.
  apply N.leb_le in H1, H2.
  repeat split; apply Ascii.eqb_neq; intros ->; simpl in *; lia.
Qed.

Lemma remove_dashes_colons_digits n d rest :
  digits n d = true →
  remove_dashes_colons (d +:+ rest) = d +:+ remove_dashes_colons rest.
Proof.
  revert d. induction n as [|n IH]; intros [|c d]; simpl; try done.
  intros [Hc Hd]%andb_true_iff. rewrite str_app_cons. simpl.
  destruct (is_digit_plain c Hc) as (-> & -> & _). simpl. by rewrite IH.
Qed.

Lemma remove_millis_digits n d rest :
  digits n d = true →
  remove_millis (d +:+ rest) = d +:+ remove_millis rest.
Proof.
  revert d. induction n as [|n IH]; intros [|c d]; simpl; try done.
  intros [Hc Hd]%andb_true_iff. rewrite str_app_cons. simpl.
  destruct (is_digit_plain c Hc) as (_ & _ & -> & _). by rewrite IH.
Qed.

Lemma replace_first_same c s : replace_first c (String c EmptyString) s = s.
Proof.
  induction s as [|x s IH]; simpl; [done|].
  destruct (Ascii.eqb x c) eqn:Hx; [by apply Ascii.eqb_eq in Hx as ->|].
  by rewrite IH.
Qed.

Lemma str_take_all s : str_take (String.length s) s = s.
Proof. induction s as [|c s IH]; simpl; [done|]. by rewrite IH. Qed.

(** X8: on the rendering that [toISOString] gives for a year of four digits,
    [formatISOCompact] drops the dashes, the colons and the milliseconds and
    keeps the [T]; the sixteen characters it then keeps already end with the
    [Z] of the rendering, so the result ends with two: [YYYYMMDDTHHMMSSZZ]. *)
Theorem formatISOCompact_shape (dt : UTCDate) (Y M D h m s f : string) :
  digits 4 Y = true → digits 2 M = true → digits 2 D = true →
  digits 2 h = true → digits 2 m = true → digits 2 s = true →
  digits 3 f = true →
  toISOString dt
  = Y +:+ "-" +:+ M +:+ "-" +:+ D +:+ "T" +:+ h +:+ ":" +:+ m +:+ ":" +:+ s
    +:+ "." +:+ f +:+ "Z" →
  formatISOCompact dt = Y +:+ M +:+ D +:+ "T" +:+ h +:+ m +:+ s +:+ "ZZ".
Proof.
  intros HY HM HD Hh Hm Hs Hf Hiso. unfold formatISOCompact. rewrite Hiso.
  rewrite replace_first_same. remember 16%nat as k eqn:Hk.
  destruct f as [|f1 [|f2 [|f3 [|f4 f]]]]; simpl in Hf;
    rewrite ?andb_false_r in Hf; try done.
  apply andb_true_iff in Hf as [Hf1 Hf].
  apply andb_true_iff in Hf as [Hf2 Hf]. apply andb_true_iff in Hf as [Hf3 _].
  destruct (is_digit_plain f1 Hf1) as (Hf1a & Hf1b & _).
  destruct (is_digit_plain f2 Hf2) as (Hf2a & Hf2b & _).
  destruct (is_digit_plain f3 Hf3) as (Hf3a & Hf3b & _).
  rewrite (remove_dashes_colons_digits 4 Y) by done.
  rewrite ?str_app_cons, ?str_app_nil. simpl remove_dashes_colons.
  rewrite (remove_dashes_colons_digits 2 M) by done.
  rewrite ?str_app_cons, ?str_app_nil. simpl remove_dashes_colons.
  rewrite (remove_dashes_colons_digits 2 D) by done.
  rewrite ?str_app_cons, ?str_app_nil. simpl remove_dashes_colons.
  rewrite (remove_dashes_colons_digits 2 h) by done.
  rewrite ?str_app_cons, ?str_app_nil. simpl remove_dashes_colons.
  rewrite (remove_dashes_colons_digits 2 m) by done.
  rewrite ?str_app_cons, ?str_app_nil. simpl remove_dashes_colons.
  rewrite (remove_dashes_colons_digits 2 s) by done.
  rewrite ?str_app_cons, ?str_app_nil. simpl remove_dashes_colons.
  rewrite Hf1a, Hf1b, Hf2a, Hf2b, Hf3a, Hf3b. simpl.
  rewrite (remove_millis_digits 4 Y), (remove_millis_digits 2 M),
    (remove_millis_digits 2 D) by done.
  simpl remove_millis.
  rewrite (remove_millis_digits 2 h), (remove_millis_digits 2 m),
    (remove_millis_digits 2 s) by done.
  simpl remove_millis. rewrite Hf1, Hf2, Hf3. simpl.
  replace (Y +:+ M +:+ D +:+ String "T" (h +:+ m +:+ s +:+ "ZZ"))
    with ((Y +:+ M +:+ D +:+ String "T" (h +:+ m +:+ s +:+ "Z")) +:+ "Z").
  2: { by rewrite !str_app_assoc, !str_app_cons, !str_app_assoc. }
  f_equal. subst k.
  replace 16%nat
    with (String.length (Y +:+ M +:+ D +:+ String "T" (h +:+ m +:+ s +:+ "Z"))).
  { apply str_take_all. }
  rewrite !str_length_app. simpl. rewrite !str_length_app.
  rewrite (digits_length 4 Y), (digits_length 2 M), (digits_length 2 D),
    (digits_length 2 h), (digits_length 2 m), (digits_length 2 s) by done.
  done.
Qed.

Lemma formatISOCompact_shape_witness :
  formatISOCompact
    {| getUTCFullYear := 2026; getUTCMonth := 1;
       toISOString := "2026-02-24T08:30:12.000Z" |}
  = "20260224T083012ZZ".
Proof.
  apply (formatISOCompact_shape
           {| getUTCFullYear := 2026; getUTCMonth := 1;
              toISOString := "2026-02-24T08:30:12.000Z" |}
           "2026" "02" "24" "08" "30" "12" "000"); reflexivity.
Defined.

(** ** Audio files *)

(** X9: whatever the extension of the remote file name is, the audio of a
    recording listed by the client is stored as [audio.ogg] when the
    extension is [ogg] or [opus] and as [audio.m4a] otherwise, [mp3]
    included: the media type derived for it, [audio/mpeg], matches none of
    the patterns of [guessAudioExtension]. *)
Theorem guessAudioExtension_of_ext (ext : string) :
  guessAudioExtension (mimeType_of_ext ext)
  = (if String.eqb ext "ogg" || String.eqb ext "opus" then "ogg" else "m4a")
  ∧ guessAudioExtension (mimeType_of_ext "mp3") = "m4a".
Proof.
  split; [|done]. unfold mimeType_of_ext.
  destruct (String.eqb ext "ogg") eqn:Hogg; [done|].
  destruct (String.eqb ext "m4a") eqn:Hm4a.
  { apply String.eqb_eq in Hm4a as ->. done. }
  destruct (String.eqb ext "mp3") eqn:Hmp3.
  { apply String.eqb_eq in Hmp3 as ->. done. }
  by destruct (String.eqb ext "opus").
Qed.

(** ** Command-line options *)

Lemma split_cons sep s : ∃ piece rest, split sep s = piece :: rest.
Proof.
  induction s as [|c s (piece & rest & IH)]; simpl; [by eexists _, _|].
  destruct (Ascii.eqb c sep); [by eexists _, _|]. rewrite IH. by eexists _, _.
Qed.

(** Splitting a text that has a separator after a piece free of it. *)
Lemma split_app sep piece s :
  (∀ c, c ∈ list_ascii_of_string piece → Ascii.eqb c sep = false) →
  split sep (piece +:+ String sep s) = piece :: split sep s.
Proof.
  induction piece as [|c piece IH]; intros Hfree.
  - rewrite str_app_nil. simpl. by rewrite Ascii.eqb_refl.
  - rewrite str_app_cons. simpl. rewrite (Hfree c) by (simpl; left).
    rewrite IH; [done|]. intros c' Hc'. apply Hfree. simpl. by right.
Qed.

Lemma split_free sep piece :
  (∀ c, c ∈ list_ascii_of_string piece → Ascii.eqb c sep = false) →
  split sep piece = [piece].
Proof.
  induction piece as [|c piece IH]; intros Hfree; [done|].
  simpl. rewrite (Hfree c) by (simpl; left).
  rewrite IH; [done|]. intros c' Hc'. apply Hfree. simpl. by right.
Qed.

Lemma TranscriptFormat_to_string_free f c :
  c ∈ list_ascii_of_string (TranscriptFormat_to_string f) → Ascii.eqb c "," = false.
Proof.
  destruct f; simpl; rewrite ?elem_of_cons, elem_of_nil; intros H;
    repeat destruct H as [->|H]; done.
Qed.

Lemma TranscriptFormat_of_to_string f :
  TranscriptFormat_of_string (TranscriptFormat_to_string f) = Some f.
Proof. by destruct f. Qed.

(** X10: [parseFormats] reads back any list of formats from its
    comma-separated spelling, order and repetitions included; the empty text
    gives no format, and a piece that is not exactly [json], [txt] or [md]
    (a misspelling, a padded name) is dropped without an error. *)
Theorem parseFormats_round_trip (formats : list TranscriptFormat) :
  parseFormats (str_join "," (TranscriptFormat_to_string <$> formats)) = formats
  ∧ parseFormats "json,txt,md" = [Json; Txt; Md]
  ∧ parseFormats "" = []
  ∧ parseFormats "json, txt,mp3" = [Json].
Proof.
  split; [|done]. unfold parseFormats.
  induction formats as [|f formats IH]; [done|].
  destruct formats as [|g formats].
  - simpl. rewrite split_free by apply TranscriptFormat_to_string_free.
    simpl. by rewrite TranscriptFormat_of_to_string.
  - change (str_join "," (TranscriptFormat_to_string <$> f :: g :: formats))
      with (TranscriptFormat_to_string f
            +:+ String "," (str_join "," (TranscriptFormat_to_string <$> g :: formats))).
    rewrite split_app by apply TranscriptFormat_to_string_free.
    cbn [omap list_omap]. rewrite TranscriptFormat_of_to_string.
    simpl. f_equal. exact IH.
Qed.

(** ** More on the sync orchestrator *)

Section CollectProps.
Context `{Runtime}.
Variable opts : SyncOptions.

Lemma collect_spec mode tracker listing toProcess skipped toProcess' skipped' :
  collect opts mode tracker listing toProcess skipped = (toProcess', skipped') →
  ∃ k, (k ≤ length listing)%nat
       ∧ toProcess'
         = toProcess ++ filter (λ r, wanted mode tracker r = true) (take k listing)
       ∧ skipped'
         = skipped ++ filter (λ r, wanted mode tracker r = false) (take k listing)
       ∧ ((k < length listing)%nat → limit_reached opts (length toProcess') = true)
       ∧ (∀ L, opt_limit opts = Some L → 1 ≤ L →
               Z.of_nat (length toProcess) < L → Z.of_nat (length toProcess') ≤ L).
Proof.
  revert toProcess skipped.
  induction listing as [|r rest IH]; intros tp sk; simpl.
  - intros [= <- <-]. exists 0%nat. rewrite !app_nil_r.
    repeat split; [lia|lia|]. intros; lia.
  - assert (Hstep : ∃ tp1 sk1,
              (if match mode with
                  | Sync => negb (needsDownload tracker r)
                  | Backfill => false
                  end
               then (tp, sk ++ [r]) else (tp ++ [r], sk)) = (tp1, sk1)
              ∧ tp1 = tp ++ filter (λ r, wanted mode tracker r = true) [r]
              ∧ sk1 = sk ++ filter (λ r, wanted mode tracker r = false) [r]
              ∧ (length tp1 ≤ S (length tp))%nat).
    { unfold wanted. rewrite !filter_cons, !filter_nil.
      destruct mode; [destruct (needsDownload tracker r)|]; simpl;
        eexists _, _; (split; [done|]);
        rewrite ?decide_True, ?decide_False by done;
        rewrite ?app_nil_r, ?length_app; simpl; repeat split; lia. }
    destruct Hstep as (tp1 & sk1 & -> & Htp1 & Hsk1 & Hlen1).
    destruct (limit_reached opts (length tp1)) eqn:Hlimit.
    + intros [= <- <-]. exists 1%nat.
      change (take 1 (r :: rest)) with [r]. simpl length.
      split; [lia|]. split; [done|]. split; [done|]. split; [done|].
      intros L HL H1 Hlt. lia.
    + intros Hrec. destruct (IH _ _ Hrec) as (k & Hk & -> & -> & Hmore & Hbound).
      assert (Hhead :
        tp1 ++ filter (λ r, wanted mode tracker r = true) (take k rest)
        = tp ++ filter (λ r, wanted mode tracker r = true) (take (S k) (r :: rest))
        ∧ sk1 ++ filter (λ r, wanted mode tracker r = false) (take k rest)
          = sk ++ filter (λ r, wanted mode tracker r = false) (take (S k) (r :: rest))).
      { rewrite Htp1, Hsk1. simpl take. rewrite !filter_cons, !filter_nil, <- !app_assoc.
        destruct (wanted mode tracker r) eqn:Hw;
          rewrite ?decide_True, ?decide_False by done; done. }
      destruct Hhead as [Htp Hsk]. exists (S k). simpl length.
      split; [lia|]. split; [done|]. split; [done|]. split.
      * intros Hlt. apply Hmore. lia.
      * intros L HL H1 Hlt. apply (Hbound L HL H1).
        unfold limit_reached in Hlimit. rewrite HL in Hlimit.
        rewrite (proj2 (Z.eqb_neq L 0)) in Hlimit by lia. simpl in Hlimit.
        by apply Z.leb_gt in Hlimit.
Qed.

(** X11: the collecting loop examines a prefix of the listing and splits it,
    in order: the recordings to process are those of the prefix that need a
    download (all of them in a backfill), the skipped ones are the others.
    Without a limit, or with limit [0], the prefix is the whole listing; with
    a limit of at least one, no more than that many recordings are kept, and
    the loop stops early only when exactly that many have been kept. *)
Theorem collect_partition mode tracker listing toProcess skipped :
  collect opts mode tracker listing [] [] = (toProcess, skipped) →
  ∃ k, (k ≤ length listing)%nat
       ∧ toProcess = filter (λ r, wanted mode tracker r = true) (take k listing)
       ∧ skipped = filter (λ r, wanted mode tracker r = false) (take k listing)
       ∧ (mode = Backfill → skipped = [])
       ∧ match opt_limit opts with
         | None => k = length listing
         | Some L =>
             (L = 0 → k = length listing)
             ∧ (1 ≤ L →
                Z.of_nat (length toProcess) ≤ L
                ∧ ((k < length listing)%nat → Z.of_nat (length toProcess) = L))
         end.
Proof.
  intros Hrun.
  destruct (collect_spec _ _ _ _ _ _ _ Hrun) as (k & Hk & Htp & Hsk & Hmore & Hbound).
  simpl in Htp, Hsk. exists k. split; [done|]. split; [done|]. split; [done|].
  split.
  { intros ->. rewrite Hsk. clear. induction (take k listing) as [|r l IH]; [done|].
    rewrite filter_cons. by rewrite decide_False. }
  unfold limit_reached in Hmore.
  destruct (opt_limit opts) as [L|] eqn:HL.
  - split.
    + intros ->. simpl in Hmore. destruct (decide (k < length listing)%nat) as [Hlt|]; [|lia].
      by specialize (Hmore Hlt).
    + intros H1. specialize (Hbound L eq_refl H1 ltac:(simpl; lia)).
      split; [done|]. intros Hlt. specialize (Hmore Hlt).
      apply andb_true_iff in Hmore as [_ Hle%Z.leb_le]. lia.
  - destruct (decide (k < length listing)%nat) as [Hlt|]; [|lia].
    by specialize (Hmore Hlt).
Qed.
End CollectProps.

Lemma collect_partition_witness :
  collect Fixture.options_limited Sync Sample.tracker Sample.listing [] []
  = ([Sample.recording "r2" true], [Sample.recording "r1" true])
  ∧ ∃ k, (k < length Sample.listing)%nat
         ∧ [Sample.recording "r2" true]
           = filter (λ r, wanted Sync Sample.tracker r = true) (take k Sample.listing).
Proof.
  assert (Hrun : collect Fixture.options_limited Sync Sample.tracker Sample.listing [] []
                 = ([Sample.recording "r2" true], [Sample.recording "r1" true])).
  { vm_compute. reflexivity. }
  split; [exact Hrun|].
  destruct (collect_partition Fixture.options_limited Sync Sample.tracker
              Sample.listing _ _ Hrun) as (k & Hk & Htp & _ & _ & _ & Hlimit).
  exists k. split; [|exact Htp].
  destruct (decide (k < length Sample.listing)%nat) as [Hlt|Hge]; [exact Hlt|].
  exfalso. assert (k = 3%nat) as -> by (simpl in *; lia).
  vm_compute in Htp. discriminate Htp.
Defined.

Section RunProps.
Context `{Runtime}.
Variable w : World.
Variable opts : SyncOptions.

(** What a run that completes went through. *)
Lemma SyncEngine_run_completes mode evs result persisted :
  SyncEngine_run w opts mode evs = RunCompletes result persisted →
  (opt_dryRun opts = true
   ∧ result = {| sr_mode := mode; sr_attempted := 0; sr_succeeded := 0;
                 sr_failed := 0; sr_skipped := length (candidates w opts mode).2;
                 sr_errors := [] |}
   ∧ persisted = None)
  ∨ (opt_dryRun opts = false
     ∧ ∃ c succeeded failed,
         run (candidates w opts mode).1 (processor_of w opts) (opt_concurrency opts) evs
           (init (candidates w opts mode).1 (processor_of w opts)
              (opt_concurrency opts) (load (w_stateFile w))) = Some c
         ∧ c_returned c = Some (succeeded, failed)
         ∧ finalize w opts mode (candidates w opts mode).1 (candidates w opts mode).2
             succeeded failed (c_store c) = RunCompletes result persisted).
Proof.
  unfold SyncEngine_run.
  destruct (w_isAuthenticated w); simpl; [|done].
  destruct (candidates w opts mode) as [toProcess skipped]. simpl.
  destruct (opt_dryRun opts).
  { intros [= <- <-]. by left. }
  destruct (if opt_includeDataset opts then w_datasetOpen w else inr ()); [done|].
  destruct (run _ _ _ _ _) as [c|] eqn:Hrun; [|done].
  destruct (c_returned c) as [[succeeded failed]|] eqn:Hret; [|done].
  intros Hfin. right. split; [done|]. by exists c, succeeded, failed.
Qed.

(** X12: the summary of a run that completes adds up.  In a dry run nothing
    is attempted and no state is written.  Otherwise every recording handed
    to the queue is counted once, as succeeded or as failed; there is one
    error entry per failure, it names a recording that was attempted and it
    carries an [Error]; the skipped count is that of the collecting loop;
    and the state file has been written. *)
Theorem SyncEngine_run_accounting mode evs result persisted :
  SyncEngine_run w opts mode evs = RunCompletes result persisted →
  sr_mode result = mode
  ∧ sr_skipped result = length (candidates w opts mode).2
  ∧ (sr_succeeded result + sr_failed result = sr_attempted result)%nat
  ∧ length (sr_errors result) = sr_failed result
  ∧ Forall (λ p, p.1 ∈ rec_id <$> (candidates w opts mode).1 ∧ is_Error p.2 = true)
      (sr_errors result)
  ∧ if opt_dryRun opts
    then sr_attempted result = 0%nat ∧ persisted = None
    else sr_attempted result = length (candidates w opts mode).1
         ∧ is_Some persisted.
Proof.
  intros [(Hdry & -> & ->)|(Hdry & c & succeeded & failed & Hrun & Hret & Hfin)]%SyncEngine_run_completes;
    rewrite Hdry.
  { simpl. repeat split; done. }
  destruct (processQueue_safety _ _ _ _ _ _ Hrun) as (_ & _ & Hsafe).
  destruct (Hsafe _ _ Hret) as (_ & Hperm & Hlen).
  rewrite (processQueue_keeps_all _ _ _ (processor_of_printable w opts) _ _ _ Hrun)
    in Hperm, Hlen.
  simpl in Hperm, Hlen. rewrite app_nil_r in Hperm. rewrite Nat.add_0_r in Hlen.
  assert (Herrs : Forall (λ p : PlaudRecording * Thrown, is_Error p.2 = true) failed).
  { pose proof (run_queue_inv _ _ _ _ _ _ (init_queue_inv _ _ _ _) Hrun)
      as [_ _ _ _ Hphase].
    unfold phase in Hphase. rewrite Hret in Hphase. destruct Hphase as ([= _ ->] & _).
    eapply run_failed_are_Errors; [|exact Hrun].
    unfold init, push_job. simpl. apply tick_failed_are_Errors. by apply Forall_nil_2. }
  unfold finalize in Hfin. destruct (w_persist w); [done|].
  destruct (if opt_includeDataset opts then w_datasetClose w else inr ()); [done|].
  injection Hfin as <- <-. simpl. rewrite length_fmap.
  split; [done|]. split; [done|]. split; [done|]. split; [done|].
  split; [|by split].
  apply Forall_fmap. apply Forall_forall. intros [r e] Hin. simpl. split.
  - apply list_elem_of_fmap. exists r. split; [done|].
    rewrite <- Hperm. apply elem_of_app. right.
    apply list_elem_of_fmap. by exists (r, e).
  - by apply (proj1 (Forall_forall _ _) Herrs (r, e)).
Qed.
End RunProps.

Lemma SyncEngine_run_accounting_witness :
  ∃ result persisted,
    SyncEngine_run Sample.world_failing Sample.options Sync Sample.scenario_C_schedule
    = RunCompletes result persisted
    ∧ sr_attempted result = 3%nat
    ∧ (sr_succeeded result + sr_failed result = 3)%nat
    ∧ sr_failed result = 1%nat.
Proof.
  destruct Sample.failing_outcome as [| |result persisted] eqn:Hout;
    try discriminate Hout.
  assert (Hrun : SyncEngine_run Sample.world_failing Sample.options Sync
                   Sample.scenario_C_schedule = RunCompletes result persisted).
  { rewrite <- Hout. vm_compute. reflexivity. }
  exists result, persisted. split; [exact Hrun|].
  destruct (SyncEngine_run_accounting Sample.world_failing Sample.options Sync
              Sample.scenario_C_schedule result persisted Hrun)
    as (_ & _ & Hsum & _ & _ & Hattempted).
  simpl in Hattempted. destruct Hattempted as [Hattempted _].
  assert (Ha : sr_attempted result = 3%nat).
  { rewrite Hattempted. vm_compute. reflexivity. }
  split; [exact Ha|]. split; [lia|].
  injection Hout as <- _. reflexivity.
Defined.

Section TrackerAfterRun.
Context `{Runtime}.
Variable w : World.
Variable opts : SyncOptions.

(** One attempt either fails and leaves the tracker alone, or succeeds and
    marks the recording complete; which of the two, and with what flags, does
    not depend on the tracker. *)
Lemma downloadRecording_cases recording attempt :
  (∃ e, ∀ tracker, ∃ steps,
     downloadRecording w opts recording attempt tracker = (inl e, tracker, steps))
  ∨ (∃ hasAudio hasTranscript, ∀ tracker, ∃ steps,
       downloadRecording w opts recording attempt tracker
       = (inr tt,
          markComplete (w_now_markComplete w (rec_id recording) attempt)
            (rec_id recording) (rec_recordedAt recording) hasAudio hasTranscript
            (computeContentHash recording) tracker,
          steps)).
Proof.
  unfold downloadRecording.
  destruct (w_writeMetadata w _ _) as [e|[]]; [left; exists e; by eexists|].
  destruct (transcript_phase w opts recording attempt) as [hasTranscript steps_b].
  destruct (audio_phase w recording attempt) as [[e|hasAudio] steps_c];
    [left; exists e; by eexists|].
  destruct (w_writeChecksums w _ _) as [e|[]]; [left; exists e; by eexists|].
  right. exists hasAudio, hasTranscript. by eexists.
Qed.

Lemma retry_download_cases recording fuel m attempt n log :
  (∃ e n' log', ∀ tracker,
     retry_loop (download_thunk w opts recording) fuel m attempt (n, tracker) log
     = (inl e, (n', tracker), log'))
  ∨ (∃ k hasAudio hasTranscript n' log', ∀ tracker,
       retry_loop (download_thunk w opts recording) fuel m attempt (n, tracker) log
       = (inr tt,
          (n', markComplete (w_now_markComplete w (rec_id recording) k)
                 (rec_id recording) (rec_recordedAt recording) hasAudio hasTranscript
                 (computeContentHash recording) tracker),
          log')).
Proof.
  revert attempt n log. induction fuel as [|fuel IH]; intros attempt n log.
  { left. by eexists _, _, _. }
  simpl. destruct (attempt <=? m); [|left; by eexists _, _, _].
  unfold download_thunk at 1 3. simpl.
  destruct (downloadRecording_cases recording n) as [[e He]|(a & h & Hok)].
  - destruct ((attempt =? m) || negb (isRetryableError e)) eqn:Hstop.
    + left. eexists e, _, _. intros tracker.
      destruct (He tracker) as [steps ->]. by rewrite Hstop.
    + destruct (IH (attempt + 1) (S n) (log ++ [Invoked; Slept (retry_delay attempt)]))
        as [(e' & n' & log' & Hfail)|(k & a & h & n' & log' & Hsucc)].
      * left. exists e', n', log'. intros tracker.
        destruct (He tracker) as [steps ->]. rewrite Hstop. apply Hfail.
      * right. exists k, a, h, n', log'. intros tracker.
        destruct (He tracker) as [steps ->]. rewrite Hstop. apply Hsucc.
  - right. eexists n, a, h, _, _. intros tracker.
    destruct (Hok tracker) as [steps ->]. done.
Qed.

Lemma process_recording_spec recording tracker :
  match outcome w opts recording with
  | Some e => process_recording w opts recording tracker = (Some e, tracker)
  | None =>
      ∃ k hasAudio hasTranscript,
        process_recording w opts recording tracker
        = (None,
           markComplete (w_now_markComplete w (rec_id recording) k)
             (rec_id recording) (rec_recordedAt recording) hasAudio hasTranscript
             (computeContentHash recording) tracker)
  end.
Proof.
  unfold outcome, process_recording, retryWithBackoff.
  destruct (retry_download_cases recording (S (Z.to_nat (default 4 None)))
              (default 4 None) 1 0 [])
    as [(e & n' & log' & Hfail)|(k & a & h & n' & log' & Hsucc)].
  - rewrite (Hfail tracker_empty), (Hfail tracker). done.
  - rewrite (Hsucc tracker_empty), (Hsucc tracker). simpl. by exists k, a, h.
Qed.

Lemma entry_written_markComplete recording k hasAudio hasTranscript tracker :
  entry_written w recording
    (markComplete (w_now_markComplete w (rec_id recording) k)
       (rec_id recording) (rec_recordedAt recording) hasAudio hasTranscript
       (computeContentHash recording) tracker).
Proof.
  unfold entry_written. simpl. rewrite lookup_insert_eq. by eexists _, k.
Qed.

Lemma entry_written_frame recording tracker tracker' :
  ss_recordings tracker' !! rec_id recording
  = ss_recordings tracker !! rec_id recording →
  entry_written w recording tracker → entry_written w recording tracker'.
Proof.
  intros Heq (state & k & Hlook & Hrest). exists state, k. by rewrite Heq.
Qed.

(** What the queue of a run leaves in the tracker: the entry of a succeeded
    recording is the one its download wrote, that of a failed one is as it
    was when the run started. *)
Lemma queue_leaves mode evs c succeeded failed :
  NoDup (rec_id <$> (candidates w opts mode).1) →
  run (candidates w opts mode).1 (processor_of w opts) (opt_concurrency opts) evs
    (init (candidates w opts mode).1 (processor_of w opts) (opt_concurrency opts)
       (load (w_stateFile w))) = Some c →
  c_returned c = Some (succeeded, failed) →
  succeeded ++ failed.*1 ≡ₚ (candidates w opts mode).1
  ∧ (∀ r, r ∈ succeeded → entry_written w r (c_store c))
  ∧ (∀ r, r ∈ failed.*1 →
          ss_recordings (c_store c) !! rec_id r
          = ss_recordings (load (w_stateFile w)) !! rec_id r).
Proof.
  intros Hnodup Hrun Hret.
  set (toProcess := (candidates w opts mode).1) in *.
  set (s0 := load (w_stateFile w)) in *.
  set (P := λ s : SyncState,
         ∀ r, r ∈ toProcess →
              ss_recordings s !! rec_id r = ss_recordings s0 !! rec_id r
              ∨ (outcome w opts r = None ∧ entry_written w r s)).
  set (R := λ (r : PlaudRecording) (res : option Thrown), res = outcome w opts r).
  set (Q := λ (r : PlaudRecording) (s : SyncState),
         outcome w opts r = None → entry_written w r s).
  assert (Hother : ∀ r r' k a h s,
            rec_id r ≠ rec_id r' →
            ss_recordings
              (markComplete (w_now_markComplete w (rec_id r') k) (rec_id r')
                 (rec_recordedAt r') a h (computeContentHash r') s) !! rec_id r
            = ss_recordings s !! rec_id r).
  { intros r r' k a h s Hne. simpl. by rewrite lookup_insert_ne. }
  destruct (engine_queue_result w opts toProcess P R Q s0 evs c succeeded failed)
    as (HP & Hperm & Hsucc & Hfail & HQ); try done.
  - intros r' s Hr' HPs r Hr.
    pose proof (process_recording_spec r' s) as Hspec.
    destruct (outcome w opts r') as [e|] eqn:Hout.
    + rewrite Hspec. by apply HPs.
    + destruct Hspec as (k & a & h & ->). simpl snd.
      destruct (decide (rec_id r = rec_id r')) as [Hid|Hne].
      * assert (r = r') as -> by (by eapply (NoDup_fmap_eq rec_id)).
        right. split; [done|]. apply entry_written_markComplete.
      * destruct (HPs r Hr) as [Hsame|[Ho Hw]].
        -- left. by rewrite Hother.
        -- right. split; [done|].
           eapply entry_written_frame; [|done]. by apply Hother.
  - intros r s Hr _. unfold R.
    pose proof (process_recording_spec r s) as Hspec.
    destruct (outcome w opts r) as [e|]; [by rewrite Hspec|].
    by destruct Hspec as (k & a & h & ->).
  - intros r s Hr _ Hout.
    pose proof (process_recording_spec r s) as Hspec. rewrite Hout in Hspec.
    destruct Hspec as (k & a & h & ->). apply entry_written_markComplete.
  - intros r r' s Hr Hr' Hne HQr Hout.
    specialize (HQr Hout).
    pose proof (process_recording_spec r' s) as Hspec.
    destruct (outcome w opts r') as [e|]; [by rewrite Hspec|].
    destruct Hspec as (k & a & h & ->).
    eapply entry_written_frame; [|done]. apply Hother.
    intros Hid. apply Hne; [by eapply NoDup_fmap_1|].
    by eapply (NoDup_fmap_eq rec_id).
  - intros r Hr. by left.
  - split; [done|]. split.
    + intros r Hr. apply HQ.
      * rewrite <- Hperm. apply elem_of_app. by left.
      * symmetry. by apply (proj1 (Forall_forall _ _) Hsucc r).
    + intros r ([r' e] & -> & Hin)%list_elem_of_fmap. simpl.
      destruct (proj1 (Forall_forall _ _) Hfail _ Hin) as (e' & _ & Hout).
      unfold R in Hout. simpl in Hout.
      assert (Hr : r' ∈ toProcess).
      { rewrite <- Hperm. apply elem_of_app. right.
        apply list_elem_of_fmap. by exists (r', e). }
      destruct (HP r' Hr) as [Hsame|[Ho _]]; [done|congruence].
Qed.
End TrackerAfterRun.

Section NextRun.
Context `{Runtime}.
Variable w : World.
Variable opts : SyncOptions.

(** The state a completed run has written, in terms of its queue. *)
Lemma SyncEngine_run_persisted mode evs result persisted :
  SyncEngine_run w opts mode evs = RunCompletes result (Some persisted) →
  ∃ c succeeded failed,
    run (candidates w opts mode).1 (processor_of w opts) (opt_concurrency opts) evs
      (init (candidates w opts mode).1 (processor_of w opts) (opt_concurrency opts)
         (load (w_stateFile w))) = Some c
    ∧ c_returned c = Some (succeeded, failed)
    ∧ ss_recordings persisted = ss_recordings (c_store c)
    ∧ (sr_errors result).*1 = rec_id <$> failed.*1.
Proof.
  intros [(_ & _ & [=])|(_ & c & succeeded & failed & Hrun & Hret & Hfin)]%SyncEngine_run_completes.
  exists c, succeeded, failed. split; [done|]. split; [done|].
  unfold finalize in Hfin. destruct (w_persist w); [done|].
  destruct (if opt_includeDataset opts then w_datasetClose w else inr ()); [done|].
  injection Hfin as <- <-. simpl. split.
  - by case_bool_decide.
  - rewrite <- !list_fmap_compose. done.
Qed.

(** X13: after a completed run, every recording that was attempted and is
    not reported in [errors] has in the tracker the entry its download wrote,
    with the fingerprint of the recording as listed.  The state file holds
    that entry, unless the id of the recording is ["__proto__"], which is
    never written.  The next sync pass, which starts from the file, therefore
    asks for the recording again only if it advertises a transcript that
    could not be stored, and asks for a recording with the id ["__proto__"]
    every time. *)
Theorem run_tracks_succeeded mode evs result persisted recording :
  SyncEngine_run w opts mode evs = RunCompletes result (Some persisted) →
  NoDup (rec_id <$> (candidates w opts mode).1) →
  (∀ id attempt, w_now_markComplete w id attempt ≠ EmptyString) →
  recording ∈ (candidates w opts mode).1 →
  rec_id recording ∉ (sr_errors result).*1 →
  ∃ state,
    ss_recordings persisted !! rec_id recording = Some state
    ∧ st_contentHash state = Some (computeContentHash recording)
    ∧ ss_recordings (written persisted) !! rec_id recording
      = (if bool_decide (rec_id recording = "__proto__") then None else Some state)
    ∧ needsDownload (load (Some (written persisted))) recording
      = (if bool_decide (rec_id recording = "__proto__") then true
         else rec_hasTranscript recording && negb (st_hasTranscript state)).
Proof.
  intros (c & succeeded & failed & Hrun & Hret & Hrecs & Herrs)%SyncEngine_run_persisted
    Hnodup Hnow Hin Hnoerr.
  destruct (queue_leaves w opts mode evs c succeeded failed Hnodup Hrun Hret)
    as (Hperm & Hsucc & _).
  assert (Hs : recording ∈ succeeded).
  { rewrite <- Hperm in Hin. apply elem_of_app in Hin as [?|Hf]; [done|].
    exfalso. apply Hnoerr. rewrite Herrs. by apply list_elem_of_fmap_2. }
  destruct (Hsucc _ Hs) as (state & k & Hlook & _ & Hhash & Hat & _).
  exists state. rewrite <- Hrecs in Hlook. split; [done|]. split; [done|].
  change (load (Some (written persisted))) with (written persisted).
  rewrite written_lookup, needsDownload_written, Hlook.
  split; [done|]. case_bool_decide; [done|].
  unfold needsDownload. rewrite Hlook, Hhash, Hat.
  rewrite bool_decide_eq_false_2 by (by intros ?).
  specialize (Hnow (rec_id recording) k). simpl.
  destruct (w_now_markComplete w (rec_id recording) k); [done|]. simpl.
  destruct (st_hasTranscript state), (rec_hasTranscript recording); done.
Qed.

(** X14: a recording reported in [errors] leaves no trace in the state
    written by the run: its entry is the one the run started from, so
    [needsDownload] answers as it did; after a sync it answers [true], and
    the next sync tries the recording again. *)
Theorem run_retries_failed mode evs result persisted recording :
  SyncEngine_run w opts mode evs = RunCompletes result (Some persisted) →
  NoDup (rec_id <$> (candidates w opts mode).1) →
  recording ∈ (candidates w opts mode).1 →
  rec_id recording ∈ (sr_errors result).*1 →
  ss_recordings persisted !! rec_id recording
  = ss_recordings (load (w_stateFile w)) !! rec_id recording
  ∧ needsDownload persisted recording
    = needsDownload (load (w_stateFile w)) recording
  ∧ (mode = Sync → needsDownload persisted recording = true).
Proof.
  intros (c & succeeded & failed & Hrun & Hret & Hrecs & Herrs)%SyncEngine_run_persisted
    Hnodup Hin Herr.
  destruct (queue_leaves w opts mode evs c succeeded failed Hnodup Hrun Hret)
    as (Hperm & _ & Hfail).
  assert (Hf : recording ∈ failed.*1).
  { rewrite Herrs in Herr. apply list_elem_of_fmap in Herr as (r' & Hid & Hr').
    assert (r' ∈ (candidates w opts mode).1) as Hin'.
    { rewrite <- Hperm. apply elem_of_app. by right. }
    by rewrite (NoDup_fmap_eq rec_id _ _ _ Hnodup Hin Hin' Hid). }
  assert (Hsame : ss_recordings persisted !! rec_id recording
                  = ss_recordings (load (w_stateFile w)) !! rec_id recording).
  { rewrite Hrecs. by apply Hfail. }
  assert (Hneeds : needsDownload persisted recording
                   = needsDownload (load (w_stateFile w)) recording).
  { apply needsDownload_same_entry; by rewrite Hsame. }
  split; [done|]. split; [done|]. intros ->. rewrite Hneeds.
  unfold candidates in Hin.
  destruct (collect opts Sync (load (w_stateFile w)) _ [] []) as [tp sk] eqn:Hcollect.
  destruct (collect_spec _ _ _ _ _ _ _ _ Hcollect) as (k & _ & Htp & _).
  simpl in Hin, Htp. subst tp.
  by apply list_elem_of_filter in Hin as [? _].
Qed.
End NextRun.

Lemma run_tracks_succeeded_witness :
  (∃ result persisted,
     SyncEngine_run Sample.world Sample.options Sync Sample.scenario_C_schedule
     = RunCompletes result (Some persisted)
     ∧ needsDownload (load (Some (written persisted))) (Sample.recording "r1" true)
       = false
     ∧ needsDownload (load (Some (written persisted))) (Sample.recording "r2" true)
       = true)
  ∧ ∃ result persisted,
      SyncEngine_run Fixture.world_proto Sample.options Sync Fixture.proto_schedule
      = RunCompletes result (Some persisted)
      ∧ sr_succeeded result = 1%nat
      ∧ sr_errors result = []
      ∧ needsDownload persisted (Sample.recording "__proto__" false) = false
      ∧ ss_recordings (written persisted) !! "__proto__" = None
      ∧ needsDownload (load (Some (written persisted)))
          (Sample.recording "__proto__" false) = true.
Proof.
  assert (Hnow : ∀ id attempt,
            w_now_markComplete Sample.world id attempt ≠ EmptyString) by done.
  assert (Hnow' : ∀ id attempt,
            w_now_markComplete Fixture.world_proto id attempt ≠ EmptyString) by done.
  split.
  - destruct Sample.scenario_C_outcome as [| |result [persisted|]] eqn:Hout;
      try discriminate Hout.
    assert (Hrun : SyncEngine_run Sample.world Sample.options Sync
                     Sample.scenario_C_schedule = RunCompletes result (Some persisted)).
    { rewrite <- Hout. vm_compute. reflexivity. }
    assert (Hnodup : NoDup (rec_id <$> (candidates Sample.world Sample.options Sync).1)).
    { refine (bool_decide_unpack (NoDup ["r1"; "r2"; "r3"]) _). vm_compute. exact I. }
    assert (Herrors : sr_errors result = []).
    { injection Hout as <- _. reflexivity. }
    exists result, persisted. split; [exact Hrun|]. split.
    + destruct (run_tracks_succeeded Sample.world Sample.options Sync
                  Sample.scenario_C_schedule result persisted
                  (Sample.recording "r1" true) Hrun Hnodup
                  Hnow)
        as (state & Hlook & _ & _ & ->).
      * apply list_elem_of_here.
      * rewrite Herrors. apply not_elem_of_nil.
      * injection Hout as _ <-. vm_compute in Hlook. injection Hlook as <-.
        vm_compute. reflexivity.
    + destruct (run_tracks_succeeded Sample.world Sample.options Sync
                  Sample.scenario_C_schedule result persisted
                  (Sample.recording "r2" true) Hrun Hnodup
                  Hnow)
        as (state & Hlook & _ & _ & ->).
      * apply list_elem_of_further, list_elem_of_here.
      * rewrite Herrors. apply not_elem_of_nil.
      * injection Hout as _ <-. vm_compute in Hlook. injection Hlook as <-.
        vm_compute. reflexivity.
  - destruct Fixture.proto_outcome as [| |result [persisted|]] eqn:Hout;
      try discriminate Hout.
    assert (Hrun : SyncEngine_run Fixture.world_proto Sample.options Sync
                     Fixture.proto_schedule = RunCompletes result (Some persisted)).
    { rewrite <- Hout. vm_compute. reflexivity. }
    assert (Hnodup : NoDup (rec_id <$> (candidates Fixture.world_proto
                                          Sample.options Sync).1)).
    { refine (bool_decide_unpack (NoDup ["__proto__"]) _). vm_compute. exact I. }
    assert (Herrors : sr_errors result = []).
    { injection Hout as <- _. reflexivity. }
    exists result, persisted. split; [exact Hrun|].
    split; [injection Hout as <- _; reflexivity|].
    split; [exact Herrors|].
    split; [injection Hout as _ <-; vm_compute; reflexivity|].
    destruct (run_tracks_succeeded Fixture.world_proto Sample.options Sync
                Fixture.proto_schedule result persisted
                (Sample.recording "__proto__" false) Hrun Hnodup
                Hnow')
      as (state & _ & _ & Hfile & Hneeds).
    + apply list_elem_of_here.
    + rewrite Herrors. apply not_elem_of_nil.
    + split; [exact Hfile|exact Hneeds].
Defined.

Lemma run_retries_failed_witness :
  ∃ result persisted,
    SyncEngine_run Sample.world_failing Sample.options Sync Sample.scenario_C_schedule
    = RunCompletes result (Some persisted)
    ∧ (sr_errors result).*1 = ["r2"]
    ∧ needsDownload persisted (Sample.recording "r2" true) = true.
Proof.
  destruct Sample.failing_outcome as [| |result [persisted|]] eqn:Hout;
    try discriminate Hout.
  assert (Hrun : SyncEngine_run Sample.world_failing Sample.options Sync
                   Sample.scenario_C_schedule = RunCompletes result (Some persisted)).
  { rewrite <- Hout. vm_compute. reflexivity. }
  assert (Hnodup : NoDup (rec_id <$> (candidates Sample.world_failing Sample.options Sync).1)).
  { refine (bool_decide_unpack (NoDup ["r1"; "r2"; "r3"]) _). vm_compute. exact I. }
  assert (Herrors : (sr_errors result).*1 = ["r2"]).
  { injection Hout as <- _. reflexivity. }
  exists result, persisted. split; [exact Hrun|]. split; [exact Herrors|].
  destruct (run_retries_failed Sample.world_failing Sample.options Sync
              Sample.scenario_C_schedule result persisted
              (Sample.recording "r2" true) Hrun Hnodup) as (_ & _ & Hneeds).
  - apply list_elem_of_further, list_elem_of_here.
  - rewrite Herrors. apply list_elem_of_here.
  - by apply Hneeds.
Defined.
